(** * rgb-curve: the curve engine (point sets, interpolators, LUTs, session)

    A shallow embedding of the curve utilities ([sortPoints],
    [monotoneCubicInterpolation], [catmullRomInterpolation],
    [generateChannelLUT], [generateLUT], [applyLUT]) and of the
    [useCurvePoints] hook ([addPoint], [removePoint], [updatePoint] and the
    resets), with the properties the specification states about them.

    Control-point coordinates, pixel values and indices are JavaScript numbers
    that hold integers; they are modelled as [Z].  The arithmetic inside the
    two interpolators is written once, over the interface [JSNumber], and
    read at two instances: [binary64] (IEEE-754 doubles, the kernel's
    primitive floats: what the engine computes, bit for bit) and [exact]
    (the real numbers: the mathematical reading of the same formulas).
    Statements that hold by the control flow alone are proved for every
    instance; evaluations are done in [binary64]; the two analytic
    properties (control points, monotone data) are proved in [exact].

    Around the engine, the development also covers the helpers of the
    canvas ([findInsertIndex], [isPointNear]), the [useCanvasInteraction]
    hook ([canvasToCurve], [curveToCanvas], [findPointAtPosition] and the
    mouse handlers, as a machine that turns events into callbacks), the
    geometry that [drawCurve] and [drawHistogram] put on the canvas, the
    [RGBCurve] component as the wiring of the session to the canvas and the
    tabs, and the pixel loop of the demo. *)

From Stdlib Require Import ZArith List Bool Lia Sorted Permutation.
From Stdlib Require Import Floats Uint63 Reals Lra Psatz.
Import ListNotations.

Local Open Scope Z_scope.

(** ** Numbers *)

(** The operations on [number] that the interpolators use. *)
Class JSNumber (N : Type) : Type := {
  ofZ : Z -> N;                (* an integer-valued number *)
  half : N;                    (* the literal 0.5 *)
  nadd : N -> N -> N;
  nsub : N -> N -> N;
  nmul : N -> N -> N;
  ndiv : N -> N -> N;
  nneg : N -> N;               (* unary minus *)
  nsqrt : N -> N;              (* Math.sqrt *)
  nlt : N -> N -> bool;        (* a < b *)
  nle : N -> N -> bool;        (* a <= b *)
  nequal : N -> N -> bool;        (* a === b *)
  nround : N -> N;             (* Math.round *)
  nmax : N -> N -> N;          (* Math.max *)
  nmin : N -> N -> N;          (* Math.min *)
  toUint8 : N -> Z             (* the value a Uint8Array cell holds after a store *)
}.

Declare Scope num_scope.
Delimit Scope num_scope with num.
Infix "+" := nadd : num_scope.
Infix "-" := nsub : num_scope.
Infix "*" := nmul : num_scope.
Infix "/" := ndiv : num_scope.
Notation "- a" := (nneg a) : num_scope.
Infix "<?" := nlt : num_scope.
Infix "<=?" := nle : num_scope.
Infix "===" := nequal (at level 70, no associativity) : num_scope.
Notation "a >? b" := (nlt b a) : num_scope.
Notation "a >=? b" := (nle b a) : num_scope.
Notation "# z" := (ofZ z%Z) (at level 1, format "# z") : num_scope.

(** ** Data model *)

(** [interface CurvePoint { x: number; y: number }], at integer coordinates. *)
Record CurvePoint : Type := mkPoint { px : Z; py : Z }.

Inductive Channel : Type := master | red | green | blue.

(** [type ChannelPoints = Record<Channel, CurvePoint[]>]. *)
Record ChannelPoints : Type := mkChannelPoints {
  cp_master : list CurvePoint;
  cp_red : list CurvePoint;
  cp_green : list CurvePoint;
  cp_blue : list CurvePoint
}.

(** [interface LUTData]: four [Uint8Array]s, as lists of cell values. *)
Record LUTData : Type := mkLUT {
  lut_master : list Z;
  lut_red : list Z;
  lut_green : list Z;
  lut_blue : list Z
}.

Inductive Interpolation : Type := monotone | catmullRom.

Definition MIN_POINT_DISTANCE : Z := 5.

(** [points[channel]] and [{ ...points, [channel]: v }]. *)
Definition getChannel (points : ChannelPoints) (channel : Channel) : list CurvePoint :=
  match channel with
  | master => cp_master points
  | red => cp_red points
  | green => cp_green points
  | blue => cp_blue points
  end.

Definition setChannel (points : ChannelPoints) (channel : Channel)
    (v : list CurvePoint) : ChannelPoints :=
  match channel with
  | master => mkChannelPoints v (cp_red points) (cp_green points) (cp_blue points)
  | red => mkChannelPoints (cp_master points) v (cp_green points) (cp_blue points)
  | green => mkChannelPoints (cp_master points) (cp_red points) v (cp_blue points)
  | blue => mkChannelPoints (cp_master points) (cp_red points) (cp_green points) v
  end.

(** ** curve.ts: helpers on integer arguments *)

(** [clamp(value, min, max) = Math.min(Math.max(value, min), max)]. *)
Definition clamp (value min max : Z) : Z := Z.min (Z.max value min) max.

Definition getDefaultPoints : list CurvePoint :=
  [ mkPoint 0 0; mkPoint 255 255 ].

Definition getDefaultChannelPoints : ChannelPoints :=
  mkChannelPoints getDefaultPoints getDefaultPoints getDefaultPoints getDefaultPoints.

(** [Array.prototype.sort] with the comparator [(a, b) => a.x - b.x]: the
    sort is stable, so the result is the one ordered list that keeps equal
    keys in their input order.  [insertPoint p l] puts [p] in front of the
    first element it does not come after. *)
Fixpoint insertPoint (p : CurvePoint) (l : list CurvePoint) : list CurvePoint :=
  match l with
  | [] => [p]
  | q :: l' => if px p - px q <=? 0 then p :: l else q :: insertPoint p l'
  end.

(** [sortPoints(points) = [...points].sort((a, b) => a.x - b.x)]. *)
Definition sortPoints (points : list CurvePoint) : list CurvePoint :=
  fold_right insertPoint [] points.

(** ** curve.ts: the interpolators *)

Section Interpolators.
Context {N : Type} {num : JSNumber N}.
Local Open Scope num_scope.

(** [clamp] at a number that need not be an integer. *)
Definition nclamp (value min max : N) : N := nmin (nmax value min) max.

Definition X (p : CurvePoint) : N := #(px p).
Definition Y (p : CurvePoint) : N := #(py p).

(** [sorted[i]] at an index the caller has checked. *)
Definition at_ (sorted : list CurvePoint) (i : nat) : CurvePoint :=
  nth i sorted (mkPoint 0 0).

(** [let i = 0; while (i < n - 1 && sorted[i + 1].x < x) i++;] started at
    index [i] with [sorted] the points from index [i] on. *)
Fixpoint findSegment (sorted : list CurvePoint) (x : N) (i : nat) : nat :=
  match sorted with
  | _ :: ((q :: _) as rest) =>
      if X q <? x then findSegment rest x (S i) else i
  | _ => i
  end.

(** "// Ensure monotonicity": the Fritsch-Carlson limiter, from the secant
    slope and the two tangents to the two tangents the cubic uses. *)
Definition limitTangents (slope m0 m1 : N) : N * N :=
  if slope === #0 then (#0, #0)
  else
    let alpha := m0 / slope in
    let beta := m1 / slope in
    let m0 := if alpha <? #0 then #0 else m0 in
    let m1 := if beta <? #0 then #0 else m1 in
    let sum := alpha * alpha + beta * beta in
    if sum >? #9 then
      let tau := #3 / nsqrt sum in
      (tau * alpha * slope, tau * beta * slope)
    else (m0, m1).

(** "// Hermite interpolation", to the end of the function. *)
Definition hermite (x0 y0 y1 dx m0 m1 x : N) : N :=
  let t := (x - x0) / dx in
  let t2 := t * t in
  let t3 := t2 * t in
  let h00 := #2 * t3 - #3 * t2 + #1 in
  let h10 := t3 - #2 * t2 + t in
  let h01 := #(-2) * t3 + #3 * t2 in
  let h11 := t3 - t2 in
  let result := h00 * y0 + h10 * dx * m0 + h01 * y1 + h11 * dx * m1 in
  nclamp (nround result) #0 #255.

(** [monotoneCubicInterpolation] on segment [i], from
    "const x0 = sorted[i].x" on. *)
Definition monotoneSegment (sorted : list CurvePoint) (n i : nat) (x : N) : N :=
  let x0 := X (at_ sorted i) in
  let x1 := X (at_ sorted (i + 1)) in
  let y0 := Y (at_ sorted i) in
  let y1 := Y (at_ sorted (i + 1)) in
  let dx := x1 - x0 in
  let dy := y1 - y0 in
  if dx === #0 then y0 else
  let m0 :=
    if Nat.eqb i 0 then dy / dx
    else
      let prevDx := x0 - X (at_ sorted (i - 1)) in
      let prevDy := y0 - Y (at_ sorted (i - 1)) in
      if prevDx === #0 then #0 else (dy / dx + prevDy / prevDx) / #2 in
  let m1 :=
    if Nat.eqb i (n - 2) then dy / dx
    else
      let nextDx := X (at_ sorted (i + 2)) - x1 in
      let nextDy := Y (at_ sorted (i + 2)) - y1 in
      if nextDx === #0 then #0 else (dy / dx + nextDy / nextDx) / #2 in
  let slope := dy / dx in
  let '(m0, m1) := limitTangents slope m0 m1 in
  hermite x0 y0 y1 dx m0 m1 x.

(** [monotoneCubicInterpolation] after "const sorted = sortPoints(points)". *)
Definition monotoneCubicOn (sorted : list CurvePoint) (x : N) : N :=
  let n := length sorted in
  if Nat.eqb n 0 then x else
  if Nat.eqb n 1 then Y (at_ sorted 0) else
  if x <=? X (at_ sorted 0) then Y (at_ sorted 0) else
  if x >=? X (at_ sorted (n - 1)) then Y (at_ sorted (n - 1)) else
  let i := findSegment sorted x 0 in
  monotoneSegment sorted n i x.

Definition monotoneCubicInterpolation (points : list CurvePoint) (x : N) : N :=
  monotoneCubicOn (sortPoints points) x.

(** [catmullRomInterpolation] on segment [i], from "const p0 = ..." on. *)
Definition catmullRomSegment (sorted : list CurvePoint) (n i : nat) (x : N) : N :=
  let p0 := at_ sorted (Nat.max 0 (i - 1)) in
  let p1 := at_ sorted i in
  let p2 := at_ sorted (Nat.min (n - 1) (i + 1)) in
  let p3 := at_ sorted (Nat.min (n - 1) (i + 2)) in
  let dx := X p2 - X p1 in
  if dx === #0 then Y p1 else
  let t := (x - X p1) / dx in
  let t2 := t * t in
  let t3 := t2 * t in
  let result :=
    half *
    (#2 * Y p1 +
     (- Y p0 + Y p2) * t +
     (#2 * Y p0 - #5 * Y p1 + #4 * Y p2 - Y p3) * t2 +
     (- Y p0 + #3 * Y p1 - #3 * Y p2 + Y p3) * t3) in
  nclamp (nround result) #0 #255.

(** [catmullRomInterpolation] after "const sorted = sortPoints(points)". *)
Definition catmullRomOn (sorted : list CurvePoint) (x : N) : N :=
  let n := length sorted in
  if Nat.eqb n 0 then x else
  if Nat.eqb n 1 then Y (at_ sorted 0) else
  if x <=? X (at_ sorted 0) then Y (at_ sorted 0) else
  if x >=? X (at_ sorted (n - 1)) then Y (at_ sorted (n - 1)) else
  let i := findSegment sorted x 0 in
  catmullRomSegment sorted n i x.

Definition catmullRomInterpolation (points : list CurvePoint) (x : N) : N :=
  catmullRomOn (sortPoints points) x.

Definition interpolate (interpolation : Interpolation) :
    list CurvePoint -> N -> N :=
  match interpolation with
  | monotone => monotoneCubicInterpolation
  | catmullRom => catmullRomInterpolation
  end.

(** [for (let i = 0; i < 256; i++) lut[i] = interpolate(points, i);] on a
    fresh [Uint8Array(256)]. *)
Definition generateChannelLUT (points : list CurvePoint)
    (interpolation : Interpolation) : list Z :=
  map (fun i => toUint8 (interpolate interpolation points #(Z.of_nat i)))
      (seq 0 256).

Definition generateLUT (channelPoints : ChannelPoints)
    (interpolation : Interpolation) : LUTData :=
  mkLUT (generateChannelLUT (cp_master channelPoints) interpolation)
        (generateChannelLUT (cp_red channelPoints) interpolation)
        (generateChannelLUT (cp_green channelPoints) interpolation)
        (generateChannelLUT (cp_blue channelPoints) interpolation).

End Interpolators.

(** ** The two readings of [number] *)

(** *** IEEE-754 binary64 *)

Module Binary64.

(** An integer as a double: exact up to 2^53 in magnitude, far above any
    coordinate, literal or index of the engine. *)
Definition of_Z (z : Z) : float :=
  match z with
  | Z0 => PrimFloat.zero
  | Zpos _ => PrimFloat.of_uint63 (Uint63.of_Z z)
  | Zneg p => PrimFloat.opp (PrimFloat.of_uint63 (Uint63.of_Z (Zpos p)))
  end.

(** [Math.round]: the nearest integer, ties towards +infinity; NaN, the
    infinities and the zeros are returned as they are, and a negative
    argument that rounds to zero gives -0. *)
Definition round (f : float) : float :=
  match Prim2SF f with
  | S754_finite s m e =>
      if (0 <=? e)%Z then f
      else
        let sm := if s then Zneg m else Zpos m in
        let r := Z.shiftr (sm + Z.shiftl 1 (- e - 1)) (- e) in
        if (r =? 0)%Z then (if s then PrimFloat.neg_zero else PrimFloat.zero)
        else of_Z r
  | _ => f
  end.

(** [Math.max] and [Math.min]: NaN if an argument is NaN, and -0 below +0. *)
Definition max (a b : float) : float :=
  if PrimFloat.is_nan a || PrimFloat.is_nan b then PrimFloat.nan
  else if PrimFloat.ltb a b then b
  else if PrimFloat.ltb b a then a
  else if PrimFloat.get_sign a then b else a.

Definition min (a b : float) : float :=
  if PrimFloat.is_nan a || PrimFloat.is_nan b then PrimFloat.nan
  else if PrimFloat.ltb a b then a
  else if PrimFloat.ltb b a then b
  else if PrimFloat.get_sign a then a else b.

(** The store [lut[i] = v] into a [Uint8Array] (ToUint8): NaN and the
    infinities become 0, anything else is truncated and taken modulo 256. *)
Definition to_uint8 (f : float) : Z :=
  match Prim2SF f with
  | S754_finite s m e =>
      let a := if (0 <=? e)%Z then Z.shiftl (Zpos m) e
               else Z.shiftr (Zpos m) (- e) in
      (if s then - a else a) mod 256
  | _ => 0
  end.

#[export] Instance binary64 : JSNumber float := {
  ofZ := of_Z;
  half := 0.5%float;
  nadd := PrimFloat.add;
  nsub := PrimFloat.sub;
  nmul := PrimFloat.mul;
  ndiv := PrimFloat.div;
  nneg := PrimFloat.opp;
  nsqrt := PrimFloat.sqrt;
  nlt := PrimFloat.ltb;
  nle := PrimFloat.leb;
  nequal := PrimFloat.eqb;
  nround := round;
  nmax := max;
  nmin := min;
  toUint8 := to_uint8
}.

End Binary64.

Import Binary64.

(** *** Exact real arithmetic *)

Module Exact.

(** The largest integer not above [r]. *)
Definition floor (r : R) : Z := up r - 1.

(** [Math.round]: the nearest integer, ties towards +infinity. *)
Definition round (r : R) : R := IZR (floor (r + / 2)).

Definition ltb (a b : R) : bool := if Rlt_dec a b then true else false.
Definition leb (a b : R) : bool := if Rle_dec a b then true else false.
Definition eqb (a b : R) : bool := if Req_dec_T a b then true else false.

(** ToUint8: truncate towards zero, then modulo 256. *)
Definition to_uint8 (r : R) : Z :=
  (if Rle_dec 0 r then floor r else - floor (- r)) mod 256.

#[export] Instance exact : JSNumber R := {
  ofZ := IZR;
  half := (/ 2)%R;
  nadd := Rplus;
  nsub := Rminus;
  nmul := Rmult;
  ndiv := Rdiv;
  nneg := Ropp;
  nsqrt := sqrt;
  nlt := ltb;
  nle := leb;
  nequal := eqb;
  nround := round;
  nmax := Rmax;
  nmin := Rmin;
  toUint8 := to_uint8
}.

End Exact.

Import Exact.

(** ** curve.ts: applying a LUT *)

(** [a[i]] on a typed array at an integer index: [None] is [undefined]. *)
Definition cell (a : list Z) (i : Z) : option Z :=
  if i <? 0 then None else nth_error a (Z.to_nat i).

(** [a[v]] where [v] is itself the result of a lookup. *)
Definition cellOf (a : list Z) (v : option Z) : option Z :=
  match v with
  | Some i => cell a i
  | None => None
  end.

(** [applyLUT(r, g, b, lut)]. *)
Definition applyLUT (r g b : Z) (lut : LUTData) : option Z * option Z * option Z :=
  let newR := cell (lut_red lut) (clamp r 0 255) in
  let newG := cell (lut_green lut) (clamp g 0 255) in
  let newB := cell (lut_blue lut) (clamp b 0 255) in
  let newR := cellOf (lut_master lut) newR in
  let newG := cellOf (lut_master lut) newG in
  let newB := cellOf (lut_master lut) newB in
  (newR, newG, newB).

(** What [new Uint8Array(256)] filled by [generateChannelLUT] is: 256 cells,
    each a byte. *)
Definition wellFormedLUT (a : list Z) : Prop :=
  length a = 256%nat /\ Forall (fun v => 0 <= v <= 255) a.

Definition wellFormedLUTData (lut : LUTData) : Prop :=
  wellFormedLUT (lut_master lut) /\ wellFormedLUT (lut_red lut) /\
  wellFormedLUT (lut_green lut) /\ wellFormedLUT (lut_blue lut).

(** ** useCurvePoints.ts: the curve session *)

(** [Partial<ChannelPoints>]: a channel may be missing. *)
Record PartialChannelPoints : Type := mkPartial {
  pc_master : option (list CurvePoint);
  pc_red : option (list CurvePoint);
  pc_green : option (list CurvePoint);
  pc_blue : option (list CurvePoint)
}.

(** [v || d] on an optional array (an array, even [[]], is truthy). *)
Definition orElse (v : option (list CurvePoint)) (d : list CurvePoint) :
    list CurvePoint :=
  match v with
  | Some a => a
  | None => d
  end.

(** [{ master: p.master || defaults.master, red: ..., ... }]. *)
Definition mergeWithDefaults (p : PartialChannelPoints) : ChannelPoints :=
  let defaults := getDefaultChannelPoints in
  mkChannelPoints (orElse (pc_master p) (cp_master defaults))
                  (orElse (pc_red p) (cp_red defaults))
                  (orElse (pc_green p) (cp_green defaults))
                  (orElse (pc_blue p) (cp_blue defaults)).

(** The hook between two renders: the options it was given, its state cell
    [internalPoints], and the calls it has made to [onChange] so far. *)
Record Session : Type := mkSession {
  controlledPoints : option PartialChannelPoints;
  interpolation : Interpolation;
  listening : bool;                 (* an [onChange] was given *)
  internalPoints : ChannelPoints;
  notified : list (ChannelPoints * LUTData)
}.

(** A statement either completes or throws a [TypeError] (reading a
    property of [undefined]). *)
Inductive Completion (A : Type) : Type :=
| Normal (a : A)
| TypeError.
Arguments Normal {A} a.
Arguments TypeError {A}.

Definition bindC {A B : Type} (c : Completion A) (k : A -> Completion B) :
    Completion B :=
  match c with
  | Normal a => k a
  | TypeError => TypeError
  end.

Notation "x <- c ;; k" := (bindC c (fun x => k))
  (at level 61, c at next level, right associativity).

(** [a[i]] on an array of points at an integer index. *)
Definition element (a : list CurvePoint) (i : Z) : option CurvePoint :=
  if i <? 0 then None else nth_error a (Z.to_nat i).

(** [v.x] where [v] may be [undefined]. *)
Definition dotX (v : option CurvePoint) : Completion Z :=
  match v with
  | Some p => Normal (px p)
  | None => TypeError
  end.

(** [a.filter((_, i) => keep(i))] and [a.map((p, i) => f(p, i))], with [i]
    counted from [from]. *)
Fixpoint filterIndex (keep : Z -> bool) (from : Z) (a : list CurvePoint) :
    list CurvePoint :=
  match a with
  | [] => []
  | p :: a' =>
      if keep from then p :: filterIndex keep (from + 1) a'
      else filterIndex keep (from + 1) a'
  end.

Fixpoint mapIndex (f : CurvePoint -> Z -> CurvePoint) (from : Z)
    (a : list CurvePoint) : list CurvePoint :=
  match a with
  | [] => []
  | p :: a' => f p from :: mapIndex f (from + 1) a'
  end.

Section CurveSession.
Context {N : Type} {num : JSNumber N}.

(** The initial state: "useState(initialPoints)". *)
Definition useCurvePoints (defaultPoints controlled : option PartialChannelPoints)
    (interpolation : Interpolation) (listening : bool) : Session :=
  let initialPoints :=
    match defaultPoints with
    | Some d => mergeWithDefaults d
    | None => getDefaultChannelPoints
    end in
  mkSession controlled interpolation listening initialPoints [].

(** "const points = useMemo(...)": the controlled points if given. *)
Definition points (s : Session) : ChannelPoints :=
  match controlledPoints s with
  | Some c => mergeWithDefaults c
  | None => internalPoints s
  end.

(** "const lut = useMemo(...)". *)
Definition lut (s : Session) : LUTData :=
  generateLUT (N:=N) (points s) (interpolation s).

Definition updatePoints (s : Session) (newPoints : ChannelPoints) : Session :=
  mkSession (controlledPoints s) (interpolation s) (listening s)
    (match controlledPoints s with
     | Some _ => internalPoints s
     | None => newPoints
     end)
    (if listening s
     then notified s ++ [(newPoints, generateLUT (N:=N) newPoints (interpolation s))]
     else notified s).

(** "for (const p of sorted) if (Math.abs(p.x - point.x) < MIN_POINT_DISTANCE) return;" *)
Definition tooClose (sorted : list CurvePoint) (point : CurvePoint) : bool :=
  existsb (fun p => Z.abs (px p - px point) <? MIN_POINT_DISTANCE) sorted.

Definition addPoint (channel : Channel) (point : CurvePoint) (s : Session) :
    Session :=
  let channelPoints := getChannel (points s) channel in
  let sorted := sortPoints channelPoints in
  if tooClose sorted point then s
  else
    let newChannelPoints := sortPoints (channelPoints ++ [point]) in
    updatePoints s (setChannel (points s) channel newChannelPoints).

Definition removePoint (channel : Channel) (index : Z) (s : Session) : Session :=
  let channelPoints := getChannel (points s) channel in
  if (length channelPoints <=? 2)%nat then s
  else
    let sorted := sortPoints channelPoints in
    if (index =? 0) || (index =? Z.of_nat (length sorted) - 1) then s
    else
      let newChannelPoints :=
        filterIndex (fun i => negb (i =? index)) 0 sorted in
      updatePoints s (setChannel (points s) channel newChannelPoints).

Definition updatePoint (channel : Channel) (index : Z) (newPoint : CurvePoint)
    (s : Session) : Completion Session :=
  let channelPoints := sortPoints (getChannel (points s) channel) in
  let isFirst := index =? 0 in
  let isLast := index =? Z.of_nat (length channelPoints) - 1 in
  x <- (if isFirst then Normal 0
        else if isLast then Normal 255
        else
          prev <- dotX (element channelPoints (index - 1)) ;;
          let prevX := prev + MIN_POINT_DISTANCE in
          next <- dotX (element channelPoints (index + 1)) ;;
          let nextX := next - MIN_POINT_DISTANCE in
          Normal (clamp (px newPoint) prevX nextX)) ;;
  let y := clamp (py newPoint) 0 255 in
  let newChannelPoints :=
    mapIndex (fun p i => if i =? index then mkPoint x y else p) 0 channelPoints in
  Normal (updatePoints s (setChannel (points s) channel newChannelPoints)).

Definition resetChannel (channel : Channel) (s : Session) : Session :=
  updatePoints s
    (setChannel (points s) channel (getChannel getDefaultChannelPoints channel)).

Definition resetAll (s : Session) : Session :=
  updatePoints s getDefaultChannelPoints.

Definition setChannelPoints (channel : Channel) (newChannelPoints : list CurvePoint)
    (s : Session) : Session :=
  updatePoints s (setChannel (points s) channel (sortPoints newChannelPoints)).

Definition setAllPoints (newPoints : PartialChannelPoints) (s : Session) :
    Session :=
  let m := mergeWithDefaults newPoints in
  updatePoints s
    (mkChannelPoints (sortPoints (cp_master m)) (sortPoints (cp_red m))
                     (sortPoints (cp_green m)) (sortPoints (cp_blue m))).

(** A caller's sequence of mutations.  A call that throws leaves the
    session as it was. *)
Inductive Call : Type :=
| AddPoint (channel : Channel) (point : CurvePoint)
| RemovePoint (channel : Channel) (index : Z)
| UpdatePoint (channel : Channel) (index : Z) (newPoint : CurvePoint).

Definition perform (s : Session) (c : Call) : Session :=
  match c with
  | AddPoint channel point => addPoint channel point s
  | RemovePoint channel index => removePoint channel index s
  | UpdatePoint channel index newPoint =>
      match updatePoint channel index newPoint s with
      | Normal s' => s'
      | TypeError => s
      end
  end.

Definition performAll (s : Session) (calls : list Call) : Session :=
  fold_left perform calls s.

End CurveSession.

(** Channel keys can be compared. *)
Lemma Channel_eq_dec (a b : Channel) : {a = b} + {a <> b}.
Proof. decide equality. Defined.

(** ** Arrays as objects

    [sortPoints] spreads its argument into a new array and sorts that one in
    place.  To say that the caller's array is left alone, arrays live in a
    store and are passed by reference. *)

Definition Ref : Type := nat.
Definition Store : Type := list (list CurvePoint).

(** A computation that may read and write the store. *)
Definition InStore (A : Type) : Type := Store -> A * Store.

Definition retS {A : Type} (a : A) : InStore A := fun h => (a, h).

Definition bindS {A B : Type} (m : InStore A) (k : A -> InStore B) : InStore B :=
  fun h => let '(a, h') := m h in k a h'.

Definition load (h : Store) (r : Ref) : list CurvePoint := nth r h [].

Fixpoint store (h : Store) (r : Ref) (v : list CurvePoint) : Store :=
  match h, r with
  | [], _ => []
  | _ :: h', O => v :: h'
  | a :: h', S r' => a :: store h' r' v
  end.

(** [[...a]]: a new array with the elements of [a]. *)
Definition spread (a : Ref) : InStore Ref :=
  fun h => (length h, h ++ [load h a]).

(** [a.sort((p, q) => p.x - q.x)]: sorts [a] itself and returns it. *)
Definition sortByX (a : Ref) : InStore Ref :=
  fun h => (a, store h a (sortPoints (load h a))).

Definition readS (a : Ref) : InStore (list CurvePoint) :=
  fun h => (load h a, h).

Section ByReference.
Context {N : Type} {num : JSNumber N}.

(** [sortPoints(points) = [...points].sort(...)] on references. *)
Definition sortPointsRef (points : Ref) : InStore Ref :=
  bindS (spread points) sortByX.

Definition monotoneCubicInterpolationRef (points : Ref) (x : N) : InStore N :=
  bindS (sortPointsRef points) (fun sorted =>
  bindS (readS sorted) (fun a =>
  retS (monotoneCubicOn a x))).

Definition catmullRomInterpolationRef (points : Ref) (x : N) : InStore N :=
  bindS (sortPointsRef points) (fun sorted =>
  bindS (readS sorted) (fun a =>
  retS (catmullRomOn a x))).

End ByReference.

(** ** curve.ts: the helpers of the canvas *)

Definition DEFAULT_WIDTH : Z := 300.
Definition DEFAULT_HEIGHT : Z := 300.
Definition POINT_HIT_THRESHOLD : Z := 12.

(** An object [{ x: number; y: number }] whose coordinates need not be
    integers: a position on the canvas, or a curve point as
    [canvasToCurve] computes it. *)
Record Position (N : Type) : Type := mkPosition { posX : N; posY : N }.
Arguments mkPosition {N} posX posY.
Arguments posX {N} p.
Arguments posY {N} p.

Section CanvasHelpers.
Context {N : Type} {num : JSNumber N}.
Local Open Scope num_scope.

(** [for (let i = 0; i < sorted.length; i++) if (sorted[i].x > x) return i;
    return sorted.length;] with the loop at index [i] and [sorted] the
    points from index [i] on. *)
Fixpoint firstAbove (sorted : list CurvePoint) (x : N) (i : nat) : nat :=
  match sorted with
  | [] => i
  | p :: rest => if X p >? x then i else firstAbove rest x (S i)
  end.

Definition findInsertIndex (points : list CurvePoint) (x : N) : nat :=
  firstAbove (sortPoints points) x 0.

Definition isPointNear (p1 p2 : Position N) (threshold : N) : bool :=
  let dx := posX p1 - posX p2 in
  let dy := posY p1 - posY p2 in
  nsqrt (dx * dx + dy * dy) <=? threshold.

End CanvasHelpers.

(** ** useCanvasInteraction.ts: the pointer on the canvas *)

(** The options of the hook; sizes are whole numbers of pixels.  The three
    callbacks are not fields: a handler returns the calls it makes. *)
Record CanvasOptions : Type := mkCanvasOptions {
  co_points : list CurvePoint;
  co_channel : Channel;
  co_width : Z;
  co_height : Z;
  co_disabled : bool
}.

(** The two state cells and the ref of the hook; [None] is [null]. *)
Record Interaction : Type := mkInteraction {
  activePointIndex : option nat;
  hoveredPointIndex : option nat;
  isDragging : bool
}.

(** A call of [onAddPoint], [onRemovePoint] or [onUpdatePoint]. *)
Inductive Callback (N : Type) : Type :=
| OnAddPoint (channel : Channel) (point : Position N)
| OnRemovePoint (channel : Channel) (index : nat)
| OnUpdatePoint (channel : Channel) (index : nat) (point : Position N).
Arguments OnAddPoint {N} channel point.
Arguments OnRemovePoint {N} channel index.
Arguments OnUpdatePoint {N} channel index point.

(** A mouse event on the canvas, with the position [getCanvasPosition]
    reads from it, or the [mouseup] the window hears. *)
Inductive PointerEvent (N : Type) : Type :=
| MouseDown (pos : Position N)
| MouseMove (pos : Position N)
| MouseUp
| MouseLeave
| DoubleClick (pos : Position N)
| GlobalMouseUp.
Arguments MouseDown {N} pos.
Arguments MouseMove {N} pos.
Arguments MouseUp {N}.
Arguments MouseLeave {N}.
Arguments DoubleClick {N} pos.
Arguments GlobalMouseUp {N}.

Section CanvasInteraction.
Context {N : Type} {num : JSNumber N}.
Local Open Scope num_scope.

Definition canvasToCurve (width height : Z) (canvasX canvasY : N) : Position N :=
  mkPosition (nround ((canvasX / #width) * #255))
             (nround ((#1 - canvasY / #height) * #255)).

Definition curveToCanvas (width height : Z) (curveX curveY : N) : Position N :=
  mkPosition ((curveX / #255) * #width)
             ((#1 - curveY / #255) * #height).

(** The loop of [findPointAtPosition] at index [i], with [sorted] the
    points from index [i] on. *)
Fixpoint findPointFrom (width height : Z) (sorted : list CurvePoint)
    (canvasX canvasY : N) (i : nat) : option nat :=
  match sorted with
  | [] => None
  | p :: rest =>
      let canvasPoint := curveToCanvas width height (X p) (Y p) in
      if isPointNear (mkPosition canvasX canvasY) canvasPoint #POINT_HIT_THRESHOLD
      then Some i
      else findPointFrom width height rest canvasX canvasY (S i)
  end.

Definition findPointAtPosition (o : CanvasOptions) (canvasX canvasY : N) :
    option nat :=
  let sorted := sortPoints (co_points o) in
  findPointFrom (co_width o) (co_height o) sorted canvasX canvasY 0.

(** The state before the first event. *)
Definition useCanvasInteraction : Interaction := mkInteraction None None false.

(** Each handler, from the state it sees to the state it leaves and the
    callbacks it calls. *)
Definition handleMouseDown (o : CanvasOptions) (pos : Position N)
    (st : Interaction) : Interaction * list (Callback N) :=
  if co_disabled o then (st, [])
  else
    match findPointAtPosition o (posX pos) (posY pos) with
    | Some pointIndex =>
        (mkInteraction (Some pointIndex) (hoveredPointIndex st) true, [])
    | None =>
        let curvePoint :=
          canvasToCurve (co_width o) (co_height o) (posX pos) (posY pos) in
        (st, [OnAddPoint (co_channel o) curvePoint])
    end.

Definition handleMouseMove (o : CanvasOptions) (pos : Position N)
    (st : Interaction) : Interaction * list (Callback N) :=
  if co_disabled o then (st, [])
  else
    match isDragging st, activePointIndex st with
    | true, Some active =>
        let curvePoint :=
          canvasToCurve (co_width o) (co_height o) (posX pos) (posY pos) in
        (st, [OnUpdatePoint (co_channel o) active curvePoint])
    | _, _ =>
        let pointIndex := findPointAtPosition o (posX pos) (posY pos) in
        (mkInteraction (activePointIndex st) pointIndex (isDragging st), [])
    end.

Definition handleMouseUp (st : Interaction) : Interaction * list (Callback N) :=
  (mkInteraction None (hoveredPointIndex st) false, []).

Definition handleMouseLeave (st : Interaction) : Interaction * list (Callback N) :=
  (mkInteraction None None false, []).

Definition handleDoubleClick (o : CanvasOptions) (pos : Position N)
    (st : Interaction) : Interaction * list (Callback N) :=
  if co_disabled o then (st, [])
  else
    match findPointAtPosition o (posX pos) (posY pos) with
    | Some pointIndex => (st, [OnRemovePoint (co_channel o) pointIndex])
    | None => (st, [])
    end.

Definition handleGlobalMouseUp (st : Interaction) :
    Interaction * list (Callback N) :=
  (mkInteraction None (hoveredPointIndex st) false, []).

(** One event, under the options of the render it arrives in. *)
Definition handleEvent (o : CanvasOptions) (e : PointerEvent N)
    (st : Interaction) : Interaction * list (Callback N) :=
  match e with
  | MouseDown pos => handleMouseDown o pos st
  | MouseMove pos => handleMouseMove o pos st
  | MouseUp => handleMouseUp st
  | MouseLeave => handleMouseLeave st
  | DoubleClick pos => handleDoubleClick o pos st
  | GlobalMouseUp => handleGlobalMouseUp st
  end.

(** A run of events, each with its options; the callbacks in the order they
    are called. *)
Fixpoint handleEvents (events : list (CanvasOptions * PointerEvent N))
    (st : Interaction) : Interaction * list (Callback N) :=
  match events with
  | [] => (st, [])
  | (o, e) :: rest =>
      let '(st1, calls1) := handleEvent o e st in
      let '(st2, calls2) := handleEvents rest st1 in
      (st2, calls1 ++ calls2)
  end.

End CanvasInteraction.

(** ** CurveCanvas.tsx: the path of the curve *)

(** A [ctx.moveTo(x, y)] or a [ctx.lineTo(x, y)]. *)
Inductive PathCommand (N : Type) : Type :=
| MoveTo (x y : N)
| LineTo (x y : N).
Arguments MoveTo {N} x y.
Arguments LineTo {N} x y.

Section CurvePath.
Context {N : Type} {num : JSNumber N}.
Local Open Scope num_scope.

(** The [moveTo] and [lineTo] calls of [drawCurve], in order: none if there
    is no point, else one per pixel column 0, 1, ..., width. *)
Definition drawCurve (points : list CurvePoint) (width height : Z)
    (interpolate : list CurvePoint -> N -> N) : list (PathCommand N) :=
  let sorted := sortPoints points in
  if Nat.eqb (length sorted) 0 then []
  else
    map (fun k =>
           let column := Z.of_nat k in
           let curveX := (#column / #width) * #255 in
           let curveY := interpolate sorted curveX in
           let canvasY := #height - (curveY / #255) * #height in
           if column =? 0 then MoveTo #column canvasY
           else LineTo #column canvasY)
        (seq 0 (Z.to_nat (width + 1))).

End CurvePath.

(** ** useCurvePoints.ts: every mutation of the session *)

Section SessionActions.
Context {N : Type} {num : JSNumber N}.

(** A call of one of the functions the hook returns. *)
Inductive Action : Type :=
| Edit (c : Call)
| ResetChannel (channel : Channel)
| ResetAll
| SetChannelPoints (channel : Channel) (newChannelPoints : list CurvePoint)
| SetAllPoints (newPoints : PartialChannelPoints).

Definition act (s : Session) (a : Action) : Session :=
  match a with
  | Edit c => perform (N:=N) s c
  | ResetChannel channel => resetChannel (N:=N) channel s
  | ResetAll => resetAll (N:=N) s
  | SetChannelPoints channel newChannelPoints =>
      setChannelPoints (N:=N) channel newChannelPoints s
  | SetAllPoints newPoints => setAllPoints (N:=N) newPoints s
  end.

Definition actAll (s : Session) (actions : list Action) : Session :=
  fold_left act actions s.

End SessionActions.

(** ** RGBCurve.tsx and ChannelTabs.tsx: the component

    The component wires the session to the canvas: the canvas shows the
    points of the active channel, and its three callbacks are the session's
    [addPoint], [removePoint] and [updatePoint].  It is read in exact
    arithmetic, where the point [canvasToCurve] returns has integer
    coordinates. *)

Record RGBCurveProps : Type := mkRGBCurveProps {
  rp_width : Z;
  rp_height : Z;
  rp_activeChannel : option Channel;   (* the controlled channel, if any *)
  rp_onChannelChange : bool;           (* an [onChannelChange] was given *)
  rp_showTabs : bool;
  rp_disabled : bool
}.

(** The component between two renders: the session hook, the channel state
    cell, the interaction hook of its canvas, and the calls it has made to
    [onChannelChange] so far. *)
Record RGBCurve : Type := mkRGBCurve {
  rc_session : Session;
  rc_internalChannel : Channel;
  rc_interaction : Interaction;
  rc_channelChanges : list Channel
}.

(** What the user does: a mouse event on the canvas or a click on a tab. *)
Inductive UserEvent : Type :=
| OnCanvas (e : PointerEvent R)
| OnTab (channel : Channel).

(** The integer coordinates of a point whose coordinates are integers. *)
Definition readPoint (c : Position R) : CurvePoint :=
  mkPoint (Exact.floor (posX c)) (Exact.floor (posY c)).

(** The first render. *)
Definition mountRGBCurve (defaultPoints controlledPoints : option PartialChannelPoints)
    (defaultChannel : Channel) (interpolation : Interpolation) : RGBCurve :=
  mkRGBCurve (useCurvePoints defaultPoints controlledPoints interpolation true)
             defaultChannel useCanvasInteraction [].

(** "const activeChannel = controlledChannel ?? internalChannel". *)
Definition activeChannel (props : RGBCurveProps) (w : RGBCurve) : Channel :=
  match rp_activeChannel props with
  | Some controlledChannel => controlledChannel
  | None => rc_internalChannel w
  end.

Definition handleChannelChange (props : RGBCurveProps) (channel : Channel)
    (w : RGBCurve) : RGBCurve :=
  mkRGBCurve (rc_session w)
             (match rp_activeChannel props with
              | Some _ => rc_internalChannel w
              | None => channel
              end)
             (rc_interaction w)
             (if rp_onChannelChange props then rc_channelChanges w ++ [channel]
              else rc_channelChanges w).

(** [handleClick] of ChannelTabs, whose [onChange] is [handleChannelChange]. *)
Definition handleClick (props : RGBCurveProps) (channel : Channel) (w : RGBCurve) :
    RGBCurve :=
  if rp_disabled props then w else handleChannelChange props channel w.

(** The options the canvas hands to [useCanvasInteraction]. *)
Definition canvasOptions (props : RGBCurveProps) (w : RGBCurve) : CanvasOptions :=
  mkCanvasOptions (getChannel (points (rc_session w)) (activeChannel props w))
                  (activeChannel props w) (rp_width props) (rp_height props)
                  (rp_disabled props).

(** A callback of the canvas, as the component has wired it. *)
Definition deliver (s : Session) (c : Callback R) : Session :=
  match c with
  | OnAddPoint channel point => addPoint (N:=R) channel (readPoint point) s
  | OnRemovePoint channel index => removePoint (N:=R) channel (Z.of_nat index) s
  | OnUpdatePoint channel index point =>
      match updatePoint (N:=R) channel (Z.of_nat index) (readPoint point) s with
      | Normal s' => s'
      | TypeError => s
      end
  end.

Definition respond (props : RGBCurveProps) (w : RGBCurve) (e : UserEvent) :
    RGBCurve :=
  match e with
  | OnCanvas e =>
      let '(st, calls) := handleEvent (canvasOptions props w) e (rc_interaction w) in
      mkRGBCurve (fold_left deliver calls (rc_session w)) (rc_internalChannel w)
                 st (rc_channelChanges w)
  | OnTab channel =>
      if rp_showTabs props then handleClick props channel w else w
  end.

Definition respondAll (props : RGBCurveProps) (w : RGBCurve)
    (events : list UserEvent) : RGBCurve :=
  fold_left (respond props) events w.

(** ** App.tsx (the demo): a LUT over the pixels of an image *)

(** The store [data[i] = v] into a [Uint8ClampedArray]: [undefined] is
    stored as 0, an integer is clamped to a byte. *)
Definition storeClamped (v : option Z) : Z :=
  match v with
  | Some z => clamp z 0 255
  | None => 0
  end.

(** The loop of [applyLUTToImage] over [imageData.data]: four cells at a
    time, the alpha cell left alone.  Where the array ends inside a group,
    the cells that are there are treated as in a full group (the stores
    past the end are ignored, and each channel is computed on its own). *)
Fixpoint applyLUTToImage (lut : LUTData) (data : list Z) : list Z :=
  match data with
  | [] => []
  | [r] =>
      let '(newR, _, _) := applyLUT r 0 0 lut in
      [storeClamped newR]
  | [r; g] =>
      let '(newR, newG, _) := applyLUT r g 0 lut in
      [storeClamped newR; storeClamped newG]
  | [r; g; b] =>
      let '(newR, newG, newB) := applyLUT r g b lut in
      [storeClamped newR; storeClamped newG; storeClamped newB]
  | r :: g :: b :: a :: rest =>
      let '(newR, newG, newB) := applyLUT r g b lut in
      storeClamped newR :: storeClamped newG :: storeClamped newB :: a ::
      applyLUTToImage lut rest
  end.

(** ** CurveCanvas.tsx: the bars of the histogram *)

(** A [ctx.fillRect(x, y, w, h)]. *)
Inductive Bar (N : Type) : Type :=
| FillRect (x y w h : N).
Arguments FillRect {N} x y w h.

(** "let max = 0; for (...) if (data[i] > max) max = data[i];" *)
Definition histogramMax (data : list Z) : Z :=
  fold_left (fun max v => if v >? max then v else max) data 0.

Section Histogram.
Context {N : Type} {num : JSNumber N}.
Local Open Scope num_scope.

(** The [fillRect] calls of [drawHistogram], in order: none if the largest
    cell is 0, else one per index 0..255.  [None] is the call at an index
    past the end of [data]: its sides are NaN and it draws nothing. *)
Definition drawHistogram (data : list Z) (width height : Z) :
    list (option (Bar N)) :=
  let max := histogramMax data in
  if max =? 0 then []
  else
    let barWidth := #width / #256 in
    map (fun i =>
           match nth_error data i with
           | Some v =>
               let barHeight := (#v / #max) * #height in
               let x := #(Z.of_nat i) * barWidth in
               Some (FillRect x (#height - barHeight) barWidth barHeight)
           | None => None
           end)
        (seq 0 256).

End Histogram.

(** * The vocabulary of the properties *)

(** ** Point lists *)

(** The order the comparator [(a, b) => a.x - b.x] sorts by. *)
Definition byX (p q : CurvePoint) : Prop := px p <= px q.

(** Sorted by ascending x. *)
Definition ascending (l : list CurvePoint) : Prop := StronglySorted byX l.

(** No two points share an x. *)
Definition distinctX (l : list CurvePoint) : Prop := NoDup (map px l).

(** Sorted with no x twice: strictly ascending. *)
Definition strictlyAscending (l : list CurvePoint) : Prop :=
  StronglySorted (fun p q => px p < px q) l.

(** The y-values do not decrease along the list. *)
Definition nonDecreasingY (l : list CurvePoint) : Prop :=
  StronglySorted (fun p q => py p <= py q) l.

(** Every coordinate of every point lies in [0, 255]. *)
Definition inRange (l : list CurvePoint) : Prop :=
  Forall (fun p => 0 <= px p <= 255 /\ 0 <= py p <= 255) l.

(** Adjacent points are at least [d] apart in x, in ascending order. *)
Fixpoint spaced (d : Z) (l : list CurvePoint) : Prop :=
  match l with
  | p :: ((q :: _) as rest) => px p + d <= px q /\ spaced d rest
  | _ => True
  end.

(** The point-set invariant of the data model: sorted by x, at least two
    points, adjacent points at least MIN_POINT_DISTANCE apart. *)
Definition pointSetInvariant (l : list CurvePoint) : Prop :=
  ascending l /\ (2 <= length l)%nat /\ spaced MIN_POINT_DISTANCE l.

(** [q] is at least MIN_POINT_DISTANCE to the right of [p]. *)
Definition apartBy (p q : CurvePoint) : Prop := px p + MIN_POINT_DISTANCE <= px q.

(** Every point is at least MIN_POINT_DISTANCE to the left of every later one. *)
Definition apart (l : list CurvePoint) : Prop := StronglySorted apartBy l.

(** The test [addPoint] passes: not closer than MIN_POINT_DISTANCE in x. *)
Definition farApart (p q : CurvePoint) : Prop :=
  MIN_POINT_DISTANCE <= Z.abs (px p - px q).

(** What the session keeps of a channel when it is fed points with x in
    [0, 255]: spaced points from an anchor at x = 0 to an anchor at x = 255. *)
Definition anchored (l : list CurvePoint) : Prop :=
  apart l /\
  (exists y0 rest, l = mkPoint 0 y0 :: rest) /\
  (exists front y1, l = front ++ [mkPoint 255 y1]).

(** [a.filter((_, i) => i !== index)] drops the element at [index], if there
    is one. *)
Definition without (index : Z) (a : list CurvePoint) : list CurvePoint :=
  firstn (Z.to_nat index) a ++ skipn (S (Z.to_nat index)) a.

(** ** Tables *)

(** The table with [table[i] = i] for i in 0..255. *)
Definition identityTable : list Z := map Z.of_nat (seq 0 256).

(** No cell of the table is above the next one. *)
Fixpoint nonDecreasingTable (t : list Z) : bool :=
  match t with
  | a :: ((b :: _) as rest) => (a <=? b) && nonDecreasingTable rest
  | _ => true
  end.

(** The table of [points] holds [p.y] at [p.x] for each of the points. *)
Definition passesThrough {N : Type} {num : JSNumber N}
    (interpolation : Interpolation) (points : list CurvePoint) : bool :=
  let table := generateChannelLUT (N:=N) points interpolation in
  forallb (fun p =>
             match cell table (px p) with
             | Some v => v =? py p
             | None => false
             end) points.

(** The three-point sets [(0,a), (x,b), (255,c)] with [x] in [xs] and
    [a <= b <= c] taken from [ys]. *)
Definition monotoneTriples (xs ys : list Z) : list (list CurvePoint) :=
  flat_map (fun x =>
    flat_map (fun a =>
      flat_map (fun b =>
        flat_map (fun c =>
          if (a <=? b) && (b <=? c)
          then [[mkPoint 0 a; mkPoint x b; mkPoint 255 c]]
          else [])
        ys) ys) ys) xs.

(** The byte a well-formed table holds at [i]. *)
Definition byteAt (a : list Z) (i : Z) : Z := nth (Z.to_nat i) a 0.

(** Stage 1 of the composition rule: each channel, clamped, through its own
    table; stage 2: each stage-1 result through the master table. *)
Definition channelPass (lut : LUTData) (rgb : Z * Z * Z) : Z * Z * Z :=
  let '(r, g, b) := rgb in
  (byteAt (lut_red lut) (clamp r 0 255),
   byteAt (lut_green lut) (clamp g 0 255),
   byteAt (lut_blue lut) (clamp b 0 255)).

(** Stage 2. *)
Definition masterPass (lut : LUTData) (rgb : Z * Z * Z) : Z * Z * Z :=
  let '(r, g, b) := rgb in
  (byteAt (lut_master lut) r, byteAt (lut_master lut) g, byteAt (lut_master lut) b).

(** A triple none of whose components is [undefined]. *)
Definition defined (rgb : Z * Z * Z) : option Z * option Z * option Z :=
  let '(r, g, b) := rgb in (Some r, Some g, Some b).

(** A red table that doubles and clamps, a master table that inverts. *)
Definition doubleThenInvert : LUTData :=
  let doubled := map (fun i => Z.min (2 * Z.of_nat i) 255) (seq 0 256) in
  let inverted := map (fun i => 255 - Z.of_nat i) (seq 0 256) in
  mkLUT inverted doubled identityTable identityTable.

(** ** Sessions *)

(** A call hands points with x in [0, 255] to the session. *)
Definition callInRange (c : Call) : Prop :=
  match c with
  | AddPoint _ point => 0 <= px point <= 255
  | _ => True
  end.

(** The session stores its own points, and every channel is anchored. *)
Definition sessionAnchored (s : Session) : Prop :=
  controlledPoints s = None /\
  forall channel, anchored (getChannel (points s) channel).

(** ** The unit cubic *)

Section UnitCubic.
Local Open Scope R_scope.

(** The Hermite cubic on [0, 1] from 0 to 1, with tangents [a] at 0 and [b]
    at 1 (in units of the secant slope), and its derivative. *)
Definition unitCubic (a b t : R) : R :=
  a * (t * t * t - 2 * (t * t) + t) + (-2 * (t * t * t) + 3 * (t * t)) +
  b * (t * t * t - t * t).

Definition unitCubic' (a b t : R) : R :=
  a * ((1 - t) * (1 - t)) + b * (t * t) + (6 - 2 * a - 2 * b) * (t * (1 - t)).

End UnitCubic.

(** ** Actions *)

(** The channel an action addresses, if it addresses a single one. *)
Definition channelOf (a : Action) : option Channel :=
  match a with
  | Edit (AddPoint channel _) => Some channel
  | Edit (RemovePoint channel _) => Some channel
  | Edit (UpdatePoint channel _ _) => Some channel
  | ResetChannel channel => Some channel
  | SetChannelPoints channel _ => Some channel
  | ResetAll => None
  | SetAllPoints _ => None
  end.

(** [lut[channel]]. *)
Definition tableOf (lut : LUTData) (channel : Channel) : list Z :=
  match channel with
  | master => lut_master lut
  | red => lut_red lut
  | green => lut_green lut
  | blue => lut_blue lut
  end.

(** Every y of the list lies in [0, 255]. *)
Definition bytesY (l : list CurvePoint) : Prop :=
  Forall (fun p => 0 <= py p <= 255) l.

(** A point set a caller may hand over as a whole: anchored once sorted,
    with every y in [0, 255]. *)
Definition importable (l : list CurvePoint) : Prop :=
  anchored (sortPoints l) /\ bytesY l.

(** An action that hands the session only coordinates in [0, 255]: added
    points in range, imported sets importable; anything else is free. *)
Definition actionInRange (a : Action) : Prop :=
  match a with
  | Edit (AddPoint _ point) => inRange [point]
  | Edit _ => True
  | ResetChannel _ => True
  | ResetAll => True
  | SetChannelPoints _ newChannelPoints => importable newChannelPoints
  | SetAllPoints newPoints =>
      forall channel, importable (getChannel (mergeWithDefaults newPoints) channel)
  end.

(** Every channel of the session is anchored and holds bytes for y. *)
Definition sessionInRange (s : Session) : Prop :=
  sessionAnchored s /\ forall channel, bytesY (getChannel (points s) channel).

(** ** Numbers that hold integers *)

(** The instance compares the integers of [lo, hi] as integers. *)
Definition comparesIntegers {N : Type} {num : JSNumber N} (lo hi : Z) : Prop :=
  forall a b, lo <= a <= hi -> lo <= b <= hi ->
    nlt (ofZ a) (ofZ b) = (a <? b) /\ nle (ofZ a) (ofZ b) = (a <=? b).

(** The comparisons of binary64 on the integers 0..n-1, checked one by one. *)
Definition comparesBelow (n : nat) : bool :=
  let range := map Z.of_nat (seq 0 n) in
  forallb (fun a =>
    forallb (fun b =>
      Bool.eqb (PrimFloat.ltb (Binary64.of_Z a) (Binary64.of_Z b)) (a <? b) &&
      Bool.eqb (PrimFloat.leb (Binary64.of_Z a) (Binary64.of_Z b)) (a <=? b))
    range) range.

(** ** Inserting a point *)

(** [a.splice(k, 0, p)]: [p] at index [k], the elements from [k] on moved up. *)
Definition insertAt (k : nat) (p : CurvePoint) (a : list CurvePoint) :
    list CurvePoint :=
  firstn k a ++ p :: skipn k a.

(** [p] in front of the first element whose x is above [p.x]. *)
Fixpoint insertAfter (p : CurvePoint) (l : list CurvePoint) : list CurvePoint :=
  match l with
  | [] => [p]
  | q :: l' => if px p <? px q then p :: l else q :: insertAfter p l'
  end.

(** A store into a [Uint8Array] keeps a byte as it is. *)
Definition storesBytes {N : Type} {num : JSNumber N} : Prop :=
  forall v, 0 <= v <= 255 -> toUint8 (ofZ v) = v.

(** The stores of binary64 on the integers 0..n-1, checked one by one. *)
Definition storesBelow (n : nat) : bool :=
  forallb (fun v => Binary64.to_uint8 (Binary64.of_Z v) =? v)
          (map Z.of_nat (seq 0 n)).

(** Every point of the list has the same y. *)
Definition flatAt (c : Z) (l : list CurvePoint) : Prop :=
  Forall (fun p => py p = c) l.

(** ** The component *)

(** A mouse press lands inside the canvas. *)
Definition insideCanvas (props : RGBCurveProps) (e : UserEvent) : Prop :=
  match e with
  | OnCanvas (MouseDown pos) =>
      (0 <= posX pos <= IZR (rp_width props))%R /\
      (0 <= posY pos <= IZR (rp_height props))%R
  | _ => True
  end.

(** ** Images *)

(** What the pixel loop leaves in cell [j] of the image for the byte [v] it
    held: red, green and blue through their own table and then the master
    table, alpha as it is. *)
Definition passCell (lut : LUTData) (j : nat) (v : Z) : Z :=
  match (j mod 4)%nat with
  | 0%nat => byteAt (lut_master lut) (byteAt (lut_red lut) v)
  | 1%nat => byteAt (lut_master lut) (byteAt (lut_green lut) v)
  | 2%nat => byteAt (lut_master lut) (byteAt (lut_blue lut) v)
  | _ => v
  end.

(** Every cell of the array is a byte. *)
Definition bytes (data : list Z) : Prop := Forall (fun v => 0 <= v <= 255) data.

(** * Properties *)

(** ** The sorted view *)

Lemma insertPoint_perm (p : CurvePoint) (l : list CurvePoint) :
  Permutation (insertPoint p l) (p :: l).
Proof.
  induction l as [|q l IH]; simpl; [reflexivity|].
  destruct (px p - px q <=? 0); [reflexivity|].
  rewrite IH. apply perm_swap.
Qed.

Lemma sortPoints_perm (l : list CurvePoint) : Permutation (sortPoints l) l.
Proof.
  induction l as [|p l IH]; simpl; [constructor|].
  rewrite insertPoint_perm. now constructor.
Qed.

Lemma sortPoints_length (l : list CurvePoint) : length (sortPoints l) = length l.
Proof. apply Permutation_length, sortPoints_perm. Qed.

Lemma sortPoints_In (l : list CurvePoint) (p : CurvePoint) :
  In p (sortPoints l) <-> In p l.
Proof.
  split; apply Permutation_in; [|symmetry]; apply sortPoints_perm.
Qed.

Lemma insertPoint_ascending (p : CurvePoint) (l : list CurvePoint) :
  ascending l -> ascending (insertPoint p l).
Proof.
  induction 1 as [|q l Hl IH Hq]; simpl.
  - repeat constructor.
  - destruct (Z.leb_spec (px p - px q) 0) as [Hle|Hgt].
    + constructor; [now constructor|].
      constructor; [unfold byX; lia|].
      eapply Forall_impl; [|exact Hq]. unfold byX. intros; lia.
    + constructor; [exact IH|].
      rewrite Forall_forall. intros r Hr.
      apply (Permutation_in _ (insertPoint_perm p l)) in Hr.
      destruct Hr as [<-|Hr]; [unfold byX; lia|].
      rewrite Forall_forall in Hq. now apply Hq.
Qed.

Lemma sortPoints_ascending (l : list CurvePoint) : ascending (sortPoints l).
Proof.
  induction l as [|p l IH]; simpl; [constructor|].
  now apply insertPoint_ascending.
Qed.

Lemma sortPoints_of_ascending (l : list CurvePoint) :
  ascending l -> sortPoints l = l.
Proof.
  induction 1 as [|q l Hl IH Hq]; simpl; [reflexivity|].
  rewrite IH. destruct l as [|r l]; simpl; [reflexivity|].
  inversion Hq as [|? ? Hqr _]; subst. unfold byX in Hqr.
  destruct (Z.leb_spec (px q - px r) 0); [reflexivity|lia].
Qed.

Lemma sortPoints_idempotent (l : list CurvePoint) :
  sortPoints (sortPoints l) = sortPoints l.
Proof. apply sortPoints_of_ascending, sortPoints_ascending. Qed.

(** An ascending list with distinct keys is determined by its elements. *)
Lemma ascending_unique (l1 l2 : list CurvePoint) :
  ascending l1 -> ascending l2 -> distinctX l1 -> Permutation l1 l2 -> l1 = l2.
Proof.
  revert l2. induction l1 as [|p1 t1 IH]; intros l2 H1 H2 Hd Hp.
  - now apply Permutation_nil in Hp.
  - destruct l2 as [|p2 t2].
    + symmetry in Hp. now apply Permutation_nil in Hp.
    + inversion H1 as [|? ? Ht1 Hf1]; subst.
      inversion H2 as [|? ? Ht2 Hf2]; subst.
      inversion Hd as [|? ? Hnin Hd']; subst.
      rewrite Forall_forall in Hf1, Hf2.
      assert (Hin2 : In p2 (p1 :: t1))
        by (apply (Permutation_in _ (Permutation_sym Hp)); now left).
      assert (Hin1 : In p1 (p2 :: t2))
        by (apply (Permutation_in _ Hp); now left).
      assert (Heq : p2 = p1).
      { destruct Hin2 as [->|Hin2]; [reflexivity|].
        destruct Hin1 as [->|Hin1]; [reflexivity|].
        exfalso. apply Hnin.
        assert (px p1 = px p2)
          by (specialize (Hf1 _ Hin2); specialize (Hf2 _ Hin1); unfold byX in *; lia).
        replace (px p1) with (px p2) by congruence. now apply in_map. }
      subst p2. f_equal.
      apply IH; auto. now apply Permutation_cons_inv in Hp.
Qed.

Lemma sortPoints_permutation_invariant (l1 l2 : list CurvePoint) :
  distinctX l1 -> Permutation l1 l2 -> sortPoints l1 = sortPoints l2.
Proof.
  intros Hd Hp. apply ascending_unique; try apply sortPoints_ascending.
  - unfold distinctX. eapply Permutation_NoDup; [|exact Hd].
    apply Permutation_map. symmetry. apply sortPoints_perm.
  - rewrite !sortPoints_perm. exact Hp.
Qed.

(** ** The store *)

Lemma load_alloc_old (h : Store) (v : list CurvePoint) (a : Ref) :
  (a < length h)%nat -> load (h ++ [v]) a = load h a.
Proof. intros Ha. unfold load. now rewrite app_nth1. Qed.

Lemma load_alloc_new (h : Store) (v : list CurvePoint) :
  load (h ++ [v]) (length h) = v.
Proof. unfold load. rewrite app_nth2, Nat.sub_diag; [reflexivity|lia]. Qed.

Lemma load_store_same (h : Store) (r : Ref) (v : list CurvePoint) :
  (r < length h)%nat -> load (store h r v) r = v.
Proof.
  revert r. induction h as [|a h IH]; intros [|r] Hr; simpl in *; try lia.
  - reflexivity.
  - apply IH. lia.
Qed.

Lemma load_store_other (h : Store) (r a : Ref) (v : list CurvePoint) :
  a <> r -> load (store h r v) a = load h a.
Proof.
  revert r a. induction h as [|b h IH]; intros [|r] [|a] Hne; simpl; try reflexivity.
  - congruence.
  - apply IH. congruence.
Qed.

(** Running [sortPoints] on a reference: the result is a new array holding
    the sorted points, and every array that was there is as it was. *)
Lemma sortPointsRef_run (h : Store) (points : Ref) :
  let '(sorted, h') := sortPointsRef points h in
  load h' sorted = sortPoints (load h points) /\
  forall a, (a < length h)%nat -> load h' a = load h a.
Proof.
  unfold sortPointsRef, bindS, spread, sortByX. split.
  - rewrite load_store_same by (rewrite length_app; simpl; lia).
    now rewrite load_alloc_new.
  - intros a Ha. rewrite load_store_other by lia. now apply load_alloc_old.
Qed.

(** ** Permutations of the input (C10) *)

Section Permutations.
Context {N : Type} {num : JSNumber N}.

Lemma monotoneCubicInterpolationRef_run (h : Store) (points : Ref) (x : N) :
  fst (monotoneCubicInterpolationRef points x h) =
    monotoneCubicInterpolation (load h points) x /\
  forall a, (a < length h)%nat ->
    load (snd (monotoneCubicInterpolationRef points x h)) a = load h a.
Proof.
  unfold monotoneCubicInterpolationRef, bindS at 1 3.
  pose proof (sortPointsRef_run h points) as Hs.
  destruct (sortPointsRef points h) as [sorted h']. destruct Hs as [Hs Hold].
  unfold bindS, readS, retS; simpl. rewrite Hs. now split.
Qed.

Lemma catmullRomInterpolationRef_run (h : Store) (points : Ref) (x : N) :
  fst (catmullRomInterpolationRef points x h) =
    catmullRomInterpolation (load h points) x /\
  forall a, (a < length h)%nat ->
    load (snd (catmullRomInterpolationRef points x h)) a = load h a.
Proof.
  unfold catmullRomInterpolationRef, bindS at 1 3.
  pose proof (sortPointsRef_run h points) as Hs.
  destruct (sortPointsRef points h) as [sorted h']. destruct Hs as [Hs Hold].
  unfold bindS, readS, retS; simpl. rewrite Hs. now split.
Qed.

(** C10.  Two point lists that are permutations of each other, with
    pairwise distinct x, give the same result at every query x, for
    [monotoneCubicInterpolation] and for [catmullRomInterpolation]; and a
    call of either function on an array in the store returns that result
    and leaves every array that was in the store, the argument among
    them, as it was: the sort runs on a copy. *)
Theorem interpolation_permutation_invariant :
  forall (l1 l2 : list CurvePoint) (x : N),
    distinctX l1 -> Permutation l1 l2 ->
    (monotoneCubicInterpolation l1 x = monotoneCubicInterpolation l2 x /\
     catmullRomInterpolation l1 x = catmullRomInterpolation l2 x) /\
    (forall (h : Store) (points : Ref),
        load h points = l1 ->
        (fst (monotoneCubicInterpolationRef points x h) =
           monotoneCubicInterpolation l2 x /\
         fst (catmullRomInterpolationRef points x h) =
           catmullRomInterpolation l2 x) /\
        (forall a, (a < length h)%nat ->
           load (snd (monotoneCubicInterpolationRef points x h)) a = load h a /\
           load (snd (catmullRomInterpolationRef points x h)) a = load h a)).
Proof.
  intros l1 l2 x Hd Hp.
  assert (Hs : sortPoints l1 = sortPoints l2)
    by now apply sortPoints_permutation_invariant.
  assert (Hm : monotoneCubicInterpolation l1 x = monotoneCubicInterpolation l2 x)
    by (unfold monotoneCubicInterpolation; now rewrite Hs).
  assert (Hc : catmullRomInterpolation l1 x = catmullRomInterpolation l2 x)
    by (unfold catmullRomInterpolation; now rewrite Hs).
  split; [now split|].
  intros h points Hl.
  destruct (monotoneCubicInterpolationRef_run h points x) as [Hm1 Hm2].
  destruct (catmullRomInterpolationRef_run h points x) as [Hc1 Hc2].
  rewrite Hl in Hm1, Hc1. repeat split; auto; congruence.
Qed.

End Permutations.

(** ** Flat ends (C6) *)

Lemma last_cons (q first : CurvePoint) (rest : list CurvePoint) :
  last (q :: rest) first = last rest q.
Proof.
  revert q first. induction rest as [|r rest IH]; intros q first; [reflexivity|].
  change (last (r :: rest) first = last (r :: rest) q).
  now rewrite (IH r first), (IH r q).
Qed.

Lemma nth_last_cons (first : CurvePoint) (rest : list CurvePoint) (d : CurvePoint) :
  nth (length rest) (first :: rest) d = last rest first.
Proof.
  revert first. induction rest as [|q rest IH]; intros first; [reflexivity|].
  change (nth (length rest) (q :: rest) d = last (q :: rest) first).
  now rewrite IH, last_cons.
Qed.

Lemma last_In_cons (first : CurvePoint) (rest : list CurvePoint) :
  In (last rest first) (first :: rest).
Proof.
  revert first. induction rest as [|q rest IH]; intros first; [now left|].
  right. rewrite last_cons. apply IH.
Qed.

Lemma ascending_last (first : CurvePoint) (rest : list CurvePoint) :
  ascending (first :: rest) ->
  forall q, In q (first :: rest) -> px q <= px (last rest first).
Proof.
  revert first. induction rest as [|r rest IH]; intros first Hs q Hq.
  - destruct Hq as [<-|[]]. simpl. lia.
  - inversion Hs as [|? ? Hs' Hf]; subst.
    rewrite last_cons.
    destruct Hq as [<-|Hq]; [|now apply IH].
    rewrite Forall_forall in Hf.
    transitivity (px r); [apply Hf; now left|apply IH; [assumption|now left]].
Qed.

(** The first point of the sorted view has the least x of the set and the
    last one the greatest. *)
Lemma sortPoints_extremes (points : list CurvePoint) (first : CurvePoint)
    (rest : list CurvePoint) :
  sortPoints points = first :: rest ->
  In first points /\ In (last rest first) points /\
  forall q, In q points -> px first <= px q <= px (last rest first).
Proof.
  intros Hs. pose proof (sortPoints_ascending points) as Ha. rewrite Hs in Ha.
  split; [apply sortPoints_In; rewrite Hs; now left|].
  split; [apply sortPoints_In; rewrite Hs; apply last_In_cons|].
  intros q Hq. apply sortPoints_In in Hq. rewrite Hs in Hq. split.
  - inversion Ha as [|? ? _ Hf]; subst. rewrite Forall_forall in Hf.
    destruct Hq as [<-|Hq]; [lia|now apply Hf].
  - now apply ascending_last.
Qed.

Section Boundaries.
Context {N : Type} {num : JSNumber N}.
Local Open Scope num_scope.

Lemma monotoneCubicOn_below (first : CurvePoint) (rest : list CurvePoint) (x : N) :
  (x <=? X first) = true -> monotoneCubicOn (first :: rest) x = Y first.
Proof.
  intros Hx. unfold monotoneCubicOn.
  destruct rest as [|q rest]; [reflexivity|].
  cbn [length Nat.eqb at_ nth]. now rewrite Hx.
Qed.

Lemma catmullRomOn_below (first : CurvePoint) (rest : list CurvePoint) (x : N) :
  (x <=? X first) = true -> catmullRomOn (first :: rest) x = Y first.
Proof.
  intros Hx. unfold catmullRomOn.
  destruct rest as [|q rest]; [reflexivity|].
  cbn [length Nat.eqb at_ nth]. now rewrite Hx.
Qed.

Lemma monotoneCubicOn_above (first : CurvePoint) (rest : list CurvePoint) (x : N) :
  (x >=? X (last rest first)) = true ->
  (x <=? X first) = false \/ rest = [] ->
  monotoneCubicOn (first :: rest) x = Y (last rest first).
Proof.
  intros Hx Hne. unfold monotoneCubicOn.
  destruct rest as [|q rest]; [reflexivity|].
  destruct Hne as [Hne|Hne]; [|discriminate].
  cbn [length Nat.eqb Nat.sub].
  change (at_ (first :: q :: rest) 0) with first. rewrite Hne.
  change (S (length rest)) with (length (q :: rest)).
  unfold at_. rewrite nth_last_cons. now rewrite Hx.
Qed.

Lemma catmullRomOn_above (first : CurvePoint) (rest : list CurvePoint) (x : N) :
  (x >=? X (last rest first)) = true ->
  (x <=? X first) = false \/ rest = [] ->
  catmullRomOn (first :: rest) x = Y (last rest first).
Proof.
  intros Hx Hne. unfold catmullRomOn.
  destruct rest as [|q rest]; [reflexivity|].
  destruct Hne as [Hne|Hne]; [|discriminate].
  cbn [length Nat.eqb Nat.sub].
  change (at_ (first :: q :: rest) 0) with first. rewrite Hne.
  change (S (length rest)) with (length (q :: rest)).
  unfold at_. rewrite nth_last_cons. now rewrite Hx.
Qed.

(** C6, as the code has it.  For a non-empty point set, let [first] and
    [final] be the first and the last point of the sorted view (the points
    of least and of greatest x).  At a query [x <= first.x] both
    interpolators return [first.y].  At a query [x >= final.x] both return
    [final.y], provided [x] is not also [<= first.x] or the set has a single
    point: the test against the first point comes first. *)
Theorem boundary_flatness :
  forall (points : list CurvePoint) (x : N) (first : CurvePoint)
         (rest : list CurvePoint),
    sortPoints points = first :: rest ->
    let final := last rest first in
    (forall q, In q points -> px first <= px q <= px final) /\
    ((x <=? X first) = true ->
       monotoneCubicInterpolation points x = Y first /\
       catmullRomInterpolation points x = Y first) /\
    ((x >=? X final) = true ->
     (x <=? X first) = false \/ rest = [] ->
       monotoneCubicInterpolation points x = Y final /\
       catmullRomInterpolation points x = Y final).
Proof.
  intros points x first rest Hs final.
  unfold monotoneCubicInterpolation, catmullRomInterpolation. rewrite Hs.
  split; [apply (sortPoints_extremes points first rest Hs)|].
  split.
  - intros Hx. split; [now apply monotoneCubicOn_below|now apply catmullRomOn_below].
  - intros Hx Hne.
    split; [now apply monotoneCubicOn_above|now apply catmullRomOn_above].
Qed.

End Boundaries.

(** At [[(5,1), (5,2)]] and x = 5 the query is at the last sorted point's x,
    and both interpolators return 1, the first point's y, not 2. *)
Lemma boundary_flatness_shared_x :
  let points := [mkPoint 5 1; mkPoint 5 2] in
  let x : float := ofZ 5 in
  sortPoints points = [mkPoint 5 1; mkPoint 5 2] /\
  nle (X (mkPoint 5 2)) x = true /\
  monotoneCubicInterpolation points x = Y (mkPoint 5 1) /\
  catmullRomInterpolation points x = Y (mkPoint 5 1) /\
  monotoneCubicInterpolation points x <> Y (mkPoint 5 2) /\
  catmullRomInterpolation points x <> Y (mkPoint 5 2).
Proof.
  repeat split; try (vm_compute; reflexivity);
    intros H; apply (f_equal Binary64.to_uint8) in H; vm_compute in H; discriminate.
Qed.

Lemma boundary_flatness_witness :
  sortPoints getDefaultPoints = mkPoint 0 0 :: [mkPoint 255 255] /\
  nle (ofZ 0 : float) (X (mkPoint 0 0)) = true /\
  nle (X (mkPoint 255 255)) (ofZ 300 : float) = true /\
  nle (ofZ 300 : float) (X (mkPoint 0 0)) = false /\
  monotoneCubicInterpolation getDefaultPoints (ofZ 0 : float) = Y (mkPoint 0 0) /\
  catmullRomInterpolation getDefaultPoints (ofZ 0 : float) = Y (mkPoint 0 0) /\
  monotoneCubicInterpolation getDefaultPoints (ofZ 300 : float) = Y (mkPoint 255 255) /\
  catmullRomInterpolation getDefaultPoints (ofZ 300 : float) = Y (mkPoint 255 255).
Proof.
  pose proof (boundary_flatness getDefaultPoints (ofZ 0 : float)
                (mkPoint 0 0) [mkPoint 255 255] eq_refl) as [_ [Hlo _]].
  pose proof (boundary_flatness getDefaultPoints (ofZ 300 : float)
                (mkPoint 0 0) [mkPoint 255 255] eq_refl) as [_ [_ Hhi]].
  specialize (Hlo eq_refl). specialize (Hhi eq_refl (or_introl eq_refl)).
  simpl in Hlo, Hhi.
  repeat split; try reflexivity; try apply Hlo; apply Hhi.
Defined.

(** ** The identity curve (C1) *)

(** C1, as the code has it.  For the default two-point diagonal,
    [generateChannelLUT] under 'monotone' produces [table[i] = i] for every
    i in 0..255, in binary64 arithmetic.  Under 'catmullRom' the table keeps
    [table[0] = 0] and [table[255] = 255] and is not the identity between
    them (the end points stand in for the missing neighbours, which halves
    the end tangents): [table[2] = 1]. *)
Theorem identity_curve_monotone :
  generateChannelLUT (N:=float) getDefaultPoints monotone = identityTable /\
  cell (generateChannelLUT (N:=float) getDefaultPoints catmullRom) 0 = Some 0 /\
  cell (generateChannelLUT (N:=float) getDefaultPoints catmullRom) 255 = Some 255 /\
  cell (generateChannelLUT (N:=float) getDefaultPoints catmullRom) 2 = Some 1.
Proof. repeat split; vm_compute; reflexivity. Qed.

(** Under 'catmullRom' the default diagonal does not give the identity
    table: the cell at 2 holds 1. *)
Lemma identity_curve_catmullRom_fails :
  exists i, 0 <= i <= 255 /\
    cell (generateChannelLUT (N:=float) getDefaultPoints catmullRom) i = Some 1 /\
    Some 1 <> Some i.
Proof. exists 2. repeat split; try lia; try reflexivity. discriminate. Qed.

(** ** Applying a LUT (C4) *)

Lemma clamp_range (v lo hi : Z) : lo <= hi -> lo <= clamp v lo hi <= hi.
Proof. unfold clamp. lia. Qed.

Lemma cell_wellFormed (a : list Z) (i : Z) :
  wellFormedLUT a -> 0 <= i <= 255 ->
  cell a i = Some (byteAt a i) /\ 0 <= byteAt a i <= 255.
Proof.
  intros [Hlen Hall] Hi. unfold cell, byteAt.
  destruct (Z.ltb_spec i 0); [lia|].
  assert (Hlt : (Z.to_nat i < length a)%nat) by lia.
  split.
  - now apply nth_error_nth'.
  - rewrite Forall_forall in Hall. apply Hall. now apply nth_In.
Qed.

(** C4.  For a LUT set of four 256-byte tables and any r, g, b, [applyLUT]
    is the master pass of the per-channel pass, every component defined:
    each output is master(channel(clamp(input))).  And whenever the red
    table maps 10 to 20 and the master table maps 20 to 235, the red
    component of [applyLUT(10, 0, 0, lut)] is 235. *)
Theorem applyLUT_composition :
  forall (lut : LUTData) (r g b : Z),
    (wellFormedLUTData lut ->
     applyLUT r g b lut = defined (masterPass lut (channelPass lut (r, g, b)))) /\
    (cell (lut_red lut) 10 = Some 20 -> cell (lut_master lut) 20 = Some 235 ->
     fst (fst (applyLUT 10 0 0 lut)) = Some 235).
Proof.
  intros lut r g b. split.
  - intros (Hm & Hr & Hg & Hb). unfold applyLUT, channelPass, masterPass, defined.
    destruct (cell_wellFormed _ (clamp r 0 255) Hr) as [-> Hr'];
      [apply clamp_range; lia|].
    destruct (cell_wellFormed _ (clamp g 0 255) Hg) as [-> Hg'];
      [apply clamp_range; lia|].
    destruct (cell_wellFormed _ (clamp b 0 255) Hb) as [-> Hb'];
      [apply clamp_range; lia|].
    simpl cellOf.
    destruct (cell_wellFormed _ _ Hm Hr') as [-> _].
    destruct (cell_wellFormed _ _ Hm Hg') as [-> _].
    destruct (cell_wellFormed _ _ Hm Hb') as [-> _].
    reflexivity.
  - intros Hred Hmaster. unfold applyLUT. simpl fst.
    change (clamp 10 0 255) with 10. rewrite Hred. simpl. exact Hmaster.
Qed.

Lemma wellFormedLUT_map (f : nat -> Z) :
  (forall i, (i < 256)%nat -> 0 <= f i <= 255) ->
  wellFormedLUT (map f (seq 0 256)).
Proof.
  intros Hf. split.
  - now rewrite length_map, length_seq.
  - rewrite Forall_forall. intros v Hv. apply in_map_iff in Hv.
    destruct Hv as (i & <- & Hi). apply in_seq in Hi. apply Hf. lia.
Qed.

Lemma doubleThenInvert_wellFormed : wellFormedLUTData doubleThenInvert.
Proof.
  unfold wellFormedLUTData, doubleThenInvert, identityTable.
  cbn [lut_master lut_red lut_green lut_blue].
  repeat apply conj; apply wellFormedLUT_map; intros; lia.
Qed.

Lemma applyLUT_composition_witness :
  wellFormedLUTData doubleThenInvert /\
  cell (lut_red doubleThenInvert) 10 = Some 20 /\
  cell (lut_master doubleThenInvert) 20 = Some 235 /\
  applyLUT 10 0 0 doubleThenInvert = (Some 235, Some 255, Some 255) /\
  fst (fst (applyLUT 10 0 0 doubleThenInvert)) = Some 235.
Proof.
  destruct (applyLUT_composition doubleThenInvert 10 0 0) as [Hall Hred].
  split; [exact doubleThenInvert_wellFormed|].
  split; [reflexivity|]. split; [reflexivity|].
  split; [rewrite (Hall doubleThenInvert_wellFormed); reflexivity|].
  apply Hred; reflexivity.
Defined.

(** ** The session: what a mutation does *)

Lemma getChannel_setChannel_same (points : ChannelPoints) (channel : Channel)
    (v : list CurvePoint) :
  getChannel (setChannel points channel v) channel = v.
Proof. destruct channel; reflexivity. Qed.

Lemma getChannel_setChannel_other (points : ChannelPoints) (channel other : Channel)
    (v : list CurvePoint) :
  other <> channel ->
  getChannel (setChannel points channel v) other = getChannel points other.
Proof. destruct channel, other; intros H; try reflexivity; congruence. Qed.

Lemma tooClose_spec (sorted : list CurvePoint) (point : CurvePoint) :
  tooClose sorted point = true <->
  exists p, In p sorted /\ Z.abs (px p - px point) < MIN_POINT_DISTANCE.
Proof.
  unfold tooClose. rewrite existsb_exists.
  split; intros (p & Hp & Hd); exists p; split; auto; lia.
Qed.

Lemma tooClose_false (sorted : list CurvePoint) (point : CurvePoint) :
  tooClose sorted point = false <->
  forall p, In p sorted -> MIN_POINT_DISTANCE <= Z.abs (px p - px point).
Proof.
  split.
  - intros Hf p Hp.
    destruct (Z.lt_ge_cases (Z.abs (px p - px point)) MIN_POINT_DISTANCE) as [Hlt|Hge];
      [|exact Hge].
    assert (Ht : tooClose sorted point = true)
      by (apply tooClose_spec; now exists p).
    congruence.
  - intros Hall. destruct (tooClose sorted point) eqn:Ht; [|reflexivity].
    apply tooClose_spec in Ht. destruct Ht as (p & Hp & Hd).
    specialize (Hall p Hp). lia.
Qed.

Lemma filterIndex_keep_all (index from : Z) (a : list CurvePoint) :
  index < from \/ from + Z.of_nat (length a) <= index ->
  filterIndex (fun i => negb (i =? index)) from a = a.
Proof.
  revert from. induction a as [|p a IH]; intros from H; [reflexivity|].
  cbn [filterIndex]. cbn [length] in H.
  destruct (Z.eqb_spec from index); [lia|]. cbn [negb].
  f_equal. apply IH. lia.
Qed.

Lemma filterIndex_drop (index from : Z) (a : list CurvePoint) :
  from <= index < from + Z.of_nat (length a) ->
  filterIndex (fun i => negb (i =? index)) from a = without (index - from) a.
Proof.
  revert from. induction a as [|p a IH]; intros from H; cbn [length] in H; [lia|].
  cbn [filterIndex]. unfold without.
  destruct (Z.eqb_spec from index) as [->|Hne]; cbn [negb].
  - rewrite Z.sub_diag. cbn. apply filterIndex_keep_all. lia.
  - rewrite IH by lia. unfold without.
    replace (Z.to_nat (index - from)) with (S (Z.to_nat (index - (from + 1)))) by lia.
    reflexivity.
Qed.

Lemma without_length (index : Z) (a : list CurvePoint) :
  0 <= index < Z.of_nat (length a) ->
  S (length (without index a)) = length a.
Proof.
  intros H. unfold without.
  rewrite length_app, length_firstn, length_skipn. lia.
Qed.

Section SessionFacts.
Context {N : Type} {num : JSNumber N}.

Lemma points_updatePoints (s : Session) (newPoints : ChannelPoints) :
  controlledPoints s = None -> points (updatePoints s newPoints) = newPoints.
Proof. intros H. unfold points, updatePoints. cbn. now rewrite H. Qed.

Lemma points_updatePoints_controlled (s : Session) (newPoints : ChannelPoints) :
  controlledPoints s <> None -> points (updatePoints s newPoints) = points s.
Proof.
  intros H. unfold points, updatePoints. cbn.
  destruct (controlledPoints s); [reflexivity|congruence].
Qed.

Lemma notified_updatePoints (s : Session) (newPoints : ChannelPoints) :
  listening s = true ->
  notified (updatePoints s newPoints) =
    notified s ++ [(newPoints, generateLUT (N:=N) newPoints (interpolation s))].
Proof. intros H. unfold updatePoints. cbn. now rewrite H. Qed.

Lemma controlledPoints_updatePoints (s : Session) (newPoints : ChannelPoints) :
  controlledPoints (updatePoints (N:=N) s newPoints) = controlledPoints s.
Proof. reflexivity. Qed.

Lemma addPoint_rejected (channel : Channel) (point : CurvePoint) (s : Session) :
  (exists p, In p (getChannel (points s) channel) /\
             Z.abs (px p - px point) < MIN_POINT_DISTANCE) ->
  addPoint (N:=N) channel point s = s.
Proof.
  intros (p & Hp & Hd). unfold addPoint.
  assert (Ht : tooClose (sortPoints (getChannel (points s) channel)) point = true).
  { apply tooClose_spec. exists p. split; [now apply sortPoints_In|exact Hd]. }
  now rewrite Ht.
Qed.

Lemma addPoint_accepted (channel : Channel) (point : CurvePoint) (s : Session) :
  (forall p, In p (getChannel (points s) channel) ->
             MIN_POINT_DISTANCE <= Z.abs (px p - px point)) ->
  addPoint (N:=N) channel point s =
    updatePoints s
      (setChannel (points s) channel
         (sortPoints (getChannel (points s) channel ++ [point]))).
Proof.
  intros Hall. unfold addPoint.
  assert (Ht : tooClose (sortPoints (getChannel (points s) channel)) point = false).
  { apply tooClose_false. intros p Hp. apply Hall. now apply sortPoints_In. }
  now rewrite Ht.
Qed.

(** From the default session, adding (128, 200) to red. *)
Lemma addPoint_default_128 (i : Interpolation) (l : bool) :
  getChannel (points (addPoint (N:=N) red (mkPoint 128 200)
                        (useCurvePoints None None i l))) red =
    [mkPoint 0 0; mkPoint 128 200; mkPoint 255 255].
Proof.
  rewrite addPoint_accepted.
  - rewrite points_updatePoints by reflexivity. reflexivity.
  - cbn. unfold MIN_POINT_DISTANCE. intros p [<-|[<-|[]]]; cbn; lia.
Qed.

(** C8.  [addPoint(channel, point)] returns without a change and without a
    notification (the session is what it was) whenever a point of the
    channel is closer than MIN_POINT_DISTANCE = 5 to [point.x]; otherwise
    the point is appended, the result sorted by x and handed to
    [updatePoints]: it becomes the stored set of that channel, the other
    channels stay, and the listener is called once.  From the default
    session, adding (128, 200) to red gives [(0,0), (128,200), (255,255)],
    and adding (130, 50) next leaves the session as it is. *)
Theorem addPoint_min_distance :
  forall (s : Session) (channel : Channel) (point : CurvePoint),
    let pts := getChannel (points s) channel in
    let added := setChannel (points s) channel (sortPoints (pts ++ [point])) in
    ((exists p, In p pts /\ Z.abs (px p - px point) < MIN_POINT_DISTANCE) ->
     addPoint (N:=N) channel point s = s) /\
    ((forall p, In p pts -> MIN_POINT_DISTANCE <= Z.abs (px p - px point)) ->
     addPoint (N:=N) channel point s = updatePoints s added /\
     (controlledPoints s = None ->
      getChannel (points (addPoint (N:=N) channel point s)) channel =
        sortPoints (pts ++ [point]) /\
      forall other, other <> channel ->
        getChannel (points (addPoint (N:=N) channel point s)) other =
          getChannel (points s) other) /\
     (listening s = true ->
      notified (addPoint (N:=N) channel point s) =
        notified s ++ [(added, generateLUT (N:=N) added (interpolation s))])) /\
    (forall (i : Interpolation) (l : bool),
       let s1 := addPoint (N:=N) red (mkPoint 128 200) (useCurvePoints None None i l) in
       getChannel (points s1) red = [mkPoint 0 0; mkPoint 128 200; mkPoint 255 255] /\
       addPoint (N:=N) red (mkPoint 130 50) s1 = s1).
Proof.
  intros s channel point pts added. split; [apply addPoint_rejected|]. split.
  - intros Hall. rewrite (addPoint_accepted channel point s Hall).
    split; [reflexivity|]. split.
    + intros Hc. rewrite (points_updatePoints s _ Hc). split.
      * apply getChannel_setChannel_same.
      * intros other Hne. now apply getChannel_setChannel_other.
    + intros Hl. now apply notified_updatePoints.
  - intros i l s1.
    assert (H1 : getChannel (points s1) red =
                 [mkPoint 0 0; mkPoint 128 200; mkPoint 255 255])
      by apply addPoint_default_128.
    split; [exact H1|].
    apply addPoint_rejected. rewrite H1. exists (mkPoint 128 200).
    split; [right; now left|]. unfold MIN_POINT_DISTANCE. cbn. lia.
Qed.

Lemma removePoint_rejected (channel : Channel) (index : Z) (s : Session) :
  (length (getChannel (points s) channel) <= 2)%nat \/ index = 0 \/
  index = Z.of_nat (length (getChannel (points s) channel)) - 1 ->
  removePoint (N:=N) channel index s = s.
Proof.
  intros H. unfold removePoint.
  destruct (Nat.leb_spec (length (getChannel (points s) channel)) 2) as [_|Hgt];
    [reflexivity|].
  rewrite sortPoints_length.
  destruct H as [H|[->| ->]]; [lia|reflexivity|].
  rewrite Z.eqb_refl. now rewrite orb_true_r.
Qed.

Lemma removePoint_performed (channel : Channel) (index : Z) (s : Session) :
  (2 < length (getChannel (points s) channel))%nat -> index <> 0 ->
  index <> Z.of_nat (length (getChannel (points s) channel)) - 1 ->
  removePoint (N:=N) channel index s =
    updatePoints s
      (setChannel (points s) channel
         (filterIndex (fun i => negb (i =? index)) 0
            (sortPoints (getChannel (points s) channel)))).
Proof.
  intros Hlen H0 Hlast. unfold removePoint.
  destruct (Nat.leb_spec (length (getChannel (points s) channel)) 2); [lia|].
  rewrite sortPoints_length.
  destruct (Z.eqb_spec index 0); [contradiction|].
  destruct (Z.eqb_spec index (Z.of_nat (length (getChannel (points s) channel)) - 1));
    [contradiction|].
  reflexivity.
Qed.

(** C9.  [removePoint(channel, index)] returns without a change (same
    points, same length, no notification) whenever the channel has at most 2
    points, so that a removal would leave fewer than 2, or [index] is 0 or
    the last index of the sorted view.  In every other case the set handed
    to [updatePoints] is the sorted view without the point at [index], an
    interior point of a set of at least 3, or the whole sorted view when
    [index] addresses no point. *)
Theorem removePoint_guards :
  forall (s : Session) (channel : Channel) (index : Z),
    let pts := getChannel (points s) channel in
    let sorted := sortPoints pts in
    let n := Z.of_nat (length pts) in
    ((n <= 2 \/ index = 0 \/ index = n - 1) ->
     removePoint (N:=N) channel index s = s) /\
    (~ (n <= 2 \/ index = 0 \/ index = n - 1) ->
     exists kept,
       removePoint (N:=N) channel index s =
         updatePoints s (setChannel (points s) channel kept) /\
       ((0 < index < n - 1 /\ 3 <= n /\ kept = without index sorted /\
         Z.of_nat (length kept) = n - 1) \/
        ((index < 0 \/ n <= index) /\ kept = sorted))).
Proof.
  intros s channel index pts sorted n. split.
  - intros H. apply removePoint_rejected. fold pts. unfold n in H. lia.
  - intros H.
    exists (filterIndex (fun i => negb (i =? index)) 0 sorted).
    split; [apply removePoint_performed; fold pts; unfold n in H; lia|].
    assert (Hlen : Z.of_nat (length sorted) = n)
      by (unfold sorted, n; now rewrite sortPoints_length).
    destruct (Z.lt_ge_cases index 0) as [Hneg|Hpos].
    + right. split; [lia|]. apply filterIndex_keep_all. lia.
    + destruct (Z.lt_ge_cases index n) as [Hin|Hout].
      * left. split; [lia|]. split; [lia|].
        rewrite filterIndex_drop by lia. rewrite Z.sub_0_r.
        split; [reflexivity|].
        pose proof (without_length index sorted ltac:(lia)). lia.
      * right. split; [lia|]. apply filterIndex_keep_all. lia.
Qed.

End SessionFacts.

Lemma addPoint_min_distance_witness :
  let s0 : Session := useCurvePoints None None monotone true in
  (forall p, In p (getChannel (points s0) red) ->
             MIN_POINT_DISTANCE <= Z.abs (px p - px (mkPoint 128 200))) /\
  getChannel (points (addPoint (N:=float) red (mkPoint 128 200) s0)) red =
    [mkPoint 0 0; mkPoint 128 200; mkPoint 255 255] /\
  (exists p, In p (getChannel (points (addPoint (N:=float) red (mkPoint 128 200) s0)) red) /\
             Z.abs (px p - px (mkPoint 130 50)) < MIN_POINT_DISTANCE) /\
  addPoint (N:=float) red (mkPoint 130 50) (addPoint (N:=float) red (mkPoint 128 200) s0) =
    addPoint (N:=float) red (mkPoint 128 200) s0.
Proof.
  intros s0.
  assert (Hfar : forall p, In p (getChannel (points s0) red) ->
                   MIN_POINT_DISTANCE <= Z.abs (px p - px (mkPoint 128 200))).
  { unfold MIN_POINT_DISTANCE. cbn. intros p [<-|[<-|[]]]; cbn; lia. }
  destruct (addPoint_min_distance (N:=float) s0 red (mkPoint 128 200))
    as (_ & Hacc & _).
  destruct (Hacc Hfar) as (_ & Hstored & _).
  destruct (Hstored eq_refl) as [Hred _].
  assert (Hnear : exists p,
            In p (getChannel (points (addPoint (N:=float) red (mkPoint 128 200) s0)) red) /\
            Z.abs (px p - px (mkPoint 130 50)) < MIN_POINT_DISTANCE).
  { rewrite Hred. exists (mkPoint 128 200). split; [right; now left|].
    unfold MIN_POINT_DISTANCE. cbn. lia. }
  destruct (addPoint_min_distance (N:=float)
              (addPoint (N:=float) red (mkPoint 128 200) s0) red (mkPoint 130 50))
    as (Hrej & _).
  split; [exact Hfar|]. split; [exact Hred|]. split; [exact Hnear|].
  exact (Hrej Hnear).
Defined.

Lemma removePoint_guards_witness :
  let s0 : Session := useCurvePoints None None monotone true in
  let s1 := addPoint (N:=float) red (mkPoint 128 200) s0 in
  removePoint (N:=float) red 0 s1 = s1 /\
  removePoint (N:=float) red 2 s1 = s1 /\
  removePoint (N:=float) red 1 s0 = s0 /\
  getChannel (points (removePoint (N:=float) red 1 s1)) red =
    [mkPoint 0 0; mkPoint 255 255].
Proof.
  intros s0 s1.
  assert (H1 : getChannel (points s1) red =
               [mkPoint 0 0; mkPoint 128 200; mkPoint 255 255]).
  { apply addPoint_default_128. }
  destruct (removePoint_guards (N:=float) s1 red 0) as [Hr0 _].
  destruct (removePoint_guards (N:=float) s1 red 2) as [Hr2 _].
  destruct (removePoint_guards (N:=float) s0 red 1) as [Hr1 _].
  destruct (removePoint_guards (N:=float) s1 red 1) as [_ Hp].
  split; [apply Hr0; right; now left|].
  split; [apply Hr2; right; right; rewrite H1; reflexivity|].
  split; [apply Hr1; left; cbn; lia|].
  destruct Hp as (kept & -> & Hk).
  - rewrite H1. cbn. lia.
  - rewrite points_updatePoints by reflexivity.
    rewrite getChannel_setChannel_same.
    destruct Hk as [(_ & _ & -> & _)|[Hout _]].
    + rewrite H1. reflexivity.
    + rewrite H1 in Hout. cbn in Hout. lia.
Defined.

(** ** Out-of-range input (C2, C3) *)

(** C2, at the input where the code departs from it.  [addPoint] stores the
    point it is given: from the default session, adding (300, -20) to red
    is not rejected and leaves (300, -20) in the stored set, a point with
    both coordinates outside [0, 255]. *)
Theorem addPoint_stores_out_of_range :
  let s0 : Session := useCurvePoints None None monotone true in
  let s1 := addPoint (N:=float) red (mkPoint 300 (-20)) s0 in
  getChannel (points s1) red = [mkPoint 0 0; mkPoint 255 255; mkPoint 300 (-20)] /\
  length (notified s1) = 1%nat /\
  ~ inRange (getChannel (points s1) red).
Proof.
  intros s0 s1.
  assert (H1 : getChannel (points s1) red =
               [mkPoint 0 0; mkPoint 255 255; mkPoint 300 (-20)]).
  { unfold s1. rewrite addPoint_accepted.
    - rewrite points_updatePoints by reflexivity. reflexivity.
    - cbn. unfold MIN_POINT_DISTANCE. intros p [<-|[<-|[]]]; cbn; lia. }
  split; [exact H1|]. split.
  - unfold s1. rewrite addPoint_accepted.
    + rewrite notified_updatePoints by reflexivity. reflexivity.
    + cbn. unfold MIN_POINT_DISTANCE. intros p [<-|[<-|[]]]; cbn; lia.
  - rewrite H1. unfold inRange. intros H.
    inversion H as [|? ? _ H']; subst. inversion H' as [|? ? _ H'']; subst.
    inversion H'' as [|? ? [Hx _] _]; subst. cbn in Hx. lia.
Qed.

(** C3, at the input where the code departs from it.  From the default
    session, [addPoint('red', {x: -10, y: 0})] is accepted (it is 10 away
    from x = 0), and dragging the first point then forces its x to 0: the
    stored red set is [(0,40), (0,0), (255,255)], with two adjacent points
    at the same x. *)
Theorem invariant_broken_after_out_of_range_add :
  let s0 : Session := useCurvePoints None None monotone true in
  let calls := [AddPoint red (mkPoint (-10) 0); UpdatePoint red 0 (mkPoint (-10) 40)] in
  getChannel (points (performAll (N:=float) s0 calls)) red =
    [mkPoint 0 40; mkPoint 0 0; mkPoint 255 255] /\
  ~ pointSetInvariant (getChannel (points (performAll (N:=float) s0 calls)) red).
Proof.
  intros s0 calls.
  assert (H : getChannel (points (performAll (N:=float) s0 calls)) red =
              [mkPoint 0 40; mkPoint 0 0; mkPoint 255 255])
    by (vm_compute; reflexivity).
  split; [exact H|]. rewrite H. intros (_ & _ & Hs).
  cbn in Hs. unfold MIN_POINT_DISTANCE in Hs. lia.
Qed.

Lemma interpolation_permutation_invariant_witness :
  let l1 := [mkPoint 255 255; mkPoint 0 0; mkPoint 128 200] in
  let l2 := [mkPoint 0 0; mkPoint 128 200; mkPoint 255 255] in
  let x : float := ofZ 64 in
  let h : Store := [l2; l1] in
  distinctX l1 /\ Permutation l1 l2 /\ load h 1%nat = l1 /\
  monotoneCubicInterpolation l1 x = monotoneCubicInterpolation l2 x /\
  catmullRomInterpolation l1 x = catmullRomInterpolation l2 x /\
  load (snd (monotoneCubicInterpolationRef 1%nat x h)) 1%nat = l1 /\
  load (snd (catmullRomInterpolationRef 1%nat x h)) 1%nat = l1.
Proof.
  intros l1 l2 x h.
  assert (Hd : distinctX l1).
  { unfold distinctX, l1. cbn. repeat constructor; cbn; intuition lia. }
  assert (Hp : Permutation l1 l2).
  { unfold l1, l2. eapply perm_trans; [apply perm_swap|].
    apply perm_skip. apply perm_swap. }
  destruct (interpolation_permutation_invariant l1 l2 x Hd Hp) as [[Hm Hc] Hs].
  destruct (Hs h 1%nat eq_refl) as [_ Hold].
  destruct (Hold 1%nat ltac:(cbn; lia)) as [Hom Hoc].
  repeat split; assumption.
Defined.

(** ** Exact arithmetic: rounding and clamping *)

Section ExactRounding.
Local Open Scope R_scope.

Lemma floor_spec (r : R) : IZR (Exact.floor r) <= r < IZR (Exact.floor r) + 1.
Proof.
  unfold Exact.floor. rewrite minus_IZR. destruct (archimed r) as [H1 H2].
  split; lra.
Qed.

Lemma floor_unique (r : R) (k : Z) : IZR k <= r < IZR k + 1 -> Exact.floor r = k.
Proof.
  intros [H1 H2]. destruct (floor_spec r) as [H3 H4].
  assert (Hlo : (Exact.floor r < k + 1)%Z)
    by (apply lt_IZR; rewrite plus_IZR; lra).
  assert (Hhi : (k < Exact.floor r + 1)%Z)
    by (apply lt_IZR; rewrite plus_IZR; lra).
  lia.
Qed.

Lemma floor_le (r1 r2 : R) : r1 <= r2 -> (Exact.floor r1 <= Exact.floor r2)%Z.
Proof.
  intros H. destruct (floor_spec r1) as [H1 _]. destruct (floor_spec r2) as [_ H2].
  assert (Hlt : (Exact.floor r1 < Exact.floor r2 + 1)%Z)
    by (apply lt_IZR; rewrite plus_IZR; lra).
  lia.
Qed.

Lemma round_IZR (k : Z) : Exact.round (IZR k) = IZR k.
Proof. unfold Exact.round. f_equal. apply floor_unique. lra. Qed.

Lemma round_le (r1 r2 : R) : r1 <= r2 -> Exact.round r1 <= Exact.round r2.
Proof. intros H. unfold Exact.round. apply IZR_le, floor_le. lra. Qed.

Lemma nclamp_exact (v lo hi : R) : nclamp v lo hi = Rmin (Rmax v lo) hi.
Proof. reflexivity. Qed.

Lemma nclamp_le (v w lo hi : R) : v <= w -> nclamp v lo hi <= nclamp w lo hi.
Proof.
  intros H. rewrite !nclamp_exact.
  apply Rle_min_compat_r, Rle_max_compat_r, H.
Qed.

Lemma nclamp_inside (v lo hi : R) : lo <= v <= hi -> nclamp v lo hi = v.
Proof.
  intros [H1 H2]. rewrite nclamp_exact.
  rewrite Rmax_left by exact H1. now rewrite Rmin_left.
Qed.

(** [clamp(Math.round(r), 0, 255)] is monotone in [r] and fixes the bytes. *)
Lemma roundClamp_le (r1 r2 : R) :
  r1 <= r2 ->
  nclamp (nround r1) (ofZ 0) (ofZ 255) <= nclamp (nround r2) (ofZ 0) (ofZ 255).
Proof. intros H. apply nclamp_le. now apply round_le. Qed.

Lemma roundClamp_byte (k : Z) :
  (0 <= k <= 255)%Z -> nclamp (nround (IZR k)) (ofZ 0) (ofZ 255) = IZR k.
Proof.
  intros [H1 H2]. change (nround (IZR k)) with (Exact.round (IZR k)).
  rewrite round_IZR. apply nclamp_inside. cbn. split; now apply IZR_le.
Qed.

Lemma ltb_true (a b : R) : Exact.ltb a b = true <-> a < b.
Proof. unfold Exact.ltb. destruct (Rlt_dec a b); split; intros; try easy. Qed.

Lemma ltb_false (a b : R) : Exact.ltb a b = false <-> b <= a.
Proof.
  unfold Exact.ltb. destruct (Rlt_dec a b); split; intros; try easy; lra.
Qed.

Lemma leb_true (a b : R) : Exact.leb a b = true <-> a <= b.
Proof. unfold Exact.leb. destruct (Rle_dec a b); split; intros; try easy. Qed.

Lemma leb_false (a b : R) : Exact.leb a b = false <-> b < a.
Proof.
  unfold Exact.leb. destruct (Rle_dec a b); split; intros; try easy; lra.
Qed.

Lemma eqb_false (a b : R) : a <> b -> Exact.eqb a b = false.
Proof. intros H. unfold Exact.eqb. now destruct (Req_dec_T a b). Qed.

Lemma eqb_true (a : R) : Exact.eqb a a = true.
Proof. unfold Exact.eqb. now destruct (Req_dec_T a a). Qed.

(** At the right end of its segment the Hermite cubic is [y1], whatever the
    tangents. *)
Lemma hermite_at_x1 (x0 y0 y1 dx m0 m1 : R) :
  dx <> 0 ->
  hermite x0 y0 y1 dx m0 m1 (x0 + dx) = nclamp (nround y1) (ofZ 0) (ofZ 255).
Proof.
  intros Hdx. unfold hermite. cbn [nadd nsub nmul ndiv ofZ Exact.exact].
  f_equal. f_equal.
  replace ((x0 + dx - x0) / dx) with 1 by (field; exact Hdx). ring.
Qed.

End ExactRounding.

(** ** Locating the segment *)

Lemma StronglySorted_nth {A : Type} (R : A -> A -> Prop) (l : list A) (d : A) :
  StronglySorted R l ->
  forall i j, (i < j < length l)%nat -> R (nth i l d) (nth j l d).
Proof.
  induction 1 as [|a l Hl IH Ha]; intros i j Hij; cbn [length] in Hij; [lia|].
  destruct j as [|j]; [lia|]. destruct i as [|i]; cbn [nth].
  - rewrite Forall_forall in Ha. apply Ha, nth_In. lia.
  - apply IH. lia.
Qed.

Lemma In_at (l : list CurvePoint) (p : CurvePoint) :
  In p l -> exists k, (k < length l)%nat /\ at_ l k = p.
Proof. intros H. destruct (In_nth l p (mkPoint 0 0) H) as (k & Hk & E). now exists k. Qed.

Lemma ascending_distinct_strict (l : list CurvePoint) :
  ascending l -> distinctX l -> strictlyAscending l.
Proof.
  induction 1 as [|a l Hl IH Ha]; intros Hd; [constructor|].
  inversion Hd as [|? ? Hnin Hd']; subst.
  constructor; [now apply IH|].
  rewrite Forall_forall in *. intros q Hq.
  specialize (Ha q Hq). unfold byX in Ha.
  assert (px a <> px q); [|lia].
  intros E. apply Hnin. rewrite E. now apply in_map.
Qed.

Lemma sortPoints_distinct (l : list CurvePoint) :
  distinctX l -> distinctX (sortPoints l).
Proof.
  unfold distinctX. intros H. eapply Permutation_NoDup; [|exact H].
  apply Permutation_map. symmetry. apply sortPoints_perm.
Qed.

Section Segments.
Context {N : Type} {num : JSNumber N}.
Local Open Scope num_scope.

Lemma findSegment_cons (a q : CurvePoint) (r : list CurvePoint) (x : N) (k : nat) :
  findSegment (a :: q :: r) x k =
    if X q <? x then findSegment (q :: r) x (S k) else k.
Proof. reflexivity. Qed.

Lemma findSegment_shift (l : list CurvePoint) (x : N) (k : nat) :
  findSegment l x k = (k + findSegment l x 0)%nat.
Proof.
  revert k. induction l as [|a l IH]; intros k; [cbn; lia|].
  destruct l as [|q r]; [cbn; lia|].
  rewrite !findSegment_cons. destruct (X q <? x); [|lia].
  rewrite (IH (S k)), (IH 1%nat). lia.
Qed.

(** The loop stops at the first index [i] whose right neighbour is not below
    [x]; every point it stepped over is below [x]. *)
Lemma findSegment_spec (l : list CurvePoint) (x : N) :
  l <> [] ->
  let i := findSegment l x 0 in
  (i < length l)%nat /\
  (forall j, (0 < j <= i)%nat -> (X (at_ l j) <? x) = true) /\
  ((S i < length l)%nat -> (X (at_ l (S i)) <? x) = false).
Proof.
  induction l as [|a l IH]; intros Hne; [congruence|].
  destruct l as [|q r].
  - cbn. repeat split; intros; lia.
  - rewrite findSegment_cons. destruct (X q <? x) eqn:Hq.
    + rewrite findSegment_shift.
      destruct (IH ltac:(discriminate)) as (H1 & H2 & H3).
      cbn zeta in *. set (i' := findSegment (q :: r) x 0) in *.
      split; [cbn [length] in *; lia|]. split.
      * intros [|[|j]] Hj; [lia|exact Hq|].
        change (at_ (a :: q :: r) (S (S j))) with (at_ (q :: r) (S j)).
        apply H2. lia.
      * intros Hlt. change (at_ (a :: q :: r) (S (1 + i'))) with (at_ (q :: r) (S i')).
        apply H3. cbn [length] in *. lia.
    + cbn zeta. split; [cbn; lia|]. split; [intros; lia|].
      intros _. exact Hq.
Qed.

End Segments.

(** ** Control points (C7) *)

Lemma inRange_sortPoints (l : list CurvePoint) : inRange l -> inRange (sortPoints l).
Proof.
  unfold inRange. rewrite !Forall_forall. intros H p Hp.
  apply H. now apply sortPoints_In.
Qed.

Lemma inRange_at (l : list CurvePoint) (k : nat) :
  inRange l -> (k < length l)%nat ->
  0 <= px (at_ l k) <= 255 /\ 0 <= py (at_ l k) <= 255.
Proof.
  unfold inRange. rewrite Forall_forall. intros H Hk. apply H. now apply nth_In.
Qed.

Section ExactSegments.
Local Open Scope R_scope.

(** Strictly between the first and the last x, the loop stops on a segment
    that holds the query: [sorted[i].x < x <= sorted[i+1].x]. *)
Lemma findSegment_interior (sorted : list CurvePoint) (x : R) :
  (2 <= length sorted)%nat ->
  X (at_ sorted 0) < x -> x < X (at_ sorted (length sorted - 1)) ->
  let i := findSegment sorted x 0 in
  (i + 1 < length sorted)%nat /\ X (at_ sorted i) < x <= X (at_ sorted (i + 1)).
Proof.
  intros Hn Hlo Hhi.
  destruct (findSegment_spec sorted x) as (H1 & H2 & H3);
    [destruct sorted; [cbn in Hn; lia|discriminate]|].
  cbn zeta in *. set (i := findSegment sorted x 0) in *.
  assert (Hi : (i + 1 < length sorted)%nat).
  { destruct (Nat.eq_dec i (length sorted - 1)) as [E|]; [|lia].
    specialize (H2 i ltac:(lia)). apply ltb_true in H2. rewrite E in H2. lra. }
  split; [exact Hi|]. split.
  - destruct (Nat.eq_dec i 0) as [->|Hi0]; [exact Hlo|].
    apply ltb_true. apply H2. lia.
  - replace (i + 1)%nat with (S i) by lia. apply ltb_false. apply H3. lia.
Qed.

Lemma monotoneSegment_at_right (sorted : list CurvePoint) (n i : nat) :
  X (N:=R) (at_ sorted i) <> X (at_ sorted (i + 1)) ->
  monotoneSegment sorted n i (X (at_ sorted (i + 1))) =
    nclamp (nround (Y (at_ sorted (i + 1)))) (ofZ 0) (ofZ 255).
Proof.
  intros Hne. unfold monotoneSegment.
  change (nequal ?a ?b) with (Exact.eqb a b).
  change (nsub ?a ?b) with (a - b).
  rewrite (eqb_false (X (at_ sorted (i + 1)) - X (at_ sorted i)) (ofZ 0))
    by (intros E; apply Hne; unfold X in *; cbn in *; lra).
  match goal with |- (let '(m0, m1) := ?l in _) = _ => destruct l as [m0 m1] end.
  replace (X (at_ sorted (i + 1))) with
    (X (at_ sorted i) + (X (at_ sorted (i + 1)) - X (at_ sorted i))) at 2 by ring.
  apply hermite_at_x1. intros E; apply Hne; lra.
Qed.

Lemma catmullRomSegment_at_right (sorted : list CurvePoint) (n i : nat) :
  (i + 1 <= n - 1)%nat ->
  X (N:=R) (at_ sorted i) <> X (at_ sorted (i + 1)) ->
  catmullRomSegment sorted n i (X (at_ sorted (i + 1))) =
    nclamp (nround (Y (at_ sorted (i + 1)))) (ofZ 0) (ofZ 255).
Proof.
  intros Hi Hne. unfold catmullRomSegment.
  rewrite (Nat.min_r (n - 1) (i + 1)) by exact Hi.
  change (nequal ?a ?b) with (Exact.eqb a b).
  change (nsub ?a ?b) with (a - b).
  rewrite (eqb_false (X (at_ sorted (i + 1)) - X (at_ sorted i)) (ofZ 0))
    by (intros E; apply Hne; unfold X in *; cbn in *; lra).
  cbn [nadd nsub nmul ndiv nneg half ofZ Exact.exact].
  f_equal. f_equal.
  replace ((X (at_ sorted (i + 1)) - X (at_ sorted i)) /
           (X (at_ sorted (i + 1)) - X (at_ sorted i))) with 1
    by (field; intros E; apply Hne; lra).
  field.
Qed.

Lemma X_lt (p q : CurvePoint) : (px p < px q)%Z -> X (N:=R) p < X q.
Proof. intros H. unfold X. cbn. now apply IZR_lt. Qed.

Lemma X_le (p q : CurvePoint) : (px p <= px q)%Z -> X (N:=R) p <= X q.
Proof. intros H. unfold X. cbn. now apply IZR_le. Qed.

Lemma X_lt_inv (p q : CurvePoint) : X (N:=R) p < X q -> (px p < px q)%Z.
Proof. unfold X. cbn. apply lt_IZR. Qed.

Lemma X_le_inv (p q : CurvePoint) : X (N:=R) p <= X q -> (px p <= px q)%Z.
Proof. unfold X. cbn. apply le_IZR. Qed.

(** On a strictly ascending array with bytes for y, both interpolators
    return [sorted[k].y] at [sorted[k].x]. *)
Lemma control_point_on_sorted (sorted : list CurvePoint) (k : nat) :
  strictlyAscending sorted -> inRange sorted -> (k < length sorted)%nat ->
  monotoneCubicOn sorted (X (at_ sorted k)) = Y (at_ sorted k) /\
  catmullRomOn sorted (X (at_ sorted k)) = Y (at_ sorted k).
Proof.
  intros Hs Hr Hk.
  assert (Hlt : forall i j, (i < j < length sorted)%nat ->
                  (px (at_ sorted i) < px (at_ sorted j))%Z)
    by (intros i j Hij; apply (StronglySorted_nth _ sorted (mkPoint 0 0) Hs i j Hij)).
  unfold monotoneCubicOn, catmullRomOn.
  destruct (Nat.eqb_spec (length sorted) 0) as [E|_]; [lia|].
  destruct (Nat.eqb_spec (length sorted) 1) as [E|Hn1].
  { now replace k with 0%nat by lia. }
  change (nle ?a ?b) with (Exact.leb a b).
  destruct (Nat.eq_dec k 0) as [->|Hk0].
  { rewrite (proj2 (leb_true _ _)) by lra. now split. }
  rewrite (proj2 (leb_false (X (at_ sorted k)) (X (at_ sorted 0))))
    by (apply X_lt, (Hlt 0%nat k); lia).
  destruct (Nat.eq_dec k (length sorted - 1)) as [->|Hkl].
  { rewrite (proj2 (leb_true _ _)) by lra. now split. }
  rewrite (proj2 (leb_false (X (at_ sorted (length sorted - 1))) (X (at_ sorted k))))
    by (apply X_lt, (Hlt k (length sorted - 1)%nat); lia).
  destruct (findSegment_interior sorted (X (at_ sorted k))) as (Hi & Hlo & Hhi);
    [lia|apply X_lt, (Hlt 0%nat k); lia
        |apply X_lt, (Hlt k (length sorted - 1)%nat); lia|].
  cbn zeta in *. set (i := findSegment sorted (X (at_ sorted k)) 0) in *.
  assert (Hik : (i + 1)%nat = k).
  { apply X_lt_inv in Hlo. apply X_le_inv in Hhi.
    destruct (Nat.lt_trichotomy (i + 1) k) as [Hc|[E|Hc]]; [|exact E|].
    - specialize (Hlt (i + 1)%nat k ltac:(lia)). lia.
    - destruct (Nat.eq_dec i k) as [E|Hne]; [rewrite E in Hlo; lia|].
      specialize (Hlt k i ltac:(lia)). lia. }
  assert (Hne : X (N:=R) (at_ sorted i) <> X (at_ sorted (i + 1)))
    by (rewrite Hik; lra).
  destruct (inRange_at sorted k Hr Hk) as [_ Hy].
  rewrite <- Hik at 1 3.
  rewrite monotoneSegment_at_right, catmullRomSegment_at_right by (auto; lia).
  rewrite Hik. split; apply (roundClamp_byte _ Hy).
Qed.

End ExactSegments.



(** ** Monotone data (C5) *)

Section FritschCarlson.
Local Open Scope R_scope.

(** Inside the circle of radius 3 the derivative does not change sign. *)
Lemma unitCubic'_nonneg (a b t : R) :
  0 <= a -> 0 <= b -> a * a + b * b <= 9 -> 0 <= t <= 1 -> 0 <= unitCubic' a b t.
Proof.
  intros Ha Hb Hc [Ht0 Ht1]. unfold unitCubic'.
  set (u := 1 - t). assert (Hu : 0 <= u) by (unfold u; lra).
  destruct (Rle_dec (a + b) 3) as [Hs|Hs].
  - assert (0 <= a * (u * u)) by (apply Rmult_le_pos; nra).
    assert (0 <= b * (t * t)) by (apply Rmult_le_pos; nra).
    assert (0 <= (6 - 2 * a - 2 * b) * (t * u))
      by (apply Rmult_le_pos; [lra|now apply Rmult_le_pos]).
    lra.
  - set (c := a + b - 3). assert (Hcpos : 0 < c) by (unfold c; lra).
    assert (Hdiff : 0 <= (a - b) * (a - b)) by apply Rle_0_sqr.
    assert (Hs9 : a + b <= 9).
    { destruct (Rle_dec (a + b) 9) as [H|H]; [exact H|]. exfalso.
      assert (81 < (a + b) * (a + b)) by nra. nra. }
    assert (Hprod : (a + b - 3) * (9 - (a + b)) >= 0)
      by (apply Rle_ge, Rmult_le_pos; lra).
    assert (Hcc : c * c <= a * b) by (unfold c; nra).
    assert (Hab : 0 < a * b) by nra.
    assert (Hapos : 0 < a).
    { destruct (Rle_lt_or_eq_dec 0 a Ha) as [H|H]; [exact H|].
      rewrite <- H in Hab. lra. }
    assert (Hform : a * (a * (u * u) + b * (t * t) + (6 - 2 * a - 2 * b) * (t * u)) =
                    (a * u - c * t) * (a * u - c * t) + (a * b - c * c) * (t * t))
      by (unfold c; ring).
    assert (Hsq : 0 <= (a * u - c * t) * (a * u - c * t)) by apply Rle_0_sqr.
    assert (Hrest : 0 <= (a * b - c * c) * (t * t))
      by (apply Rmult_le_pos; [lra|apply Rle_0_sqr]).
    assert (Hscaled : 0 <= a * (a * (u * u) + b * (t * t) + (6 - 2 * a - 2 * b) * (t * u)))
      by lra.
    destruct (Rle_dec 0 (a * (u * u) + b * (t * t) + (6 - 2 * a - 2 * b) * (t * u)))
      as [H|H]; [exact H|]. exfalso.
    apply Rnot_le_lt in H.
    pose proof (Rmult_lt_compat_l a _ _ Hapos H) as Hneg. lra.
Qed.

(** Simpson's rule is exact on the derivative. *)
Lemma unitCubic_difference (a b s t : R) :
  unitCubic a b t - unitCubic a b s =
  (t - s) / 6 *
  (unitCubic' a b s + 4 * unitCubic' a b ((s + t) / 2) + unitCubic' a b t).
Proof. unfold unitCubic, unitCubic'. field. Qed.

Lemma unitCubic_increasing (a b s t : R) :
  0 <= a -> 0 <= b -> a * a + b * b <= 9 -> 0 <= s -> s <= t -> t <= 1 ->
  unitCubic a b s <= unitCubic a b t.
Proof.
  intros Ha Hb Hc Hs Hst Ht.
  pose proof (unitCubic_difference a b s t) as Hd.
  pose proof (unitCubic'_nonneg a b s Ha Hb Hc ltac:(lra)).
  pose proof (unitCubic'_nonneg a b ((s + t) / 2) Ha Hb Hc ltac:(lra)).
  pose proof (unitCubic'_nonneg a b t Ha Hb Hc ltac:(lra)).
  assert (0 <= (t - s) / 6 *
               (unitCubic' a b s + 4 * unitCubic' a b ((s + t) / 2) + unitCubic' a b t))
    by (apply Rmult_le_pos; lra).
  lra.
Qed.

Lemma unitCubic_0 (a b : R) : unitCubic a b 0 = 0.
Proof. unfold unitCubic. ring. Qed.

Lemma unitCubic_1 (a b : R) : unitCubic a b 1 = 1.
Proof. unfold unitCubic. ring. Qed.

End FritschCarlson.

Section MonotoneSegments.
Local Open Scope R_scope.

(** On a non-negative slope with non-negative tangents the limiter returns
    tangents [a * slope] and [b * slope] with [(a, b)] in the quarter disc
    of radius 3. *)
Lemma limitTangents_exact (slope m0 m1 : R) :
  0 <= slope -> 0 <= m0 -> 0 <= m1 ->
  exists a b, 0 <= a /\ 0 <= b /\ a * a + b * b <= 9 /\
              limitTangents slope m0 m1 = (a * slope, b * slope).
Proof.
  intros Hs H0 H1. unfold limitTangents.
  change (nequal ?a ?b) with (Exact.eqb a b).
  change (nlt ?a ?b) with (Exact.ltb a b).
  cbn [nadd nsub nmul ndiv nsqrt ofZ Exact.exact].
  unfold Exact.eqb. destruct (Req_dec_T slope 0) as [E|Hne].
  { exists 0, 0. repeat split; try lra. f_equal; ring. }
  assert (Hpos : 0 < slope) by lra.
  assert (Ha : 0 <= m0 / slope) by (apply Rle_mult_inv_pos; assumption).
  assert (Hb : 0 <= m1 / slope) by (apply Rle_mult_inv_pos; assumption).
  rewrite (proj2 (ltb_false (m0 / slope) 0)) by exact Ha.
  rewrite (proj2 (ltb_false (m1 / slope) 0)) by exact Hb.
  set (sum := m0 / slope * (m0 / slope) + m1 / slope * (m1 / slope)).
  destruct (Exact.ltb 9 sum) eqn:Hsum.
  - apply ltb_true in Hsum.
    assert (Hroot : 0 < sqrt sum) by (apply sqrt_lt_R0; lra).
    assert (Hsq : sqrt sum * sqrt sum = sum) by (apply sqrt_sqrt; lra).
    assert (Htau : 0 <= 3 / sqrt sum) by (apply Rle_mult_inv_pos; lra).
    exists (3 / sqrt sum * (m0 / slope)), (3 / sqrt sum * (m1 / slope)).
    split; [now apply Rmult_le_pos|]. split; [now apply Rmult_le_pos|].
    split; [|reflexivity].
    apply Req_le.
    assert (Hr : sqrt sum <> 0) by lra.
    transitivity (9 * sum / (sqrt sum * sqrt sum)).
    + unfold sum at 5. generalize (sqrt sum) Hr. intros r Hr'. field. now split.
    + rewrite Hsq. field. lra.
  - apply ltb_false in Hsum.
    exists (m0 / slope), (m1 / slope). repeat split; try assumption.
    f_equal; field; lra.
Qed.

(** With tangents in units of the secant slope, the Hermite cubic is the
    unit cubic scaled to the segment. *)
Lemma hermite_exact (x0 y0 y1 dx a b x : R) :
  dx <> 0 ->
  hermite x0 y0 y1 dx (a * ((y1 - y0) / dx)) (b * ((y1 - y0) / dx)) x =
    nclamp (nround (y0 + (y1 - y0) * unitCubic a b ((x - x0) / dx))) (ofZ 0) (ofZ 255).
Proof.
  intros Hdx. unfold hermite, unitCubic.
  cbn [nadd nsub nmul ndiv ofZ Exact.exact].
  f_equal. f_equal. field. exact Hdx.
Qed.

Lemma Y_le (p q : CurvePoint) : (py p <= py q)%Z -> Y (N:=R) p <= Y q.
Proof. intros H. unfold Y. cbn. now apply IZR_le. Qed.

(** On a segment of positive width of monotone data, [monotoneSegment] is
    the byte nearest to [y0 + dy * c(t)] for a unit cubic [c] that does not
    decrease. *)
Lemma monotoneSegment_form (sorted : list CurvePoint) (i : nat) :
  ascending sorted -> nonDecreasingY sorted ->
  (i + 1 < length sorted)%nat ->
  X (N:=R) (at_ sorted i) < X (at_ sorted (i + 1)) ->
  exists a b, 0 <= a /\ 0 <= b /\ a * a + b * b <= 9 /\
    forall x,
      monotoneSegment sorted (length sorted) i x =
        nclamp
          (nround
             (Y (at_ sorted i) +
              (Y (at_ sorted (i + 1)) - Y (at_ sorted i)) *
              unitCubic a b ((x - X (at_ sorted i)) /
                             (X (at_ sorted (i + 1)) - X (at_ sorted i)))))
          (ofZ 0) (ofZ 255).
Proof.
  intros Hx Hy Hi Hdx.
  assert (Hxs : forall j k, (j < k < length sorted)%nat ->
                  X (N:=R) (at_ sorted j) <= X (at_ sorted k))
    by (intros j k Hjk; apply X_le;
        apply (StronglySorted_nth _ sorted (mkPoint 0 0) Hx j k Hjk)).
  assert (Hys : forall j k, (j < k < length sorted)%nat ->
                  Y (N:=R) (at_ sorted j) <= Y (at_ sorted k))
    by (intros j k Hjk; apply Y_le;
        apply (StronglySorted_nth _ sorted (mkPoint 0 0) Hy j k Hjk)).
  set (x0 := X (N:=R) (at_ sorted i)) in *.
  set (x1 := X (N:=R) (at_ sorted (i + 1))) in *.
  set (y0 := Y (N:=R) (at_ sorted i)).
  set (y1 := Y (N:=R) (at_ sorted (i + 1))).
  assert (Hdy : y0 <= y1) by (apply Hys; lia).
  assert (Hslope : 0 <= (y1 - y0) / (x1 - x0))
    by (apply Rle_mult_inv_pos; lra).
  set (m0 := if Nat.eqb i 0 then (y1 - y0) / (x1 - x0)
             else if Exact.eqb (x0 - X (at_ sorted (i - 1))) 0 then 0
             else ((y1 - y0) / (x1 - x0) +
                   (y0 - Y (at_ sorted (i - 1))) / (x0 - X (at_ sorted (i - 1)))) / 2).
  set (m1 := if Nat.eqb i (length sorted - 2) then (y1 - y0) / (x1 - x0)
             else if Exact.eqb (X (at_ sorted (i + 2)) - x1) 0 then 0
             else ((y1 - y0) / (x1 - x0) +
                   (Y (at_ sorted (i + 2)) - y1) / (X (at_ sorted (i + 2)) - x1)) / 2).
  assert (Hm0 : 0 <= m0).
  { unfold m0. destruct (Nat.eqb_spec i 0) as [_|Hi0]; [exact Hslope|].
    unfold Exact.eqb.
    destruct (Req_dec_T (x0 - X (at_ sorted (i - 1))) 0) as [_|Hne]; [lra|].
    assert (X (N:=R) (at_ sorted (i - 1)) <= x0) by (apply Hxs; lia).
    assert (Y (N:=R) (at_ sorted (i - 1)) <= y0) by (apply Hys; lia).
    assert (0 <= (y0 - Y (at_ sorted (i - 1))) / (x0 - X (at_ sorted (i - 1))))
      by (apply Rle_mult_inv_pos; lra).
    lra. }
  assert (Hm1 : 0 <= m1).
  { unfold m1. destruct (Nat.eqb_spec i (length sorted - 2)) as [_|Hi2]; [exact Hslope|].
    unfold Exact.eqb.
    destruct (Req_dec_T (X (at_ sorted (i + 2)) - x1) 0) as [_|Hne]; [lra|].
    assert (x1 <= X (N:=R) (at_ sorted (i + 2))) by (apply Hxs; lia).
    assert (y1 <= Y (N:=R) (at_ sorted (i + 2))) by (apply Hys; lia).
    assert (0 <= (Y (at_ sorted (i + 2)) - y1) / (X (at_ sorted (i + 2)) - x1))
      by (apply Rle_mult_inv_pos; lra).
    lra. }
  destruct (limitTangents_exact _ m0 m1 Hslope Hm0 Hm1) as (a & b & Ha & Hb & Hab & Hl).
  exists a, b. repeat split; try assumption.
  intros x. unfold monotoneSegment.
  change (nequal ?u ?v) with (Exact.eqb u v).
  cbn [nadd nsub nmul ndiv ofZ Exact.exact].
  fold x0 x1 y0 y1.
  rewrite (eqb_false (x1 - x0) 0) by lra.
  fold m0 m1. rewrite Hl.
  apply hermite_exact. lra.
Qed.

End MonotoneSegments.

Section MonotoneData.
Local Open Scope R_scope.

Variable sorted : list CurvePoint.
Hypothesis Hasc : ascending sorted.
Hypothesis Hmono : nonDecreasingY sorted.
Hypothesis Hbytes : inRange sorted.

Let n : nat := length sorted.

Lemma sorted_X_le (j k : nat) :
  (j <= k < n)%nat -> X (N:=R) (at_ sorted j) <= X (at_ sorted k).
Proof.
  intros Hjk. destruct (Nat.eq_dec j k) as [->|Hne]; [lra|].
  apply X_le. apply (StronglySorted_nth _ sorted (mkPoint 0 0) Hasc j k). unfold n in *. lia.
Qed.

Lemma sorted_Y_le (j k : nat) :
  (j <= k < n)%nat -> Y (N:=R) (at_ sorted j) <= Y (at_ sorted k).
Proof.
  intros Hjk. destruct (Nat.eq_dec j k) as [->|Hne]; [lra|].
  apply Y_le. apply (StronglySorted_nth _ sorted (mkPoint 0 0) Hmono j k). unfold n in *. lia.
Qed.

Lemma sorted_Y_byte (k : nat) :
  (k < n)%nat ->
  nclamp (nround (Y (N:=R) (at_ sorted k))) (ofZ 0) (ofZ 255) = Y (at_ sorted k).
Proof.
  intros Hk. apply roundClamp_byte. now apply (inRange_at sorted k Hbytes).
Qed.

(** Inside a segment the value stays between the y of its two ends. *)
Lemma monotoneSegment_between (i : nat) (x : R) :
  (i + 1 < n)%nat ->
  X (at_ sorted i) < x <= X (at_ sorted (i + 1)) ->
  Y (at_ sorted i) <= monotoneSegment sorted n i x <= Y (at_ sorted (i + 1)).
Proof.
  intros Hi [Hlo Hhi].
  destruct (monotoneSegment_form sorted i Hasc Hmono Hi ltac:(lra))
    as (a & b & Ha & Hb & Hab & Hform).
  unfold n. rewrite Hform.
  set (x0 := X (N:=R) (at_ sorted i)) in *.
  set (x1 := X (N:=R) (at_ sorted (i + 1))) in *.
  set (y0 := Y (N:=R) (at_ sorted i)).
  set (y1 := Y (N:=R) (at_ sorted (i + 1))).
  set (t := (x - x0) / (x1 - x0)).
  assert (Hdy : y0 <= y1) by (apply sorted_Y_le; lia).
  assert (Ht0 : 0 <= t) by (apply Rle_mult_inv_pos; lra).
  assert (Ht1 : t <= 1).
  { unfold t. apply Rmult_le_reg_r with (x1 - x0); [lra|].
    replace ((x - x0) / (x1 - x0) * (x1 - x0)) with (x - x0) by (field; lra). lra. }
  pose proof (unitCubic_increasing a b 0 t Ha Hb Hab ltac:(lra) Ht0 Ht1) as Hc0.
  pose proof (unitCubic_increasing a b t 1 Ha Hb Hab Ht0 Ht1 ltac:(lra)) as Hc1.
  rewrite unitCubic_0 in Hc0. rewrite unitCubic_1 in Hc1.
  assert (Hs0 : y0 <= y0 + (y1 - y0) * unitCubic a b t) by nra.
  assert (Hs1 : y0 + (y1 - y0) * unitCubic a b t <= y1) by nra.
  split.
  - unfold y0 at 1. rewrite <- (sorted_Y_byte i) by lia. now apply roundClamp_le.
  - unfold y1 at 2. rewrite <- (sorted_Y_byte (i + 1)) by lia. now apply roundClamp_le.
Qed.

(** On one segment the value does not decrease with the query. *)
Lemma monotoneSegment_nondecreasing (i : nat) (a b : R) :
  (i + 1 < n)%nat ->
  X (at_ sorted i) < a -> a <= b -> b <= X (at_ sorted (i + 1)) ->
  monotoneSegment sorted n i a <= monotoneSegment sorted n i b.
Proof.
  intros Hi Hlo Hab Hhi.
  destruct (monotoneSegment_form sorted i Hasc Hmono Hi ltac:(lra))
    as (ta & tb & Hta & Htb & Htab & Hform).
  unfold n. rewrite !Hform.
  set (x0 := X (N:=R) (at_ sorted i)) in *.
  set (x1 := X (N:=R) (at_ sorted (i + 1))) in *.
  set (y0 := Y (N:=R) (at_ sorted i)).
  set (y1 := Y (N:=R) (at_ sorted (i + 1))).
  assert (Hdy : y0 <= y1) by (apply sorted_Y_le; lia).
  assert (Hinv : 0 < / (x1 - x0)) by (apply Rinv_0_lt_compat; lra).
  assert (Hsa : 0 <= (a - x0) / (x1 - x0)) by (apply Rle_mult_inv_pos; lra).
  assert (Hsab : (a - x0) / (x1 - x0) <= (b - x0) / (x1 - x0))
    by (unfold Rdiv; apply Rmult_le_compat_r; lra).
  assert (Hsb : (b - x0) / (x1 - x0) <= 1).
  { apply Rmult_le_reg_r with (x1 - x0); [lra|].
    replace ((b - x0) / (x1 - x0) * (x1 - x0)) with (b - x0) by (field; lra). lra. }
  pose proof (unitCubic_increasing ta tb _ _ Hta Htb Htab Hsa Hsab Hsb) as Hc.
  apply roundClamp_le. nra.
Qed.

(** [monotoneCubicInterpolation] on the sorted array does not decrease. *)
Lemma monotoneCubicOn_nondecreasing (a b : R) :
  a <= b -> monotoneCubicOn sorted a <= monotoneCubicOn sorted b.
Proof.
  intros Hab. unfold monotoneCubicOn. fold n.
  destruct (Nat.eqb_spec n 0) as [_|Hn0]; [exact Hab|].
  destruct (Nat.eqb_spec n 1) as [_|Hn1]; [lra|].
  change (nle ?u ?v) with (Exact.leb u v).
  set (first := at_ sorted 0). set (final := at_ sorted (n - 1)).
  assert (Hsegment : forall x, X first < x -> x < X final ->
            let i := findSegment sorted x 0 in
            (i + 1 < n)%nat /\ X (at_ sorted i) < x <= X (at_ sorted (i + 1)) /\
            Y (at_ sorted i) <= monotoneSegment sorted n i x <= Y (at_ sorted (i + 1))).
  { intros x H1 H2.
    destruct (findSegment_interior sorted x) as (Hi & Hx); [unfold n in *; lia|exact H1|exact H2|].
    cbn zeta. split; [exact Hi|]. split; [exact Hx|].
    now apply monotoneSegment_between. }
  destruct (Exact.leb a (X first)) eqn:Ha0.
  - (* a at or below the first point *)
    destruct (Exact.leb b (X first)) eqn:Hb0; [lra|].
    destruct (Exact.leb (X final) b) eqn:Hb1.
    + apply sorted_Y_le. lia.
    + apply leb_false in Hb0, Hb1.
      destruct (Hsegment b Hb0 Hb1) as (Hi & _ & Hv & _).
      eapply Rle_trans; [|exact Hv]. apply sorted_Y_le. lia.
  - apply leb_false in Ha0.
    rewrite (proj2 (leb_false b (X first))) by lra.
    destruct (Exact.leb (X final) a) eqn:Ha1.
    + apply leb_true in Ha1. rewrite (proj2 (leb_true (X final) b)) by lra. lra.
    + apply leb_false in Ha1.
      destruct (Hsegment a Ha0 Ha1) as (Hia & [Hxa Hxa'] & _ & Hva).
      destruct (Exact.leb (X final) b) eqn:Hb1.
      * eapply Rle_trans; [exact Hva|]. apply sorted_Y_le. lia.
      * apply leb_false in Hb1.
        destruct (Hsegment b ltac:(lra) Hb1) as (Hib & [Hxb Hxb'] & Hvb & _).
        set (ia := findSegment sorted a 0) in *.
        set (ib := findSegment sorted b 0) in *.
        destruct (Nat.lt_trichotomy ia ib) as [Hlt|[Heq|Hgt]].
        -- eapply Rle_trans; [exact Hva|].
           eapply Rle_trans; [|exact Hvb]. apply sorted_Y_le. lia.
        -- rewrite <- Heq in *. apply monotoneSegment_nondecreasing; assumption.
        -- exfalso.
           assert (X (N:=R) (at_ sorted (ib + 1)) <= X (at_ sorted ia))
             by (apply sorted_X_le; lia).
           lra.
Qed.

End MonotoneData.

(** Points whose y does not decrease when x does not give a sorted view
    with non-decreasing y. *)
Lemma monotone_points_sorted (points : list CurvePoint) :
  (forall p q, In p points -> In q points -> px p <= px q -> py p <= py q) ->
  nonDecreasingY (sortPoints points).
Proof.
  intros H.
  assert (Hin : forall p, In p (sortPoints points) -> In p points)
    by (intros p; apply sortPoints_In).
  pose proof (sortPoints_ascending points) as Ha.
  induction Ha as [|a l Hl IH Hf]; [constructor|].
  constructor.
  - apply IH. intros p Hp. apply Hin. now right.
  - rewrite Forall_forall in *. intros q Hq.
    apply H; [apply Hin; now left|apply Hin; now right|apply Hf, Hq].
Qed.



(** In binary64 the tables of these monotone point sets do not decrease:
    six sets by hand, and the 60 three-point sets on a grid. *)
Lemma monotone_tables_binary64 :
  forallb (fun points => nonDecreasingTable (generateChannelLUT (N:=float) points monotone))
    ([ getDefaultPoints;
       [mkPoint 0 0; mkPoint 128 200; mkPoint 255 255];
       [mkPoint 0 0; mkPoint 64 10; mkPoint 128 250; mkPoint 255 255];
       [mkPoint 0 0; mkPoint 5 255; mkPoint 250 255; mkPoint 255 255];
       [mkPoint 0 0; mkPoint 100 0; mkPoint 105 255; mkPoint 255 255];
       [mkPoint 0 20; mkPoint 50 20; mkPoint 60 21; mkPoint 200 240; mkPoint 255 240] ]
     ++ monotoneTriples [5; 128; 250] [0; 1; 128; 255])
  = true.
Proof. vm_compute. reflexivity. Qed.

(** In binary64 the tables of the same sets pass through their control
    points, under both interpolations. *)
Lemma control_points_binary64 :
  forallb (fun points => passesThrough (N:=float) monotone points &&
                         passesThrough (N:=float) catmullRom points)
    ([ getDefaultPoints;
       [mkPoint 0 0; mkPoint 128 200; mkPoint 255 255];
       [mkPoint 0 0; mkPoint 64 10; mkPoint 128 250; mkPoint 255 255];
       [mkPoint 0 0; mkPoint 5 255; mkPoint 250 255; mkPoint 255 255];
       [mkPoint 0 0; mkPoint 100 0; mkPoint 105 255; mkPoint 255 255];
       [mkPoint 0 255; mkPoint 50 0; mkPoint 60 255; mkPoint 200 3; mkPoint 255 240] ]
     ++ monotoneTriples [5; 128; 250] [0; 1; 128; 255])
  = true.
Proof. vm_compute. reflexivity. Qed.

(** ** The point-set invariant (C3) *)

Lemma StronglySorted_app_iff {A : Type} (R : A -> A -> Prop) (l1 l2 : list A) :
  StronglySorted R (l1 ++ l2) <->
  StronglySorted R l1 /\ StronglySorted R l2 /\
  (forall p q, In p l1 -> In q l2 -> R p q).
Proof.
  induction l1 as [|a l1 IH]; cbn [app].
  - split; [intros H; repeat split; [constructor|exact H|intros ? ? []]|now intros (_ & H & _)].
  - split.
    + intros H. inversion H as [|? ? Hs Hf]; subst.
      apply IH in Hs. destruct Hs as (H1 & H2 & H12).
      rewrite Forall_app in Hf. destruct Hf as [Hf1 Hf2].
      split; [now constructor|]. split; [exact H2|].
      intros p q [<-|Hp] Hq; [|now apply H12].
      rewrite Forall_forall in Hf2. now apply Hf2.
    + intros (H1 & H2 & H12). inversion H1 as [|? ? Hs Hf]; subst.
      constructor.
      * apply IH. repeat split; auto. intros p q Hp Hq. apply H12; [now right|exact Hq].
      * rewrite Forall_app. split; [exact Hf|].
        rewrite Forall_forall. intros q Hq. apply H12; [now left|exact Hq].
Qed.

Lemma StronglySorted_weaken {A : Type} (R S : A -> A -> Prop) (l : list A) :
  (forall p q, R p q -> S p q) -> StronglySorted R l -> StronglySorted S l.
Proof.
  intros HRS. induction 1 as [|a l Hl IH Hf]; constructor; [exact IH|].
  eapply Forall_impl; [|exact Hf]. intros q. apply HRS.
Qed.

Lemma apart_ascending (l : list CurvePoint) : apart l -> ascending l.
Proof.
  apply StronglySorted_weaken. unfold apartBy, byX, MIN_POINT_DISTANCE. intros; lia.
Qed.

Lemma apart_spaced (l : list CurvePoint) : apart l -> spaced MIN_POINT_DISTANCE l.
Proof.
  induction 1 as [|a l Hl IH Hf]; [exact I|].
  destruct l as [|q r]; [exact I|].
  cbn [spaced]. split; [|exact IH].
  inversion Hf; subst. assumption.
Qed.

Lemma anchored_length (l : list CurvePoint) : anchored l -> (2 <= length l)%nat.
Proof.
  intros (_ & (y0 & rest & ->) & (front & y1 & E)).
  destruct rest as [|q rest]; [|cbn; lia].
  destruct front as [|p front]; cbn in E.
  - inversion E.
  - inversion E as [[Ep Ef]]. destruct front; discriminate.
Qed.

Lemma anchored_invariant (l : list CurvePoint) : anchored l -> pointSetInvariant l.
Proof.
  intros H. pose proof (anchored_length l H) as Hlen. destruct H as (Ha & _ & _).
  split; [now apply apart_ascending|]. split; [exact Hlen|now apply apart_spaced].
Qed.

Lemma anchored_range (l : list CurvePoint) :
  anchored l -> forall p, In p l -> 0 <= px p <= 255.
Proof.
  intros (Ha & (y0 & rest & E0) & (front & y1 & E1)) p Hp. split.
  - subst l. inversion Ha as [|? ? _ Hf]; subst.
    destruct Hp as [<-|Hp]; [cbn; lia|].
    rewrite Forall_forall in Hf. specialize (Hf p Hp).
    unfold apartBy, MIN_POINT_DISTANCE in Hf. cbn in Hf. lia.
  - rewrite E1 in Ha, Hp. apply StronglySorted_app_iff in Ha.
    destruct Ha as (_ & _ & H12). apply in_app_or in Hp.
    destruct Hp as [Hp|[<-|[]]]; [|cbn; lia].
    specialize (H12 p (mkPoint 255 y1) Hp ltac:(now left)).
    unfold apartBy, MIN_POINT_DISTANCE in H12. cbn in H12. lia.
Qed.

Lemma insertPoint_apart (a : CurvePoint) (l : list CurvePoint) :
  apart l -> (forall q, In q l -> farApart q a) -> apart (insertPoint a l).
Proof.
  unfold farApart, MIN_POINT_DISTANCE.
  induction 1 as [|q l Hl IH Hq]; intros Hfar; cbn [insertPoint].
  - repeat constructor.
  - pose proof Hq as HqF. rewrite Forall_forall in Hq.
    destruct (Z.leb_spec (px a - px q) 0) as [Hle|Hgt].
    + constructor; [constructor; [exact Hl|exact HqF]|].
      rewrite Forall_forall. intros r [<-|Hr].
      * specialize (Hfar q ltac:(now left)). unfold apartBy, MIN_POINT_DISTANCE. lia.
      * specialize (Hfar q ltac:(now left)). specialize (Hq r Hr).
        unfold apartBy, MIN_POINT_DISTANCE in *. lia.
    + constructor.
      * apply IH. intros r Hr. apply Hfar. now right.
      * rewrite Forall_forall. intros r Hr.
        apply (Permutation_in _ (insertPoint_perm a l)) in Hr.
        destruct Hr as [<-|Hr]; [|now apply Hq].
        specialize (Hfar q ltac:(now left)). unfold apartBy, MIN_POINT_DISTANCE. lia.
Qed.

Lemma sortPoints_apart (l : list CurvePoint) :
  StronglySorted farApart l -> apart (sortPoints l).
Proof.
  induction 1 as [|a l Hl IH Hf]; [constructor|].
  change (sortPoints (a :: l)) with (insertPoint a (sortPoints l)).
  apply insertPoint_apart; [exact IH|].
  rewrite Forall_forall in Hf. intros q Hq. apply (proj1 (sortPoints_In _ _)) in Hq.
  specialize (Hf q Hq). unfold farApart in *. lia.
Qed.

Lemma apart_farApart (l : list CurvePoint) : apart l -> StronglySorted farApart l.
Proof.
  apply StronglySorted_weaken. unfold apartBy, farApart, MIN_POINT_DISTANCE. intros; lia.
Qed.

(** Adding an accepted point with x in [0, 255] keeps the channel anchored. *)
Lemma anchored_add (l : list CurvePoint) (point : CurvePoint) :
  anchored l -> 0 <= px point <= 255 ->
  (forall p, In p l -> MIN_POINT_DISTANCE <= Z.abs (px p - px point)) ->
  anchored (sortPoints (l ++ [point])).
Proof.
  intros Hanch Hx Hfar.
  pose proof (anchored_range l Hanch) as Hrange.
  destruct Hanch as (Ha & (y0 & rest & E0) & (front & y1 & E1)).
  assert (Hsorted : apart (sortPoints (l ++ [point]))).
  { apply sortPoints_apart. apply StronglySorted_app_iff.
    split; [now apply apart_farApart|]. split; [repeat constructor|].
    intros p q Hp [<-|[]]. now apply Hfar. }
  assert (Hall : forall p, In p (sortPoints (l ++ [point])) -> 0 <= px p <= 255).
  { intros p Hp. apply (proj1 (sortPoints_In _ _)) in Hp. apply in_app_or in Hp.
    destruct Hp as [Hp|[<-|[]]]; [now apply Hrange|exact Hx]. }
  assert (H0 : In (mkPoint 0 y0) (sortPoints (l ++ [point])))
    by (apply sortPoints_In, in_or_app; left; rewrite E0; now left).
  assert (H255 : In (mkPoint 255 y1) (sortPoints (l ++ [point])))
    by (apply sortPoints_In, in_or_app; left; rewrite E1; apply in_or_app; right; now left).
  split; [exact Hsorted|]. split.
  - destruct (sortPoints (l ++ [point])) as [|h t]; [destruct H0|].
    exists (py h), t. f_equal.
    assert (px h = 0).
    { specialize (Hall h ltac:(now left)).
      destruct H0 as [->|H0]; [reflexivity|].
      inversion Hsorted as [|? ? _ Hf]; subst. rewrite Forall_forall in Hf.
      specialize (Hf _ H0). unfold apartBy, MIN_POINT_DISTANCE in Hf. cbn in Hf. lia. }
    destruct h; cbn in *; congruence.
  - destruct (exists_last (l:=sortPoints (l ++ [point]))) as (fr & z & Ez);
      [intros E; rewrite E in H0; destruct H0|].
    rewrite Ez in *. exists fr, (py z). f_equal. f_equal.
    assert (px z = 255).
    { specialize (Hall z ltac:(apply in_or_app; right; now left)).
      apply in_app_or in H255. destruct H255 as [H255|[->|[]]]; [|reflexivity].
      apply StronglySorted_app_iff in Hsorted. destruct Hsorted as (_ & _ & H12).
      specialize (H12 _ z H255 ltac:(now left)).
      unfold apartBy, MIN_POINT_DISTANCE in H12. cbn in H12. lia. }
    destruct z; cbn in *; congruence.
Qed.

Lemma without_split (l1 l2 : list CurvePoint) (a : CurvePoint) :
  without (Z.of_nat (length l1)) (l1 ++ a :: l2) = l1 ++ l2.
Proof.
  unfold without. rewrite Nat2Z.id.
  rewrite firstn_app, firstn_all, Nat.sub_diag, firstn_O, app_nil_r.
  rewrite skipn_app, skipn_all2 by lia.
  replace (S (length l1) - length l1)%nat with 1%nat by lia. reflexivity.
Qed.

Lemma mapIndex_unchanged (v : CurvePoint) (target from : Z) (l : list CurvePoint) :
  target < from ->
  mapIndex (fun p i => if i =? target then v else p) from l = l.
Proof.
  revert from. induction l as [|a l IH]; intros from H; [reflexivity|].
  cbn [mapIndex]. destruct (Z.eqb_spec from target); [lia|].
  f_equal. apply IH. lia.
Qed.

Lemma mapIndex_replace (v a : CurvePoint) (from : Z) (l1 l2 : list CurvePoint) :
  mapIndex (fun p i => if i =? from + Z.of_nat (length l1) then v else p) from
           (l1 ++ a :: l2) = l1 ++ v :: l2.
Proof.
  revert from. induction l1 as [|b l1 IH]; intros from.
  - cbn [app length mapIndex]. rewrite Z.add_0_r, Z.eqb_refl.
    f_equal. apply mapIndex_unchanged. lia.
  - cbn [app length mapIndex].
    destruct (Z.eqb_spec from (from + Z.of_nat (S (length l1)))); [lia|].
    f_equal. replace (from + Z.of_nat (S (length l1)))
      with (from + 1 + Z.of_nat (length l1)) by lia.
    apply IH.
Qed.

Lemma last_of_snoc (l front : list CurvePoint) (a z : CurvePoint) :
  a :: l = front ++ [z] -> l = [] /\ front = [] /\ a = z \/
                           exists l', l = l' ++ [z] /\ front = a :: l'.
Proof.
  intros E. destruct front as [|b front]; cbn in E.
  - inversion E; subst. now left.
  - inversion E; subst. right. now exists front.
Qed.

(** The anchor at 255 stays when the list is changed before its last element. *)
Lemma anchor_255_kept (l1 l1' l2 : list CurvePoint) (q : CurvePoint) :
  (exists front y1, l1 ++ q :: l2 = front ++ [mkPoint 255 y1]) ->
  exists front y1, l1' ++ q :: l2 = front ++ [mkPoint 255 y1].
Proof.
  intros (front & y1 & E).
  destruct (exists_last (l:=q :: l2)) as (m & z & Ez); [discriminate|].
  rewrite Ez in *. rewrite app_assoc in E. apply app_inj_tail in E.
  destruct E as [_ ->]. exists (l1' ++ m), y1. now rewrite app_assoc.
Qed.

(** The anchor at 0 stays when the list is changed after its first element. *)
Lemma anchor_0_kept (l1 l2 l2' : list CurvePoint) (q : CurvePoint) :
  (exists y0 rest, (l1 ++ [q]) ++ l2 = mkPoint 0 y0 :: rest) ->
  exists y0 rest, (l1 ++ [q]) ++ l2' = mkPoint 0 y0 :: rest.
Proof.
  intros (y0 & rest & E). destruct l1 as [|b l1]; cbn in *.
  - inversion E; subst. now exists y0, l2'.
  - inversion E; subst. now exists y0, ((l1 ++ [q]) ++ l2').
Qed.

(** Removing an interior point keeps the channel anchored. *)
Lemma anchored_without (l : list CurvePoint) (index : Z) :
  anchored l -> 0 < index < Z.of_nat (length l) - 1 -> anchored (without index l).
Proof.
  intros (Ha & H0 & H255) Hi.
  destruct (nth_error l (Z.to_nat index)) as [a|] eqn:En;
    [|apply nth_error_None in En; lia].
  apply nth_error_split in En. destruct En as (l1 & l2 & -> & Hlen).
  replace index with (Z.of_nat (length l1)) by lia. rewrite without_split.
  rewrite length_app in Hi. cbn [length] in Hi.
  destruct l2 as [|q l2]; [cbn [length] in Hi; lia|].
  destruct (exists_last (l:=l1)) as (l1' & p & ->);
    [intros ->; cbn in Hlen; lia|].
  split; [|split].
  - apply StronglySorted_app_iff in Ha. destruct Ha as (H1 & H2 & H12).
    apply StronglySorted_app_iff. split; [exact H1|].
    split; [now inversion H2|]. intros r s Hr Hs. apply H12; [exact Hr|now right].
  - eapply anchor_0_kept. exact H0.
  - apply (anchor_255_kept ((l1' ++ [p]) ++ [a])).
    now rewrite <- app_assoc.
Qed.

(** Moving an interior point between its neighbours keeps the channel anchored. *)
Lemma anchored_update_interior (l1 l2 : list CurvePoint) (prev cur next v : CurvePoint) :
  anchored (l1 ++ prev :: cur :: next :: l2) ->
  px prev + MIN_POINT_DISTANCE <= px v <= px next - MIN_POINT_DISTANCE ->
  anchored (l1 ++ prev :: v :: next :: l2).
Proof.
  unfold MIN_POINT_DISTANCE. intros (Ha & H0 & H255) Hv. split; [|split].
  - apply StronglySorted_app_iff in Ha. destruct Ha as (H1 & H2 & H12).
    apply StronglySorted_app_iff. split; [exact H1|].
    inversion H2 as [|? ? Hc Hfp]; subst. inversion Hc as [|? ? Hn Hfc]; subst.
    inversion Hn as [|? ? Hl2 Hfn]; subst.
    rewrite Forall_forall in Hfp, Hfc, Hfn.
    assert (Hpn : forall q, In q (next :: l2) -> px v + 5 <= px q).
    { intros q [<-|Hq]; [lia|]. specialize (Hfn q Hq).
      unfold apartBy, MIN_POINT_DISTANCE in Hfn. lia. }
    split.
    + constructor; [constructor; [exact Hn|]|].
      * rewrite Forall_forall. intros q Hq. unfold apartBy, MIN_POINT_DISTANCE.
        now apply Hpn.
      * rewrite Forall_forall. intros q [<-|Hq].
        -- unfold apartBy, MIN_POINT_DISTANCE. lia.
        -- apply Hfp. now right.
    + intros p q Hp [<-|[<-|Hq]].
      * apply H12; [exact Hp|now left].
      * specialize (H12 p prev Hp ltac:(now left)).
        unfold apartBy, MIN_POINT_DISTANCE in *. lia.
      * apply H12; [exact Hp|now right; right].
  - change (l1 ++ prev :: v :: next :: l2) with (l1 ++ [prev] ++ v :: next :: l2).
    rewrite app_assoc. eapply anchor_0_kept.
    rewrite <- app_assoc. exact H0.
  - replace (l1 ++ prev :: v :: next :: l2) with ((l1 ++ [prev; v]) ++ next :: l2)
      by now rewrite <- app_assoc.
    apply (anchor_255_kept (l1 ++ [prev; cur])).
    now rewrite <- app_assoc.
Qed.

(** Re-anchoring the first point at x = 0, or the last at x = 255, with a
    new y keeps the channel anchored. *)
Lemma anchored_update_first (y0 y : Z) (rest : list CurvePoint) :
  anchored (mkPoint 0 y0 :: rest) -> anchored (mkPoint 0 y :: rest).
Proof.
  intros H. pose proof (anchored_length _ H) as Hlen.
  destruct H as (Ha & _ & H255). split; [|split].
  - inversion Ha as [|? ? Hr Hf]; subst. constructor; [exact Hr|].
    eapply Forall_impl; [|exact Hf]. unfold apartBy. cbn. auto.
  - now exists y, rest.
  - destruct rest as [|q rest]; [cbn in Hlen; lia|].
    apply (anchor_255_kept [mkPoint 0 y0] [mkPoint 0 y]). exact H255.
Qed.

Lemma anchored_update_last (y1 y : Z) (front : list CurvePoint) :
  anchored (front ++ [mkPoint 255 y1]) -> anchored (front ++ [mkPoint 255 y]).
Proof.
  intros H. pose proof (anchored_length _ H) as Hlen.
  destruct H as (Ha & H0 & _). split; [|split].
  - apply StronglySorted_app_iff in Ha. destruct Ha as (H1 & _ & H12).
    apply StronglySorted_app_iff. split; [exact H1|]. split; [repeat constructor|].
    intros p q Hp [<-|[]]. specialize (H12 p _ Hp ltac:(now left)).
    unfold apartBy in *. cbn in *. exact H12.
  - rewrite length_app in Hlen. cbn in Hlen.
    destruct (exists_last (l:=front)) as (f' & p & ->);
      [intros ->; cbn in Hlen; lia|].
    eapply anchor_0_kept. exact H0.
  - now exists front, y.
Qed.

Lemma mapIndex_replace_at (v a : CurvePoint) (k : Z) (l1 l2 : list CurvePoint) :
  k = Z.of_nat (length l1) ->
  mapIndex (fun p i => if i =? k then v else p) 0 (l1 ++ a :: l2) = l1 ++ v :: l2.
Proof. intros ->. apply (mapIndex_replace v a 0 l1 l2). Qed.

Lemma element_Some (l : list CurvePoint) (i : Z) (p : CurvePoint) :
  element l i = Some p -> 0 <= i /\ nth_error l (Z.to_nat i) = Some p.
Proof.
  unfold element. destruct (Z.ltb_spec i 0) as [|Hi]; [discriminate|].
  intros Hn. now split.
Qed.

Lemma neighbours_split (l : list CurvePoint) (k : nat) (prev next : CurvePoint) :
  nth_error l k = Some prev -> nth_error l (k + 2) = Some next ->
  exists l1 cur l2, l = l1 ++ prev :: cur :: next :: l2 /\ length l1 = k.
Proof.
  intros Hp Hn. apply nth_error_split in Hp. destruct Hp as (l1 & r & -> & Hlen).
  rewrite nth_error_app2 in Hn by lia.
  replace (k + 2 - length l1)%nat with 2%nat in Hn by lia.
  destruct r as [|cur [|next' l2]]; try discriminate.
  cbn in Hn. inversion Hn; subst. now exists l1, cur, l2.
Qed.

Section InvariantPreserved.
Context {N : Type} {num : JSNumber N}.

Lemma sessionAnchored_updatePoints (s : Session) (channel : Channel)
    (l : list CurvePoint) :
  sessionAnchored s -> anchored l ->
  sessionAnchored (updatePoints (N:=N) s (setChannel (points s) channel l)).
Proof.
  intros [Hc Hall] Hl. split; [exact Hc|].
  intros other. rewrite points_updatePoints by exact Hc.
  destruct (Channel_eq_dec other channel) as [->|Hne].
  - now rewrite getChannel_setChannel_same.
  - rewrite getChannel_setChannel_other by exact Hne. apply Hall.
Qed.

Lemma addPoint_anchored (channel : Channel) (point : CurvePoint) (s : Session) :
  sessionAnchored s -> 0 <= px point <= 255 ->
  sessionAnchored (addPoint (N:=N) channel point s).
Proof.
  intros Hs Hx. unfold addPoint.
  destruct (tooClose (sortPoints (getChannel (points s) channel)) point) eqn:Ht;
    [exact Hs|].
  apply sessionAnchored_updatePoints; [exact Hs|].
  apply anchored_add; [apply Hs|exact Hx|].
  intros p Hp. apply (proj1 (tooClose_false _ _) Ht). now apply sortPoints_In.
Qed.

Lemma removePoint_anchored (channel : Channel) (index : Z) (s : Session) :
  sessionAnchored s -> sessionAnchored (removePoint (N:=N) channel index s).
Proof.
  intros Hs. unfold removePoint.
  set (l := getChannel (points s) channel).
  assert (Hl : anchored l) by apply Hs.
  destruct (Nat.leb_spec (length l) 2) as [_|Hlen]; [exact Hs|].
  rewrite (sortPoints_of_ascending l) by (apply apart_ascending, Hl).
  destruct (Z.eqb_spec index 0) as [_|H0]; [exact Hs|].
  destruct (Z.eqb_spec index (Z.of_nat (length l) - 1)) as [_|Hlast]; [exact Hs|].
  cbn [orb]. apply sessionAnchored_updatePoints; [exact Hs|].
  destruct (Z.lt_ge_cases index 0) as [Hneg|Hpos];
    [rewrite filterIndex_keep_all by lia; exact Hl|].
  destruct (Z.lt_ge_cases index (Z.of_nat (length l))) as [Hin|Hout];
    [|rewrite filterIndex_keep_all by lia; exact Hl].
  rewrite filterIndex_drop by lia. rewrite Z.sub_0_r.
  apply anchored_without; [exact Hl|lia].
Qed.

Lemma updatePoint_anchored (channel : Channel) (index : Z) (newPoint : CurvePoint)
    (s : Session) :
  sessionAnchored s ->
  match updatePoint (N:=N) channel index newPoint s with
  | Normal s' => sessionAnchored s'
  | TypeError => True
  end.
Proof.
  intros Hs. unfold updatePoint.
  set (l := getChannel (points s) channel).
  assert (Hl : anchored l) by apply Hs.
  pose proof (anchored_length l Hl) as Hlen.
  rewrite (sortPoints_of_ascending l) by (apply apart_ascending, Hl).
  set (y := clamp (py newPoint) 0 255).
  destruct (Z.eqb_spec index 0) as [->|H0].
  - (* the first point *)
    cbn [bindC]. apply sessionAnchored_updatePoints; [exact Hs|].
    destruct Hl as (Ha & (y0 & rest & E) & H255). rewrite E in *.
    pose proof (mapIndex_replace_at (mkPoint 0 y) (mkPoint 0 y0) 0 [] rest eq_refl) as Hm.
    cbn [app] in Hm. rewrite Hm.
    apply (anchored_update_first y0). repeat split; eauto.
  - destruct (Z.eqb_spec index (Z.of_nat (length l) - 1)) as [Hlast|Hnl].
    + (* the last point *)
      cbn [bindC]. apply sessionAnchored_updatePoints; [exact Hs|].
      destruct Hl as (Ha & H0' & (front & y1 & E)). rewrite E in *.
      rewrite length_app in Hlast. cbn [length] in Hlast.
      rewrite (mapIndex_replace_at _ _ index front []) by lia.
      apply (anchored_update_last y1). repeat split; eauto.
    + (* a point between two others, or no point at all *)
      destruct (element l (index - 1)) as [prev|] eqn:Ep; [|exact I].
      destruct (element l (index + 1)) as [next|] eqn:En; [|exact I].
      cbn [dotX bindC].
      apply element_Some in Ep, En. destruct Ep as [Hi1 Ep]. destruct En as [_ En].
      replace (Z.to_nat (index + 1)) with (Z.to_nat (index - 1) + 2)%nat in En by lia.
      destruct (neighbours_split l _ prev next Ep En) as (l1 & cur & l2 & E & Hl1).
      apply sessionAnchored_updatePoints; [exact Hs|].
      rewrite E in *.
      replace (l1 ++ prev :: cur :: next :: l2)
        with ((l1 ++ [prev]) ++ cur :: next :: l2) by now rewrite <- app_assoc.
      rewrite mapIndex_replace_at by (rewrite length_app; cbn [length]; lia).
      rewrite <- app_assoc. cbn [app].
      apply (anchored_update_interior l1 l2 prev cur next); [exact Hl|].
      cbn [px].
      destruct Hl as (Ha & _ & _). apply StronglySorted_app_iff in Ha.
      destruct Ha as (_ & Ha & _).
      inversion Ha as [|? ? Hc Hfp]; subst. inversion Hc as [|? ? _ Hfc]; subst.
      inversion Hfp as [|? ? Hpc _]; subst. inversion Hfc as [|? ? Hcn _]; subst.
      unfold apartBy, MIN_POINT_DISTANCE in *. unfold clamp. lia.
Qed.

Lemma perform_anchored (s : Session) (c : Call) :
  sessionAnchored s -> callInRange c -> sessionAnchored (perform (N:=N) s c).
Proof.
  intros Hs Hc. destruct c as [channel point|channel index|channel index newPoint];
    cbn [perform].
  - now apply addPoint_anchored.
  - now apply removePoint_anchored.
  - pose proof (updatePoint_anchored channel index newPoint s Hs) as H.
    destruct (updatePoint channel index newPoint s); [exact H|exact Hs].
Qed.

Lemma default_sessionAnchored (i : Interpolation) (l : bool) :
  sessionAnchored (useCurvePoints None None i l).
Proof.
  split; [reflexivity|]. intros channel.
  assert (H : anchored getDefaultPoints).
  { split; [|split].
    - repeat constructor. unfold apartBy, MIN_POINT_DISTANCE. cbn. lia.
    - now exists 0, [mkPoint 255 255].
    - now exists [mkPoint 0 0], 255. }
  destruct channel; exact H.
Qed.

(** From the default session, every sequence of [addPoint], [removePoint]
    and [updatePoint] calls whose added points have x in [0, 255] leaves
    every channel sorted by ascending x, with at least two points, adjacent
    points at least MIN_POINT_DISTANCE apart. *)
Lemma invariant_preserved_in_range (i : Interpolation) (l : bool) (calls : list Call) :
  Forall callInRange calls ->
  forall channel,
    pointSetInvariant
      (getChannel (points (performAll (N:=N) (useCurvePoints None None i l) calls))
                  channel).
Proof.
  intros Hcalls channel. apply anchored_invariant.
  assert (H : sessionAnchored (performAll (N:=N) (useCurvePoints None None i l) calls)).
  { unfold performAll. generalize (default_sessionAnchored i l).
    generalize (useCurvePoints None None i l).
    induction Hcalls as [|c calls Hc _ IH]; intros s Hs; [exact Hs|].
    cbn [fold_left]. apply IH. now apply perform_anchored. }
  apply H.
Qed.

End InvariantPreserved.

(** The same in exact arithmetic: on the default diagonal the Catmull-Rom
    cubic at x = 2 is 68145112/66585375, which rounds to 1. *)
Lemma catmullRom_default_exact_at_2 :
  catmullRomInterpolation (N:=R) getDefaultPoints (IZR 2) = IZR 1.
Proof.
  unfold catmullRomInterpolation, catmullRomOn.
  change (sortPoints getDefaultPoints) with [mkPoint 0 0; mkPoint 255 255].
  cbn [length Nat.eqb at_ nth Nat.sub].
  change (nle ?a ?b) with (Exact.leb a b).
  rewrite (proj2 (leb_false (IZR 2) (X (mkPoint 0 0)))) by (unfold X; cbn; lra).
  rewrite (proj2 (leb_false (X (mkPoint 255 255)) (IZR 2))) by (unfold X; cbn; lra).
  change (findSegment [mkPoint 0 0; mkPoint 255 255] (IZR 2) 0)
    with (if Exact.ltb (X (mkPoint 255 255)) (IZR 2) then 1%nat else 0%nat).
  rewrite (proj2 (ltb_false (X (mkPoint 255 255)) (IZR 2))) by (unfold X; cbn; lra).
  unfold catmullRomSegment.
  cbn [Nat.max Nat.min Nat.sub Nat.add at_ nth length].
  unfold X, Y. cbn [px py].
  change (nequal ?a ?b) with (Exact.eqb a b).
  cbn [nadd nsub nmul ndiv nneg half ofZ Exact.exact].
  rewrite eqb_false by lra.
  rewrite nclamp_exact. change (nround ?e) with (Exact.round e).
  match goal with
  | |- context [Exact.round ?e] => assert (Hr : Exact.round e = 1%R)
  end.
  { unfold Exact.round. f_equal. apply floor_unique. split; lra. }
  rewrite Hr. rewrite Rmax_left by lra. rewrite Rmin_left by lra. reflexivity.
Qed.

(** ** The invariant on points in range *)

(** X1.  From the default session, every sequence of [addPoint],
    [removePoint] and [updatePoint] calls whose added points have x in
    [0, 255] leaves every channel sorted by ascending x, with at least two
    points, adjacent points at least MIN_POINT_DISTANCE apart; the y of the
    added points and the arguments of the other calls are free. *)
Theorem point_set_invariant_in_range :
  forall (N : Type) (num : JSNumber N) (i : Interpolation) (l : bool)
         (calls : list Call) (channel : Channel),
    Forall callInRange calls ->
    pointSetInvariant
      (getChannel (points (performAll (N:=N) (useCurvePoints None None i l) calls))
                  channel).
Proof.
  intros N num i l calls channel Hcalls. now apply invariant_preserved_in_range.
Qed.

Lemma point_set_invariant_in_range_witness :
  let calls := [ AddPoint red (mkPoint 128 200);
                 UpdatePoint red 1 (mkPoint 300 (-7));
                 AddPoint red (mkPoint 5 999);
                 UpdatePoint red 0 (mkPoint 77 12);
                 UpdatePoint red 9 (mkPoint 1 1);
                 RemovePoint red 1;
                 RemovePoint red 0;
                 AddPoint blue (mkPoint 250 0) ] in
  Forall callInRange calls /\
  getChannel (points (performAll (N:=float)
                        (useCurvePoints None None monotone true) calls)) red =
    [mkPoint 0 12; mkPoint 250 0; mkPoint 255 255] /\
  pointSetInvariant
    (getChannel (points (performAll (N:=float)
                           (useCurvePoints None None monotone true) calls)) red).
Proof.
  intros calls.
  assert (H : Forall callInRange calls) by (repeat constructor; cbn; lia).
  split; [exact H|]. split; [vm_compute; reflexivity|].
  apply (point_set_invariant_in_range float _ monotone true calls red H).
Defined.

(** ** What [updatePoint] clamps *)

Lemma mapIndex_at (v : CurvePoint) (k from : Z) (l : list CurvePoint) :
  from <= k < from + Z.of_nat (length l) ->
  nth_error (mapIndex (fun p i => if i =? k then v else p) from l)
            (Z.to_nat (k - from)) = Some v.
Proof.
  revert from. induction l as [|a l IH]; intros from H; cbn [length] in H; [lia|].
  cbn [mapIndex]. destruct (Z.eqb_spec from k) as [->|Hne].
  - now rewrite Z.sub_diag.
  - replace (Z.to_nat (k - from)) with (S (Z.to_nat (k - (from + 1)))) by lia.
    cbn [nth_error]. apply IH. lia.
Qed.

Lemma mapIndex_length (f : CurvePoint -> Z -> CurvePoint) (from : Z)
    (l : list CurvePoint) :
  length (mapIndex f from l) = length l.
Proof.
  revert from. induction l as [|a l IH]; intros from; [reflexivity|].
  cbn [mapIndex length]. now rewrite IH.
Qed.

(** X2.  Whenever [updatePoint(channel, index, newPoint)] completes on a
    session that stores its own points, with [index] addressing a point of
    the channel, the channel keeps its length and the point stored at
    [index] has its y clamped into [0, 255]: y = clamp(newPoint.y, 0, 255). *)
Theorem updatePoint_clamps_y :
  forall (N : Type) (num : JSNumber N) (s s' : Session) (channel : Channel)
         (index : Z) (newPoint : CurvePoint),
    controlledPoints s = None ->
    0 <= index < Z.of_nat (length (getChannel (points s) channel)) ->
    updatePoint (N:=N) channel index newPoint s = Normal s' ->
    length (getChannel (points s') channel) =
      length (getChannel (points s) channel) /\
    exists p, element (getChannel (points s') channel) index = Some p /\
              py p = clamp (py newPoint) 0 255 /\ 0 <= py p <= 255.
Proof.
  intros N num s s' channel index newPoint Hc Hi Hu.
  unfold updatePoint in Hu.
  set (l := sortPoints (getChannel (points s) channel)) in *.
  assert (Hlen : length l = length (getChannel (points s) channel))
    by apply sortPoints_length.
  match type of Hu with
  | bindC ?c _ = _ => destruct c as [x|] eqn:Ex; [|discriminate]
  end.
  cbn [bindC] in Hu. inversion Hu as [Hs']. clear Hu.
  rewrite points_updatePoints by exact Hc.
  rewrite getChannel_setChannel_same.
  split; [now rewrite mapIndex_length|].
  exists (mkPoint x (clamp (py newPoint) 0 255)). split; [|split].
  - unfold element. destruct (Z.ltb_spec index 0); [lia|].
    replace (Z.to_nat index) with (Z.to_nat (index - 0)) by lia.
    apply mapIndex_at. lia.
  - reflexivity.
  - cbn [py]. apply clamp_range. lia.
Qed.

Lemma updatePoint_clamps_y_witness :
  let s0 : Session := useCurvePoints None None monotone true in
  let s1 := updatePoints (N:=float) s0
              (setChannel (points s0) red [mkPoint 0 255; mkPoint 255 255]) in
  controlledPoints s0 = None /\
  0 <= 0 < Z.of_nat (length (getChannel (points s0) red)) /\
  updatePoint (N:=float) red 0 (mkPoint 40 300) s0 = Normal s1 /\
  exists p, element (getChannel (points s1) red) 0 = Some p /\
            py p = clamp 300 0 255 /\ 0 <= py p <= 255.
Proof.
  intros s0 s1.
  assert (Hu : updatePoint (N:=float) red 0 (mkPoint 40 300) s0 = Normal s1).
  { unfold updatePoint. cbn [bindC Z.eqb]. reflexivity. }
  destruct (updatePoint_clamps_y float _ s0 s1 red 0 (mkPoint 40 300) eq_refl
              ltac:(cbn; lia) Hu) as [_ Hp].
  split; [reflexivity|]. split; [cbn; lia|]. split; [exact Hu|exact Hp].
Defined.

(** ** Generated tables *)

Lemma to_uint8_binary64_byte (f : float) : 0 <= Binary64.to_uint8 f <= 255.
Proof.
  unfold Binary64.to_uint8.
  destruct (Prim2SF f) as [| | |s m e]; try lia.
  match goal with |- 0 <= ?a mod 256 <= 255 =>
    pose proof (Z.mod_pos_bound a 256 ltac:(lia)) end.
  lia.
Qed.

Lemma to_uint8_exact_byte (r : R) : 0 <= Exact.to_uint8 r <= 255.
Proof.
  unfold Exact.to_uint8.
  match goal with |- 0 <= ?a mod 256 <= 255 =>
    pose proof (Z.mod_pos_bound a 256 ltac:(lia)) end.
  lia.
Qed.

Section GeneratedTables.
Context {N : Type} {num : JSNumber N}.
Hypothesis toUint8_byte : forall v : N, 0 <= toUint8 v <= 255.

Lemma generateChannelLUT_wellFormed (points : list CurvePoint) (i : Interpolation) :
  wellFormedLUT (generateChannelLUT (N:=N) points i).
Proof. unfold generateChannelLUT. apply wellFormedLUT_map. intros k _. apply toUint8_byte. Qed.

Lemma generateLUT_wellFormed (channelPoints : ChannelPoints) (i : Interpolation) :
  wellFormedLUTData (generateLUT (N:=N) channelPoints i).
Proof.
  unfold wellFormedLUTData, generateLUT. cbn [lut_master lut_red lut_green lut_blue].
  repeat apply conj; apply generateChannelLUT_wellFormed.
Qed.

Lemma applyLUT_wellFormed (table : LUTData) (r g b : Z) :
  wellFormedLUTData table ->
  exists r' g' b',
    applyLUT r g b table = (Some r', Some g', Some b') /\
    0 <= r' <= 255 /\ 0 <= g' <= 255 /\ 0 <= b' <= 255.
Proof.
  intros (Hm & Hr & Hg & Hb). unfold applyLUT.
  destruct (cell_wellFormed _ (clamp r 0 255) Hr) as [-> Hr'];
    [apply clamp_range; lia|].
  destruct (cell_wellFormed _ (clamp g 0 255) Hg) as [-> Hg'];
    [apply clamp_range; lia|].
  destruct (cell_wellFormed _ (clamp b 0 255) Hb) as [-> Hb'];
    [apply clamp_range; lia|].
  cbn [cellOf].
  destruct (cell_wellFormed _ _ Hm Hr') as [-> Hr''].
  destruct (cell_wellFormed _ _ Hm Hg') as [-> Hg''].
  destruct (cell_wellFormed _ _ Hm Hb') as [-> Hb''].
  eexists _, _, _. split; [reflexivity|]. auto.
Qed.

End GeneratedTables.

(** X3.  Whatever the point sets are (empty, unsorted, out of range) and
    whichever interpolation is chosen, [generateLUT] returns four tables of
    256 bytes, so [applyLUT] on a generated LUT returns three bytes, none
    of them [undefined], for any integers r, g and b.  This holds for the
    engine in binary64 and for its exact reading. *)
Theorem generated_LUT_applies :
  forall (channelPoints : ChannelPoints) (i : Interpolation) (r g b : Z),
    (wellFormedLUTData (generateLUT (N:=float) channelPoints i) /\
     exists r' g' b',
       applyLUT r g b (generateLUT (N:=float) channelPoints i) =
         (Some r', Some g', Some b') /\
       0 <= r' <= 255 /\ 0 <= g' <= 255 /\ 0 <= b' <= 255) /\
    (wellFormedLUTData (generateLUT (N:=R) channelPoints i) /\
     exists r' g' b',
       applyLUT r g b (generateLUT (N:=R) channelPoints i) =
         (Some r', Some g', Some b') /\
       0 <= r' <= 255 /\ 0 <= g' <= 255 /\ 0 <= b' <= 255).
Proof.
  intros channelPoints i r g b. split.
  - pose proof (generateLUT_wellFormed (num:=binary64) to_uint8_binary64_byte
                  channelPoints i) as H.
    split; [exact H|]. now apply applyLUT_wellFormed.
  - pose proof (generateLUT_wellFormed (num:=exact) to_uint8_exact_byte
                  channelPoints i) as H.
    split; [exact H|]. now apply applyLUT_wellFormed.
Qed.

(** ** The identity LUT *)

Lemma default_table_binary64 :
  generateChannelLUT (N:=float) getDefaultPoints monotone = identityTable.
Proof. vm_compute. reflexivity. Qed.

Lemma identityTable_cell (i : Z) : 0 <= i <= 255 -> cell identityTable i = Some i.
Proof.
  intros Hi. unfold cell, identityTable.
  destruct (Z.ltb_spec i 0); [lia|].
  rewrite nth_error_map, nth_error_seq.
  destruct (Nat.ltb_spec (Z.to_nat i) 256); [|lia].
  cbn. f_equal. lia.
Qed.

Lemma applyLUT_identity (r g b : Z) :
  applyLUT r g b (mkLUT identityTable identityTable identityTable identityTable) =
    (Some (clamp r 0 255), Some (clamp g 0 255), Some (clamp b 0 255)).
Proof.
  unfold applyLUT. cbn [lut_master lut_red lut_green lut_blue].
  assert (H : forall v, cellOf identityTable (cell identityTable (clamp v 0 255)) =
                        Some (clamp v 0 255)).
  { intros v. pose proof (clamp_range v 0 255 ltac:(lia)) as Hv.
    rewrite (identityTable_cell _ Hv). cbn [cellOf]. now apply identityTable_cell. }
  now rewrite !H.
Qed.

(** X4.  A session that stores its own points and interpolates with the
    monotone cubic has, after [resetAll] (whatever was edited before), the
    default points in every channel, and its LUT (binary64) leaves every
    pixel as it is: [applyLUT] returns r, g and b clamped to [0, 255]. *)
Theorem resetAll_restores_identity :
  forall (s : Session) (r g b : Z),
    controlledPoints s = None ->
    interpolation s = monotone ->
    points (resetAll (N:=float) s) = getDefaultChannelPoints /\
    applyLUT r g b (lut (N:=float) (resetAll (N:=float) s)) =
      (Some (clamp r 0 255), Some (clamp g 0 255), Some (clamp b 0 255)).
Proof.
  intros s r g b Hc Hi.
  assert (Hp : points (resetAll (N:=float) s) = getDefaultChannelPoints).
  { unfold resetAll. now apply points_updatePoints. }
  split; [exact Hp|].
  unfold lut. rewrite Hp.
  replace (interpolation (resetAll (N:=float) s)) with monotone
    by (rewrite <- Hi; reflexivity).
  unfold generateLUT, getDefaultChannelPoints.
  cbn [cp_master cp_red cp_green cp_blue].
  rewrite default_table_binary64. apply applyLUT_identity.
Qed.

Lemma resetAll_restores_identity_witness :
  let s := addPoint (N:=float) red (mkPoint 128 200)
             (useCurvePoints None None monotone true) in
  controlledPoints s = None /\ interpolation s = monotone /\
  points (resetAll (N:=float) s) = getDefaultChannelPoints /\
  applyLUT 300 7 (-4) (lut (N:=float) (resetAll (N:=float) s)) =
    (Some 255, Some 7, Some 0).
Proof.
  intros s.
  split; [reflexivity|]. split; [reflexivity|].
  exact (resetAll_restores_identity s 300 7 (-4) eq_refl eq_refl).
Defined.

(** ** The session: every action *)

Lemma filterIndex_In (keep : Z -> bool) (from : Z) (a : list CurvePoint)
    (p : CurvePoint) :
  In p (filterIndex keep from a) -> In p a.
Proof.
  revert from. induction a as [|q a IH]; intros from H; [exact H|].
  cbn [filterIndex] in H. destruct (keep from).
  - destruct H as [<-|H]; [now left|right; eauto].
  - right; eauto.
Qed.

Lemma mapIndex_In (f : CurvePoint -> Z -> CurvePoint) (from : Z)
    (a : list CurvePoint) (q : CurvePoint) :
  In q (mapIndex f from a) -> exists p i, In p a /\ q = f p i.
Proof.
  revert from. induction a as [|p a IH]; intros from H; [destruct H|].
  cbn [mapIndex] in H. destruct H as [<-|H].
  - exists p, from. split; [now left|reflexivity].
  - destruct (IH _ H) as (p' & i & Hp & E). exists p', i. split; [now right|exact E].
Qed.

Lemma bytesY_sortPoints (l : list CurvePoint) : bytesY l -> bytesY (sortPoints l).
Proof.
  unfold bytesY. rewrite !Forall_forall. intros H p Hp.
  apply H. now apply sortPoints_In.
Qed.

Lemma anchored_bytesY_inRange (l : list CurvePoint) :
  anchored l -> bytesY l -> inRange l.
Proof.
  intros Ha Hy. unfold inRange, bytesY in *. rewrite Forall_forall in *.
  intros p Hp. split; [now apply (anchored_range l Ha)|now apply Hy].
Qed.

Lemma default_anchored : anchored getDefaultPoints.
Proof.
  split; [|split].
  - repeat constructor. unfold apartBy, MIN_POINT_DISTANCE. cbn. lia.
  - now exists 0, [mkPoint 255 255].
  - now exists [mkPoint 0 0], 255.
Qed.

Lemma default_bytesY : bytesY getDefaultPoints.
Proof. repeat constructor; cbn; lia. Qed.

Lemma getChannel_default (channel : Channel) :
  getChannel getDefaultChannelPoints channel = getDefaultPoints.
Proof. now destruct channel. Qed.

Section Actions.
Context {N : Type} {num : JSNumber N}.

(** What a completed [updatePoint] has stored. *)
Lemma updatePoint_completed (channel : Channel) (index : Z) (newPoint : CurvePoint)
    (s s' : Session) :
  updatePoint (N:=N) channel index newPoint s = Normal s' ->
  exists x,
    s' = updatePoints (N:=N) s
           (setChannel (points s) channel
              (mapIndex (fun p i => if i =? index
                                    then mkPoint x (clamp (py newPoint) 0 255)
                                    else p)
                        0 (sortPoints (getChannel (points s) channel)))).
Proof.
  unfold updatePoint. intros Hu.
  match type of Hu with
  | bindC ?c _ = _ => destruct c as [x|] eqn:Ex; [|discriminate]
  end.
  cbn [bindC] in Hu. exists x. now inversion Hu.
Qed.

Lemma bytesY_updatePoints (s : Session) (channel : Channel) (l : list CurvePoint) :
  controlledPoints s = None ->
  (forall other, bytesY (getChannel (points s) other)) -> bytesY l ->
  forall other,
    bytesY (getChannel (points (updatePoints (N:=N) s
                                  (setChannel (points s) channel l))) other).
Proof.
  intros Hc Hall Hl other. rewrite points_updatePoints by exact Hc.
  destruct (Channel_eq_dec other channel) as [->|Hne].
  - now rewrite getChannel_setChannel_same.
  - rewrite getChannel_setChannel_other by exact Hne. apply Hall.
Qed.

Lemma perform_bytesY (s : Session) (c : Call) :
  controlledPoints s = None ->
  (forall channel, bytesY (getChannel (points s) channel)) ->
  actionInRange (Edit c) ->
  forall channel, bytesY (getChannel (points (perform (N:=N) s c)) channel).
Proof.
  intros Hc Hall Hin.
  destruct c as [channel point|channel index|channel index newPoint]; cbn [perform].
  - unfold addPoint.
    destruct (tooClose (sortPoints (getChannel (points s) channel)) point);
      [exact Hall|].
    apply bytesY_updatePoints; [exact Hc|exact Hall|].
    apply bytesY_sortPoints. apply Forall_app. split; [apply Hall|].
    cbn in Hin. inversion Hin as [|? ? [_ Hy] _]; subst. now repeat constructor.
  - unfold removePoint.
    destruct (length (getChannel (points s) channel) <=? 2)%nat; [exact Hall|].
    destruct ((index =? 0) ||
              (index =? Z.of_nat (length (sortPoints (getChannel (points s) channel))) - 1));
      [exact Hall|].
    apply bytesY_updatePoints; [exact Hc|exact Hall|].
    unfold bytesY. rewrite Forall_forall. intros p Hp.
    apply filterIndex_In in Hp. apply (proj1 (sortPoints_In _ _)) in Hp.
    specialize (Hall channel). unfold bytesY in Hall.
    rewrite Forall_forall in Hall. now apply Hall.
  - destruct (updatePoint channel index newPoint s) as [s'|] eqn:Hu; [|exact Hall].
    destruct (updatePoint_completed _ _ _ _ _ Hu) as (x & ->).
    apply bytesY_updatePoints; [exact Hc|exact Hall|].
    unfold bytesY. rewrite Forall_forall. intros q Hq.
    apply mapIndex_In in Hq. destruct Hq as (p & i & Hp & ->).
    destruct (i =? index).
    + cbn [py]. apply clamp_range. lia.
    + apply (proj1 (sortPoints_In _ _)) in Hp. specialize (Hall channel). unfold bytesY in Hall.
      rewrite Forall_forall in Hall. now apply Hall.
Qed.

Lemma act_sessionInRange (s : Session) (a : Action) :
  sessionInRange s -> actionInRange a -> sessionInRange (act (N:=N) s a).
Proof.
  intros [Hs Hy] Ha. pose proof (proj1 Hs) as Hc.
  destruct a as [c|channel| |channel l|newPoints]; cbn [act].
  - split.
    + apply perform_anchored; [exact Hs|].
      destruct c as [channel point| |]; cbn; [|exact I|exact I].
      cbn in Ha. inversion Ha as [|? ? [Hx _] _]; subst. exact Hx.
    + now apply perform_bytesY.
  - unfold resetChannel. rewrite getChannel_default. split.
    + apply sessionAnchored_updatePoints; [exact Hs|apply default_anchored].
    + apply bytesY_updatePoints; [exact Hc|exact Hy|apply default_bytesY].
  - unfold resetAll. split.
    + split; [exact Hc|]. intros channel. rewrite points_updatePoints by exact Hc.
      rewrite getChannel_default. apply default_anchored.
    + intros channel. rewrite points_updatePoints by exact Hc.
      rewrite getChannel_default. apply default_bytesY.
  - destruct Ha as [Hanch Hbytes]. unfold setChannelPoints. split.
    + now apply sessionAnchored_updatePoints.
    + apply bytesY_updatePoints; [exact Hc|exact Hy|now apply bytesY_sortPoints].
  - cbn in Ha. unfold setAllPoints. split.
    + split; [exact Hc|]. intros channel. rewrite points_updatePoints by exact Hc.
      destruct channel; cbn [getChannel cp_master cp_red cp_green cp_blue].
      * apply (Ha master).
      * apply (Ha red).
      * apply (Ha green).
      * apply (Ha blue).
    + intros channel. rewrite points_updatePoints by exact Hc.
      destruct channel; cbn [getChannel cp_master cp_red cp_green cp_blue];
        apply bytesY_sortPoints.
      * apply (Ha master).
      * apply (Ha red).
      * apply (Ha green).
      * apply (Ha blue).
Qed.

Lemma default_sessionInRange (i : Interpolation) (l : bool) :
  sessionInRange (useCurvePoints None None i l).
Proof.
  split; [apply default_sessionAnchored|].
  intros channel. destruct channel; apply default_bytesY.
Qed.

Lemma actAll_sessionInRange (s : Session) (actions : list Action) :
  sessionInRange s -> Forall actionInRange actions ->
  sessionInRange (actAll (N:=N) s actions).
Proof.
  intros Hs Ha. revert s Hs. unfold actAll.
  induction Ha as [|a actions Ha _ IH]; intros s Hs; [exact Hs|].
  cbn [fold_left]. apply IH. now apply act_sessionInRange.
Qed.

End Actions.

(** X5.  From the default session, every sequence of actions (edits,
    resets, imports) that hands over only in-range coordinates (added points
    with x and y in [0, 255], imported sets that are anchored and hold bytes
    for y; indices and the points of [updatePoint] are free) leaves every
    channel with: the point-set invariant, every coordinate in [0, 255], its
    first point at x = 0 and its last point at x = 255. *)
Theorem session_stays_in_range :
  forall (N : Type) (num : JSNumber N) (i : Interpolation) (l : bool)
         (actions : list Action) (channel : Channel),
    Forall actionInRange actions ->
    let stored :=
      getChannel (points (actAll (N:=N) (useCurvePoints None None i l) actions))
                 channel in
    pointSetInvariant stored /\ inRange stored /\
    (exists y0 rest, stored = mkPoint 0 y0 :: rest) /\
    (exists front y1, stored = front ++ [mkPoint 255 y1]).
Proof.
  intros N num i l actions channel Ha stored.
  destruct (actAll_sessionInRange (N:=N) _ actions (default_sessionInRange i l) Ha)
    as [[_ Hanch] Hy].
  specialize (Hanch channel). specialize (Hy channel). fold stored in Hanch, Hy.
  split; [now apply anchored_invariant|].
  split; [now apply anchored_bytesY_inRange|].
  destruct Hanch as (_ & H0 & H255). now split.
Qed.

Lemma session_stays_in_range_witness :
  let actions := [ Edit (AddPoint red (mkPoint 128 200));
                   Edit (UpdatePoint red 1 (mkPoint 300 (-7)));
                   SetChannelPoints blue [mkPoint 255 9; mkPoint 60 60; mkPoint 0 0];
                   ResetChannel green;
                   Edit (UpdatePoint blue 1 (mkPoint 2 999));
                   Edit (RemovePoint red 7) ] in
  Forall actionInRange actions /\
  getChannel (points (actAll (N:=float) (useCurvePoints None None monotone true)
                        actions)) blue =
    [mkPoint 0 0; mkPoint 5 255; mkPoint 255 9] /\
  inRange (getChannel (points (actAll (N:=float)
                                 (useCurvePoints None None monotone true) actions))
                      blue).
Proof.
  intros actions.
  assert (H : Forall actionInRange actions).
  { repeat constructor; cbn; try lia.
    - unfold apartBy, MIN_POINT_DISTANCE; cbn; lia.
    - unfold apartBy, MIN_POINT_DISTANCE; cbn; lia.
    - unfold apartBy, MIN_POINT_DISTANCE; cbn; lia.
    - now exists 0, [mkPoint 60 60; mkPoint 255 9].
    - now exists [mkPoint 0 0; mkPoint 60 60], 9. }
  split; [exact H|]. split; [vm_compute; reflexivity|].
  apply (session_stays_in_range float _ monotone true actions blue H).
Defined.

(** ** The session: the shape of an action *)

Lemma mapIndex_nth_error (f : CurvePoint -> Z -> CurvePoint) (from : Z)
    (l : list CurvePoint) (j : nat) :
  nth_error (mapIndex f from l) j =
    option_map (fun p => f p (from + Z.of_nat j)) (nth_error l j).
Proof.
  revert from j. induction l as [|a l IH]; intros from j.
  - now destruct j.
  - destruct j as [|j]; cbn [mapIndex nth_error option_map].
    + now rewrite Z.add_0_r.
    + rewrite IH. destruct (nth_error l j); [|reflexivity].
      cbn [option_map]. do 2 f_equal. lia.
Qed.

Lemma element_mapIndex (f : CurvePoint -> Z -> CurvePoint) (l : list CurvePoint)
    (j : Z) :
  element (mapIndex f 0 l) j = option_map (fun p => f p j) (element l j).
Proof.
  unfold element. destruct (Z.ltb_spec j 0); [reflexivity|].
  rewrite mapIndex_nth_error. destruct (nth_error l (Z.to_nat j)); [|reflexivity].
  cbn [option_map]. do 2 f_equal. lia.
Qed.

Lemma element_in_range (l : list CurvePoint) (j : Z) :
  0 <= j < Z.of_nat (length l) -> exists p, element l j = Some p.
Proof.
  intros Hj. unfold element. destruct (Z.ltb_spec j 0); [lia|].
  destruct (nth_error l (Z.to_nat j)) as [p|] eqn:E; [now exists p|].
  apply nth_error_None in E. lia.
Qed.

Lemma element_out_of_range (l : list CurvePoint) (j : Z) :
  j < 0 \/ Z.of_nat (length l) <= j -> element l j = None.
Proof.
  intros Hj. unfold element. destruct (Z.ltb_spec j 0); [reflexivity|].
  apply nth_error_None. lia.
Qed.

Section ActionShape.
Context {N : Type} {num : JSNumber N}.

(** Every action either leaves the session as it is or is one call of
    [updatePoints]; an action on one channel replaces that channel only. *)
Lemma act_shape (s : Session) (a : Action) :
  act (N:=N) s a = s \/
  exists newPoints,
    act (N:=N) s a = updatePoints (N:=N) s newPoints /\
    forall channel, channelOf a = Some channel ->
      exists l, newPoints = setChannel (points s) channel l.
Proof.
  destruct a as [[channel point|channel index|channel index newPoint]
                |channel| |channel l|newPoints]; cbn [act perform channelOf].
  - unfold addPoint.
    destruct (tooClose (sortPoints (getChannel (points s) channel)) point);
      [now left|right].
    eexists. split; [reflexivity|]. intros c [= <-]. now eexists.
  - unfold removePoint.
    destruct (length (getChannel (points s) channel) <=? 2)%nat; [now left|].
    destruct ((index =? 0) ||
              (index =? Z.of_nat (length (sortPoints (getChannel (points s) channel))) - 1));
      [now left|right].
    eexists. split; [reflexivity|]. intros c [= <-]. now eexists.
  - destruct (updatePoint channel index newPoint s) as [s'|] eqn:Hu; [right|now left].
    destruct (updatePoint_completed _ _ _ _ _ Hu) as (x & ->).
    eexists. split; [reflexivity|]. intros c [= <-]. now eexists.
  - right. eexists. split; [reflexivity|]. intros c [= <-]. now eexists.
  - right. eexists. split; [reflexivity|]. intros c [=].
  - right. eexists. split; [reflexivity|]. intros c [= <-]. now eexists.
  - right. eexists. split; [reflexivity|]. intros c [=].
Qed.

Lemma act_keeps_options (s : Session) (a : Action) :
  controlledPoints (act (N:=N) s a) = controlledPoints s /\
  interpolation (act (N:=N) s a) = interpolation s /\
  listening (act (N:=N) s a) = listening s.
Proof.
  destruct (act_shape s a) as [->|(newPoints & -> & _)]; now repeat split.
Qed.

Lemma act_controlled (s : Session) (a : Action) (c : PartialChannelPoints) :
  controlledPoints s = Some c ->
  controlledPoints (act (N:=N) s a) = Some c /\
  points (act (N:=N) s a) = mergeWithDefaults c /\
  internalPoints (act (N:=N) s a) = internalPoints s /\
  (length (notified (act (N:=N) s a)) <= S (length (notified s)))%nat /\
  (listening s = false -> notified (act (N:=N) s a) = notified s).
Proof.
  intros Hc.
  assert (Hp : points s = mergeWithDefaults c) by (unfold points; now rewrite Hc).
  destruct (act_shape s a) as [->|(newPoints & -> & _)].
  - repeat split; auto.
  - unfold updatePoints, points. cbn. rewrite Hc. repeat split.
    + destruct (listening s); [rewrite length_app; cbn; lia|lia].
    + now intros ->.
Qed.

End ActionShape.

(** X6.  A session given controlled points never changes what it shows:
    after any sequence of actions (edits, resets, imports) its points are
    still the controlled ones (missing channels filled with the default) and
    its own state cell is untouched.  Each action calls the listener at
    most once, and a session without a listener records nothing. *)
Theorem controlled_session_is_read_only :
  forall (N : Type) (num : JSNumber N) (s : Session) (c : PartialChannelPoints)
         (actions : list Action),
    controlledPoints s = Some c ->
    let s' := actAll (N:=N) s actions in
    points s' = mergeWithDefaults c /\
    internalPoints s' = internalPoints s /\
    (length (notified s') <= length (notified s) + length actions)%nat /\
    (listening s = false -> notified s' = notified s).
Proof.
  intros N num s c actions Hc. cbn zeta. unfold actAll.
  revert s Hc. induction actions as [|a actions IH]; intros s Hc.
  - cbn [fold_left length]. repeat split; auto; [|lia].
    unfold points. now rewrite Hc.
  - cbn [fold_left length].
    destruct (act_controlled (N:=N) s a c Hc) as (Hc' & Hp & Hi & Hn & Hl).
    destruct (IH _ Hc') as (IH1 & IH2 & IH3 & IH4).
    split; [exact IH1|]. split; [now rewrite IH2|]. split; [lia|].
    intros Hf. rewrite IH4; [now apply Hl|].
    now rewrite (proj2 (proj2 (act_keeps_options s a))).
Qed.

Lemma controlled_session_is_read_only_witness :
  let c := mkPartial None (Some [mkPoint 0 0; mkPoint 100 50; mkPoint 255 255])
                     None None in
  let s : Session := useCurvePoints None (Some c) monotone false in
  let actions := [ Edit (AddPoint red (mkPoint 200 10)); ResetAll;
                   SetChannelPoints red []; Edit (RemovePoint red 1) ] in
  controlledPoints s = Some c /\
  getChannel (points (actAll (N:=float) s actions)) red =
    [mkPoint 0 0; mkPoint 100 50; mkPoint 255 255] /\
  notified (actAll (N:=float) s actions) = [].
Proof.
  intros c s actions.
  destruct (controlled_session_is_read_only float _ s c actions eq_refl)
    as (Hp & _ & _ & Hn).
  split; [reflexivity|]. split; [now rewrite Hp|]. now apply Hn.
Defined.

(** X7.  An action addressed to one channel ([addPoint], [removePoint],
    [updatePoint], [resetChannel], [setChannelPoints]) leaves every other
    channel as it was: the same points and the same table in the LUT.  This
    holds in any session, on any arguments. *)
Theorem action_on_one_channel :
  forall (N : Type) (num : JSNumber N) (s : Session) (a : Action)
         (channel other : Channel),
    channelOf a = Some channel -> other <> channel ->
    getChannel (points (act (N:=N) s a)) other = getChannel (points s) other /\
    tableOf (lut (N:=N) (act (N:=N) s a)) other = tableOf (lut (N:=N) s) other.
Proof.
  intros N num s a channel other Ha Hne.
  assert (Hp : getChannel (points (act (N:=N) s a)) other =
               getChannel (points s) other).
  { destruct (act_shape (N:=N) s a) as [->|(newPoints & -> & Hshape)]; [reflexivity|].
    destruct (Hshape channel Ha) as (l & ->).
    destruct (controlledPoints s) as [c|] eqn:Hc.
    - rewrite points_updatePoints_controlled by (rewrite Hc; discriminate).
      reflexivity.
    - rewrite points_updatePoints by exact Hc.
      now apply getChannel_setChannel_other. }
  split; [exact Hp|].
  unfold lut. rewrite (proj1 (proj2 (act_keeps_options (N:=N) s a))).
  destruct other; cbn [tableOf generateLUT lut_master lut_red lut_green lut_blue];
    cbn [getChannel] in Hp; now rewrite Hp.
Qed.

Lemma action_on_one_channel_witness :
  let s : Session := useCurvePoints None None catmullRom true in
  let a := Edit (AddPoint red (mkPoint 128 200)) in
  channelOf a = Some red /\ green <> red /\
  getChannel (points (act (N:=float) s a)) green = getDefaultPoints /\
  tableOf (lut (N:=float) (act (N:=float) s a)) green = tableOf (lut (N:=float) s) green.
Proof.
  intros s a.
  assert (Hne : green <> red) by discriminate.
  destruct (action_on_one_channel float _ s a red green eq_refl Hne) as [Hp Ht].
  split; [reflexivity|]. split; [exact Hne|]. split; [exact Hp|exact Ht].
Defined.

(** ** Imports *)

Section Imports.
Context {N : Type} {num : JSNumber N}.

Lemma interpolate_sortPoints (i : Interpolation) (l : list CurvePoint) (x : N) :
  interpolate i (sortPoints l) x = interpolate i l x.
Proof.
  destruct i; cbn [interpolate];
    unfold monotoneCubicInterpolation, catmullRomInterpolation;
    now rewrite sortPoints_idempotent.
Qed.

Lemma generateChannelLUT_sortPoints (l : list CurvePoint) (i : Interpolation) :
  generateChannelLUT (N:=N) (sortPoints l) i = generateChannelLUT (N:=N) l i.
Proof.
  unfold generateChannelLUT. apply map_ext. intros k.
  now rewrite interpolate_sortPoints.
Qed.

End Imports.

(** X8.  [setChannelPoints] and [setAllPoints] accept any point sets (no
    check of count, spacing or range) on a session that stores its own
    points: each channel concerned then holds the given points sorted by
    ascending x (the same points, the same number of them), a channel
    missing from [setAllPoints] holds the default, and the LUT of the
    session is the LUT of the points as they were given, whatever their
    order. *)
Theorem imports_are_sorted :
  forall (N : Type) (num : JSNumber N) (s : Session),
    controlledPoints s = None ->
    (forall (channel : Channel) (l : list CurvePoint),
       let s' := setChannelPoints (N:=N) channel l s in
       let stored := getChannel (points s') channel in
       stored = sortPoints l /\ ascending stored /\ Permutation stored l /\
       tableOf (lut (N:=N) s') channel =
         generateChannelLUT (N:=N) l (interpolation s)) /\
    (forall (newPoints : PartialChannelPoints),
       let s' := setAllPoints (N:=N) newPoints s in
       (forall channel,
          let stored := getChannel (points s') channel in
          stored = sortPoints (getChannel (mergeWithDefaults newPoints) channel) /\
          ascending stored) /\
       lut (N:=N) s' =
         generateLUT (N:=N) (mergeWithDefaults newPoints) (interpolation s)).
Proof.
  intros N num s Hc. split.
  - intros channel l s' stored.
    assert (E : stored = sortPoints l).
    { unfold stored, s', setChannelPoints. rewrite points_updatePoints by exact Hc.
      apply getChannel_setChannel_same. }
    split; [exact E|]. rewrite E.
    split; [apply sortPoints_ascending|]. split; [apply sortPoints_perm|].
    unfold lut. fold stored.
    replace (interpolation s') with (interpolation s) by reflexivity.
    assert (Ht : tableOf (generateLUT (N:=N) (points s') (interpolation s)) channel =
                 generateChannelLUT (N:=N) stored (interpolation s))
      by (unfold stored; now destruct channel).
    rewrite Ht, E. apply generateChannelLUT_sortPoints.
  - intros newPoints s'.
    assert (Hp : points s' =
                 let m := mergeWithDefaults newPoints in
                 mkChannelPoints (sortPoints (cp_master m)) (sortPoints (cp_red m))
                                 (sortPoints (cp_green m)) (sortPoints (cp_blue m))).
    { unfold s', setAllPoints. now rewrite points_updatePoints by exact Hc. }
    split.
    + intros channel stored. unfold stored. rewrite Hp. cbn zeta.
      destruct channel; cbn [getChannel cp_master cp_red cp_green cp_blue];
        (split; [reflexivity|apply sortPoints_ascending]).
    + unfold lut. rewrite Hp. cbn zeta.
      replace (interpolation s') with (interpolation s) by reflexivity.
      unfold generateLUT. cbn [cp_master cp_red cp_green cp_blue].
      now rewrite !generateChannelLUT_sortPoints.
Qed.

Lemma imports_are_sorted_witness :
  let s : Session := useCurvePoints None None monotone true in
  let l := [mkPoint 255 0; mkPoint 300 7; mkPoint 0 255; mkPoint 255 9] in
  controlledPoints s = None /\
  getChannel (points (setChannelPoints (N:=float) blue l s)) blue =
    [mkPoint 0 255; mkPoint 255 0; mkPoint 255 9; mkPoint 300 7] /\
  tableOf (lut (N:=float) (setChannelPoints (N:=float) blue l s)) blue =
    generateChannelLUT (N:=float) l monotone.
Proof.
  intros s l.
  destruct (imports_are_sorted float _ s eq_refl) as [Hset _].
  destruct (Hset blue l) as (E & _ & _ & Ht).
  split; [reflexivity|]. split; [exact E|exact Ht].
Defined.

(** ** [updatePoint]: when it throws, and the x it stores *)

(** X9.  [updatePoint(channel, index, newPoint)] throws (a TypeError, on
    reading [.x] of a neighbour that is not there) exactly when [index] is
    neither 0, nor the last index, nor strictly between them; it completes
    on every index that addresses a point.  [n] is the number of points of
    the channel. *)
Theorem updatePoint_throws_exactly :
  forall (N : Type) (num : JSNumber N) (s : Session) (channel : Channel)
         (index : Z) (newPoint : CurvePoint),
    let n := Z.of_nat (length (getChannel (points s) channel)) in
    (updatePoint (N:=N) channel index newPoint s = TypeError <->
     index <> 0 /\ index <> n - 1 /\ (index < 0 \/ n - 1 < index)) /\
    ((exists s', updatePoint (N:=N) channel index newPoint s = Normal s') <->
     index = 0 \/ index = n - 1 \/ 0 < index < n - 1).
Proof.
  intros N num s channel index newPoint n.
  assert (Hlen : Z.of_nat (length (sortPoints (getChannel (points s) channel))) = n)
    by (unfold n; now rewrite sortPoints_length).
  assert (Hcases :
    (index = 0 \/ index = n - 1 \/ 0 < index < n - 1) /\
      (exists s', updatePoint (N:=N) channel index newPoint s = Normal s') \/
    (index <> 0 /\ index <> n - 1 /\ (index < 0 \/ n - 1 < index)) /\
      updatePoint (N:=N) channel index newPoint s = TypeError).
  { unfold updatePoint. rewrite Hlen.
    set (sorted := sortPoints (getChannel (points s) channel)) in *.
    destruct (Z.eqb_spec index 0) as [H0|H0];
      [left; split; [now left|cbn [bindC]; now eexists]|].
    destruct (Z.eqb_spec index (n - 1)) as [Hl|Hl];
      [left; split; [now right; left|cbn [bindC]; now eexists]|].
    destruct (Z_lt_le_dec index 0) as [Hneg|Hpos].
    { right. split; [lia|].
      now rewrite (element_out_of_range sorted (index - 1)) by lia. }
    destruct (Z_lt_le_dec index (n - 1)) as [Hin|Hout].
    - left. split; [lia|].
      destruct (element_in_range sorted (index - 1) ltac:(lia)) as (prev & ->).
      destruct (element_in_range sorted (index + 1) ltac:(lia)) as (next & ->).
      cbn [dotX bindC]. now eexists.
    - right. split; [lia|].
      rewrite (element_out_of_range sorted (index + 1)) by lia.
      destruct (element sorted (index - 1)); reflexivity. }
  split; split.
  - intros Ht. destruct Hcases as [[_ (s' & Hs')]|[H _]]; [congruence|exact H].
  - intros H. destruct Hcases as [[H' _]|[_ Ht]]; [lia|exact Ht].
  - intros (s' & Hs'). destruct Hcases as [[H _]|[_ Ht]]; [exact H|congruence].
  - intros H. destruct Hcases as [[_ Hs']|[H' _]]; [exact Hs'|lia].
Qed.

(** X10.  When [updatePoint] completes at an index that addresses a point
    of a session that stores its own points, every other index keeps the
    point the sorted channel had there, and the x stored at [index] does
    not depend on the point's old x: it is 0 at index 0, 255 at the last
    index, and in between [clamp(newPoint.x, prev.x + 5, next.x - 5)] for
    the sorted neighbours [prev] and [next], which is within
    [prev.x + 5, next.x - 5] when the neighbours are at least 10 apart and
    is [next.x - 5], whatever was asked, when they are closer. *)
Theorem updatePoint_stores_x :
  forall (N : Type) (num : JSNumber N) (s s' : Session) (channel : Channel)
         (index : Z) (newPoint : CurvePoint),
    controlledPoints s = None ->
    let sorted := sortPoints (getChannel (points s) channel) in
    let stored := getChannel (points s') channel in
    let n := Z.of_nat (length sorted) in
    0 <= index < n ->
    updatePoint (N:=N) channel index newPoint s = Normal s' ->
    (forall j, j <> index -> element stored j = element sorted j) /\
    exists p, element stored index = Some p /\
      (index = 0 -> px p = 0) /\
      (index <> 0 -> index = n - 1 -> px p = 255) /\
      (0 < index < n - 1 ->
         exists prev next,
           element sorted (index - 1) = Some prev /\
           element sorted (index + 1) = Some next /\
           px p = clamp (px newPoint) (px prev + MIN_POINT_DISTANCE)
                        (px next - MIN_POINT_DISTANCE) /\
           (px prev + 5 <= px next - 5 -> px prev + 5 <= px p <= px next - 5) /\
           (px next - 5 < px prev + 5 -> px p = px next - 5)).
Proof.
  intros N num s s' channel index newPoint Hc sorted stored n Hi Hu.
  unfold updatePoint in Hu. fold sorted in Hu. fold n in Hu.
  match type of Hu with
  | bindC ?c _ = _ => destruct c as [x|] eqn:Ex; [|discriminate]
  end.
  cbn [bindC] in Hu. injection Hu as Hs'.
  assert (Hst : stored =
                mapIndex (fun p i => if i =? index
                                     then mkPoint x (clamp (py newPoint) 0 255)
                                     else p) 0 sorted).
  { unfold stored. rewrite <- Hs'. rewrite points_updatePoints by exact Hc.
    apply getChannel_setChannel_same. }
  destruct (element_in_range sorted index Hi) as (old & Hold).
  split.
  - intros j Hj. rewrite Hst, element_mapIndex.
    destruct (element sorted j); [|reflexivity]. cbn [option_map].
    destruct (Z.eqb_spec j index); [contradiction|reflexivity].
  - exists (mkPoint x (clamp (py newPoint) 0 255)).
    split; [rewrite Hst, element_mapIndex, Hold; cbn [option_map];
            now rewrite Z.eqb_refl|].
    cbn [px]. split; [|split].
    + intros ->. cbn [Z.eqb] in Ex. now injection Ex as <-.
    + intros H0 Hl. destruct (Z.eqb_spec index 0); [contradiction|].
      destruct (Z.eqb_spec index (n - 1)); [|contradiction].
      now injection Ex as <-.
    + intros Hin. destruct (Z.eqb_spec index 0); [lia|].
      destruct (Z.eqb_spec index (n - 1)); [lia|].
      destruct (element_in_range sorted (index - 1) ltac:(lia)) as (prev & Hp).
      destruct (element_in_range sorted (index + 1) ltac:(lia)) as (next & Hn).
      rewrite Hp, Hn in Ex. cbn [dotX bindC] in Ex. injection Ex as <-.
      exists prev, next. split; [exact Hp|]. split; [exact Hn|].
      split; [reflexivity|]. unfold clamp, MIN_POINT_DISTANCE. split; lia.
Qed.

Lemma updatePoint_stores_x_witness :
  let s0 : Session := useCurvePoints None None monotone true in
  let s1 := setChannelPoints (N:=float) red
              [mkPoint 10 0; mkPoint 14 5; mkPoint 18 9; mkPoint 255 255] s0 in
  let s2 := updatePoints (N:=float) s1
              (setChannel (points s1) red
                 [mkPoint 10 0; mkPoint 13 1; mkPoint 18 9; mkPoint 255 255]) in
  controlledPoints s1 = None /\
  0 <= 1 < Z.of_nat (length (sortPoints (getChannel (points s1) red))) /\
  updatePoint (N:=float) red 1 (mkPoint 200 1) s1 = Normal s2 /\
  exists p, element (getChannel (points s2) red) 1 = Some p /\ px p = 18 - 5.
Proof.
  intros s0 s1 s2.
  assert (Hu : updatePoint (N:=float) red 1 (mkPoint 200 1) s1 = Normal s2)
    by reflexivity.
  assert (Hi : 0 <= 1 < Z.of_nat (length (sortPoints (getChannel (points s1) red))))
    by (vm_compute; split; [discriminate|reflexivity]).
  destruct (updatePoint_stores_x float _ s1 s2 red 1 (mkPoint 200 1) eq_refl Hi Hu)
    as (_ & p & Hp & _ & _ & Hmid).
  destruct (Hmid ltac:(vm_compute; split; reflexivity))
    as (prev & next & Hprev & Hnext & _ & _ & Hclose).
  vm_compute in Hprev, Hnext. injection Hprev as <-. injection Hnext as <-.
  split; [reflexivity|]. split; [exact Hi|]. split; [exact Hu|].
  exists p. split; [exact Hp|]. apply Hclose. cbn. lia.
Defined.

(** ** Integers as numbers *)

Lemma exact_comparesIntegers (lo hi : Z) : comparesIntegers (N:=R) lo hi.
Proof.
  intros a b _ _. cbn [nlt nle ofZ Exact.exact]. split.
  - destruct (Z.ltb_spec a b) as [H|H].
    + apply ltb_true. now apply IZR_lt.
    + apply ltb_false. now apply IZR_le.
  - destruct (Z.leb_spec a b) as [H|H].
    + apply leb_true. now apply IZR_le.
    + apply leb_false. now apply IZR_lt.
Qed.

Lemma comparesBelow_256 : comparesBelow 256 = true.
Proof. vm_compute. reflexivity. Qed.

Lemma comparesBelow_spec (n : nat) :
  comparesBelow n = true ->
  forall a b, 0 <= a < Z.of_nat n -> 0 <= b < Z.of_nat n ->
    PrimFloat.ltb (Binary64.of_Z a) (Binary64.of_Z b) = (a <? b) /\
    PrimFloat.leb (Binary64.of_Z a) (Binary64.of_Z b) = (a <=? b).
Proof.
  unfold comparesBelow. intros H a b Ha Hb. rewrite forallb_forall in H.
  assert (Hin : forall z, 0 <= z < Z.of_nat n -> In z (map Z.of_nat (seq 0 n))).
  { intros z Hz. apply in_map_iff. exists (Z.to_nat z). split; [lia|].
    apply in_seq. lia. }
  specialize (H a (Hin a Ha)). rewrite forallb_forall in H.
  specialize (H b (Hin b Hb)). apply andb_prop in H. destruct H as [H1 H2].
  apply Bool.eqb_prop in H1, H2. now split.
Qed.

Lemma binary64_comparesIntegers : comparesIntegers (N:=float) 0 255.
Proof.
  intros a b Ha Hb. apply (comparesBelow_spec 256 comparesBelow_256); lia.
Qed.

(** ** [findInsertIndex] *)

Lemma insertPoint_insertAfter (q p : CurvePoint) (l : list CurvePoint) :
  insertPoint q (insertAfter p l) = insertAfter p (insertPoint q l).
Proof.
  induction l as [|r l IH].
  - cbn [insertAfter insertPoint].
    destruct (Z.leb_spec (px q - px p) 0), (Z.ltb_spec (px p) (px q));
      try reflexivity; lia.
  - cbn [insertAfter insertPoint].
    destruct (Z.ltb_spec (px p) (px r)) as [Hpr|Hpr];
      destruct (Z.leb_spec (px q - px r) 0) as [Hqr|Hqr];
      cbn [insertAfter insertPoint].
    + destruct (Z.leb_spec (px q - px p) 0), (Z.ltb_spec (px p) (px q));
        try lia; destruct (Z.ltb_spec (px p) (px r)); try lia;
        destruct (Z.leb_spec (px q - px r) 0); try lia; reflexivity.
    + destruct (Z.leb_spec (px q - px p) 0); [lia|].
      destruct (Z.leb_spec (px q - px r) 0); [lia|].
      destruct (Z.ltb_spec (px p) (px r)); [reflexivity|lia].
    + destruct (Z.leb_spec (px q - px r) 0); [|lia].
      destruct (Z.ltb_spec (px p) (px q)); [lia|].
      destruct (Z.ltb_spec (px p) (px r)); [lia|reflexivity].
    + destruct (Z.leb_spec (px q - px r) 0); [lia|].
      destruct (Z.ltb_spec (px p) (px r)); [lia|]. now rewrite IH.
Qed.

(** Sorting with one more point at the end of the input puts that point
    after every point that is not to its right. *)
Lemma sortPoints_snoc (points : list CurvePoint) (p : CurvePoint) :
  sortPoints (points ++ [p]) = insertAfter p (sortPoints points).
Proof.
  unfold sortPoints. rewrite fold_right_app. cbn [fold_right insertPoint].
  induction points as [|q points IH]; [reflexivity|].
  cbn [fold_right]. rewrite IH. apply insertPoint_insertAfter.
Qed.

Section InsertIndex.
Context {N : Type} {num : JSNumber N}.
Hypothesis Hcompare : comparesIntegers (N:=N) 0 255.

Lemma firstAbove_shift (l : list CurvePoint) (x : N) (k : nat) :
  firstAbove l x k = (k + firstAbove l x 0)%nat.
Proof.
  revert k. induction l as [|q l IH]; intros k; cbn [firstAbove]; [lia|].
  destruct (nlt x (X q)); [lia|]. rewrite (IH (S k)), (IH 1%nat). lia.
Qed.

Lemma insertAfter_firstAbove (l : list CurvePoint) (p : CurvePoint) :
  inRange l -> 0 <= px p <= 255 ->
  insertAfter p l = insertAt (firstAbove l (X p) 0) p l.
Proof.
  intros Hl Hp. induction Hl as [|q l [Hq _] _ IH]; [reflexivity|].
  assert (Hc : nlt (X p) (X q) = (px p <? px q))
    by apply (proj1 (Hcompare (px p) (px q) Hp Hq)).
  cbn [insertAfter firstAbove]. rewrite Hc.
  destruct (px p <? px q); [reflexivity|].
  rewrite firstAbove_shift. cbn [Nat.add]. unfold insertAt. cbn [firstn skipn app].
  f_equal. exact IH.
Qed.

Lemma firstAbove_spec (l : list CurvePoint) (p : CurvePoint) :
  inRange l -> ascending l -> 0 <= px p <= 255 ->
  let k := firstAbove l (X p) 0 in
  (k <= length l)%nat /\
  (forall j, (j < k)%nat -> px (at_ l j) <= px p) /\
  (forall j, (k <= j < length l)%nat -> px p < px (at_ l j)).
Proof.
  intros Hl Ha Hp. induction Hl as [|q l [Hq _] Hl IH].
  - cbn. repeat split; intros; lia.
  - inversion Ha as [|? ? Ha' Hf]; subst. specialize (IH Ha').
    assert (Hc : nlt (X p) (X q) = (px p <? px q))
      by apply (proj1 (Hcompare (px p) (px q) Hp Hq)).
    cbn [firstAbove]. cbn zeta. rewrite Hc.
    destruct (Z.ltb_spec (px p) (px q)) as [Hlt|Hge].
    + split; [cbn; lia|]. split; [intros; lia|].
      intros [|j] Hj; [exact Hlt|]. cbn [length] in Hj.
      change (at_ (q :: l) (S j)) with (at_ l j).
      rewrite Forall_forall in Hf.
      assert (In (at_ l j) l) by (apply nth_In; lia).
      specialize (Hf _ H). unfold byX in Hf. lia.
    + rewrite firstAbove_shift. cbn [Nat.add]. cbn zeta in IH.
      destruct IH as (H1 & H2 & H3).
      split; [cbn [length]; lia|]. split.
      * intros [|j] Hj; [cbn; lia|]. apply H2. lia.
      * intros [|j] Hj; [lia|]. apply H3. cbn [length] in Hj. lia.
Qed.

End InsertIndex.

(** X11.  For points with coordinates in [0, 255] and a point [p] with x in
    [0, 255], [findInsertIndex(points, p.x)] is a position [k] of the sorted
    view with every point before it at or left of [p.x] and every point
    from it on right of [p.x], and inserting [p] there gives the array
    [addPoint] stores, [sortPoints([...points, p])].  This holds for every
    reading of [number] that compares the integers 0..255 as integers,
    binary64 among them. *)
Theorem findInsertIndex_is_where_addPoint_inserts :
  forall (N : Type) (num : JSNumber N) (points : list CurvePoint) (p : CurvePoint),
    comparesIntegers (N:=N) 0 255 ->
    inRange points -> 0 <= px p <= 255 ->
    let sorted := sortPoints points in
    let k := findInsertIndex (N:=N) points (X p) in
    (k <= length points)%nat /\
    (forall j, (j < k)%nat -> px (at_ sorted j) <= px p) /\
    (forall j, (k <= j < length points)%nat -> px p < px (at_ sorted j)) /\
    sortPoints (points ++ [p]) = insertAt k p sorted.
Proof.
  intros N num points p Hcmp Hr Hp sorted k.
  pose proof (inRange_sortPoints points Hr) as Hrs. fold sorted in Hrs.
  destruct (firstAbove_spec Hcmp sorted p Hrs (sortPoints_ascending points) Hp)
    as (H1 & H2 & H3).
  unfold sorted in H1, H3. rewrite sortPoints_length in H1, H3.
  split; [exact H1|]. split; [exact H2|]. split; [exact H3|].
  rewrite sortPoints_snoc. now apply insertAfter_firstAbove.
Qed.

Lemma findInsertIndex_is_where_addPoint_inserts_witness :
  let points := [mkPoint 255 255; mkPoint 128 7; mkPoint 0 0; mkPoint 128 200] in
  let p := mkPoint 128 99 in
  comparesIntegers (N:=float) 0 255 /\ inRange points /\ 0 <= px p <= 255 /\
  findInsertIndex (N:=float) points (X p) = 3%nat /\
  sortPoints (points ++ [p]) =
    [mkPoint 0 0; mkPoint 128 7; mkPoint 128 200; mkPoint 128 99; mkPoint 255 255].
Proof.
  intros points p.
  assert (Hr : inRange points) by (repeat constructor; cbn; lia).
  assert (Hp : 0 <= px p <= 255) by (cbn; lia).
  destruct (findInsertIndex_is_where_addPoint_inserts float _ points p
              binary64_comparesIntegers Hr Hp) as (_ & _ & _ & E).
  split; [exact binary64_comparesIntegers|]. split; [exact Hr|].
  split; [exact Hp|]. split; [vm_compute; reflexivity|].
  rewrite E. vm_compute. reflexivity.
Defined.

(** ** [isPointNear] *)

Lemma sqrt_le_iff (d t : R) :
  (0 <= d)%R -> (sqrt d <= t <-> 0 <= t /\ d <= t * t)%R.
Proof.
  intros Hd. split.
  - intros H. pose proof (sqrt_pos d) as H0.
    split; [lra|]. rewrite <- (sqrt_sqrt d Hd) at 1.
    apply Rmult_le_compat; lra.
  - intros [Ht Hdt]. rewrite <- (sqrt_square t Ht). now apply sqrt_le_1_alt.
Qed.


(** ** The canvas: coordinates *)

Section CanvasCoordinates.
Local Open Scope R_scope.

Lemma round_byte (v : R) :
  0 <= v <= 255 -> exists k : Z, (0 <= k <= 255)%Z /\ Exact.round v = IZR k.
Proof.
  intros Hv. exists (Exact.floor (v + / 2)). split; [|reflexivity].
  split.
  - rewrite <- (floor_unique (/ 2) 0) by (cbn; lra). apply floor_le. lra.
  - rewrite <- (floor_unique (255 + / 2) 255) by (cbn; lra). apply floor_le. lra.
Qed.

Lemma unit_fraction (a b : R) : 0 < b -> 0 <= a <= b -> 0 <= a / b <= 1.
Proof.
  intros Hb Ha. split.
  - apply Rle_mult_inv_pos; lra.
  - apply Rmult_le_reg_r with b; [exact Hb|].
    replace (a / b * b) with a by (field; lra). lra.
Qed.

End CanvasCoordinates.





(** ** The canvas: the hit test *)

Section HitTest.
Context {N : Type} {num : JSNumber N}.

(** The test of [findPointAtPosition] on one point. *)
Let near (width height : Z) (canvasX canvasY : N) (p : CurvePoint) : bool :=
  isPointNear (mkPosition canvasX canvasY)
              (curveToCanvas width height (X p) (Y p)) (ofZ POINT_HIT_THRESHOLD).

Lemma findPointFrom_spec (width height : Z) (sorted : list CurvePoint)
    (canvasX canvasY : N) (from : nat) :
  match findPointFrom width height sorted canvasX canvasY from with
  | Some i =>
      (from <= i < from + length sorted)%nat /\
      near width height canvasX canvasY (at_ sorted (i - from)) = true /\
      forall j, (j < i - from)%nat ->
        near width height canvasX canvasY (at_ sorted j) = false
  | None =>
      forall j, (j < length sorted)%nat ->
        near width height canvasX canvasY (at_ sorted j) = false
  end.
Proof.
  revert from. induction sorted as [|p rest IH]; intros from.
  - cbn. intros; lia.
  - cbn [findPointFrom]. fold (near width height canvasX canvasY p).
    destruct (near width height canvasX canvasY p) eqn:Hp.
    + rewrite Nat.sub_diag. cbn [length]. split; [lia|]. split; [exact Hp|].
      intros; lia.
    + specialize (IH (S from)).
      destruct (findPointFrom width height rest canvasX canvasY (S from)) as [i|].
      * destruct IH as (Hi & Hnear & Hfirst). cbn [length].
        replace (i - from)%nat with (S (i - S from)) by lia.
        split; [lia|]. split; [exact Hnear|].
        intros [|j] Hj; [exact Hp|]. apply Hfirst. lia.
      * intros [|j] Hj; [exact Hp|]. apply IH. cbn [length] in Hj. lia.
Qed.

End HitTest.

(** [findPointAtPosition] returns the first sorted index that is near. *)
Lemma findPointAtPosition_spec {N : Type} {num : JSNumber N} (o : CanvasOptions)
    (canvasX canvasY : N) :
  let sorted := sortPoints (co_points o) in
  let near p :=
    isPointNear (mkPosition canvasX canvasY)
                (curveToCanvas (co_width o) (co_height o) (X p) (Y p))
                (ofZ POINT_HIT_THRESHOLD) in
  match findPointAtPosition o canvasX canvasY with
  | Some i =>
      (i < length (co_points o))%nat /\ near (at_ sorted i) = true /\
      forall j, (j < i)%nat -> near (at_ sorted j) = false
  | None => forall p, In p (co_points o) -> near p = false
  end.
Proof.
  intros sorted near. unfold findPointAtPosition.
  fold sorted.
  pose proof (findPointFrom_spec (co_width o) (co_height o) sorted
                canvasX canvasY 0) as H.
  destruct (findPointFrom (co_width o) (co_height o) sorted canvasX canvasY 0)
    as [i|].
  - rewrite Nat.sub_0_r in H. destruct H as (Hi & Hnear & Hfirst).
    unfold sorted in Hi. rewrite sortPoints_length in Hi.
    split; [lia|]. split; [exact Hnear|exact Hfirst].
  - intros p Hp. apply (proj2 (sortPoints_In _ _)) in Hp. fold sorted in Hp.
    destruct (In_at sorted p Hp) as (k & Hk & <-). now apply H.
Qed.

Lemma isPointNear_self (c : Position R) (threshold : R) :
  (0 <= threshold)%R ->
  isPointNear (mkPosition (posX c) (posY c)) c threshold = true.
Proof.
  intros Ht. unfold isPointNear. cbn [posX posY].
  cbn [nadd nsub nmul nsqrt nle Exact.exact].
  apply leb_true.
  replace ((posX c - posX c) * (posX c - posX c) +
           (posY c - posY c) * (posY c - posY c))%R with 0%R by ring.
  now rewrite sqrt_0.
Qed.

(** X15.  [findPointAtPosition] returns the first index of the sorted view
    whose canvas position is within POINT_HIT_THRESHOLD of the given
    position (where two control points are both near, the one with the lower
    index is hit), and [null] exactly when no point is within the
    threshold.  This holds for every reading of [number]. *)
Theorem findPointAtPosition_first_hit :
  forall (N : Type) (num : JSNumber N) (o : CanvasOptions) (canvasX canvasY : N),
    let sorted := sortPoints (co_points o) in
    let near p :=
      isPointNear (mkPosition canvasX canvasY)
                  (curveToCanvas (co_width o) (co_height o) (X p) (Y p))
                  (ofZ POINT_HIT_THRESHOLD) in
    match findPointAtPosition o canvasX canvasY with
    | Some i =>
        (i < length (co_points o))%nat /\ near (at_ sorted i) = true /\
        forall j, (j < i)%nat -> near (at_ sorted j) = false
    | None => forall p, In p (co_points o) -> near p = false
    end.
Proof. intros N num o canvasX canvasY. apply findPointAtPosition_spec. Qed.



(** ** The canvas: runs of events *)

Section EventRuns.
Context {N : Type} {num : JSNumber N}.

Lemma handleEvents_cons (o : CanvasOptions) (e : PointerEvent N)
    (rest : list (CanvasOptions * PointerEvent N)) (st : Interaction) :
  handleEvents ((o, e) :: rest) st =
    (fst (handleEvents rest (fst (handleEvent o e st))),
     snd (handleEvent o e st) ++ snd (handleEvents rest (fst (handleEvent o e st)))).
Proof.
  cbn [handleEvents]. destruct (handleEvent o e st) as [st1 calls1].
  cbn [fst snd]. now destruct (handleEvents rest st1).
Qed.

Lemma handleEvents_app (l1 l2 : list (CanvasOptions * PointerEvent N))
    (st : Interaction) :
  fst (handleEvents (l1 ++ l2) st) = fst (handleEvents l2 (fst (handleEvents l1 st))).
Proof.
  revert st. induction l1 as [|[o e] l1 IH]; intros st; [reflexivity|].
  cbn [app]. rewrite !handleEvents_cons. cbn [fst]. apply IH.
Qed.

(** One event: what it may call, and what it keeps. *)
Lemma handleEvent_step (Q : nat -> Prop) (o : CanvasOptions) (e : PointerEvent N)
    (st : Interaction) :
  (isDragging st = true <-> activePointIndex st <> None) ->
  (forall i, activePointIndex st = Some i -> Q i) ->
  (forall pos i, e = MouseDown pos -> co_disabled o = false ->
     findPointAtPosition o (posX pos) (posY pos) = Some i -> Q i) ->
  let st' := fst (handleEvent o e st) in
  let calls := snd (handleEvent o e st) in
  (isDragging st' = true <-> activePointIndex st' <> None) /\
  (forall i, activePointIndex st' = Some i -> Q i) /\
  (length calls <= 1)%nat /\
  (forall channel i point, In (OnUpdatePoint channel i point) calls -> Q i).
Proof.
  intros Hinv HQ Hdown.
  assert (Hsame : (isDragging st = true <-> activePointIndex st <> None) /\
                  (forall i, activePointIndex st = Some i -> Q i) /\
                  (length (@nil (Callback N)) <= 1)%nat /\
                  (forall channel i point,
                     In (OnUpdatePoint channel i point) (@nil (Callback N)) -> Q i)).
  { repeat split; try apply Hinv; auto. intros _ _ _ []. }
  destruct e as [pos|pos| | |pos| ]; cbn [handleEvent].
  - unfold handleMouseDown. destruct (co_disabled o) eqn:Hd; [exact Hsame|].
    destruct (findPointAtPosition o (posX pos) (posY pos)) as [i|] eqn:Hf;
      cbn [fst snd activePointIndex isDragging].
    + repeat split; try discriminate; auto.
      * intros j [= <-]. now apply (Hdown pos i).
      * intros _ _ _ [].
    + repeat split; try apply Hinv; auto.
      intros channel i point [H|[]]. discriminate.
  - unfold handleMouseMove. destruct (co_disabled o); [exact Hsame|].
    destruct (isDragging st) eqn:Hdrag;
      [destruct (activePointIndex st) as [active|] eqn:Hact|];
      cbn [fst snd activePointIndex isDragging]; rewrite ?Hdrag, ?Hact.
    + split; [exact Hinv|]. split; [exact HQ|]. split; [cbn; lia|].
      intros channel i point [[= _ <- _]|[]]. now apply HQ.
    + split; [exact Hinv|]. split; [exact HQ|]. split; [cbn; lia|].
      intros _ _ _ [].
    + split; [exact Hinv|]. split; [exact HQ|]. split; [cbn; lia|].
      intros _ _ _ [].
  - cbn. repeat split; try discriminate; try congruence; auto. intros _ _ _ [].
  - cbn. repeat split; try discriminate; try congruence; auto. intros _ _ _ [].
  - unfold handleDoubleClick. destruct (co_disabled o); [exact Hsame|].
    destruct (findPointAtPosition o (posX pos) (posY pos)) as [i|];
      cbn [fst snd]; [|exact Hsame].
    repeat split; try apply Hinv; auto.
    intros channel j point [H|[]]. discriminate.
  - cbn. repeat split; try discriminate; try congruence; auto. intros _ _ _ [].
Qed.

Lemma handleEvents_run (Q : nat -> Prop)
    (events : list (CanvasOptions * PointerEvent N)) (st : Interaction) :
  (isDragging st = true <-> activePointIndex st <> None) ->
  (forall i, activePointIndex st = Some i -> Q i) ->
  (forall o pos i, In (o, MouseDown pos) events -> co_disabled o = false ->
     findPointAtPosition o (posX pos) (posY pos) = Some i -> Q i) ->
  let st' := fst (handleEvents events st) in
  let calls := snd (handleEvents events st) in
  (isDragging st' = true <-> activePointIndex st' <> None) /\
  (length calls <= length events)%nat /\
  (forall channel i point, In (OnUpdatePoint channel i point) calls -> Q i).
Proof.
  revert st. induction events as [|[o e] rest IH]; intros st Hinv HQ Hdown.
  - cbn. repeat split; try apply Hinv; auto. intros _ _ _ [].
  - rewrite handleEvents_cons. cbn [fst snd].
    destruct (handleEvent_step Q o e st Hinv HQ) as (Hinv' & HQ' & Hlen & Hcalls).
    { intros pos i -> Hd Hf. apply (Hdown o pos i); [now left|exact Hd|exact Hf]. }
    destruct (IH (fst (handleEvent o e st)) Hinv' HQ') as (IH1 & IH2 & IH3).
    { intros o' pos i Hin. apply (Hdown o' pos i). now right. }
    split; [exact IH1|]. split.
    + rewrite length_app. cbn [length]. lia.
    + intros channel i point Hin. apply in_app_or in Hin.
      destruct Hin as [Hin|Hin]; [now apply (Hcalls channel i point)|
                                  now apply (IH3 channel i point)].
Qed.

Lemma handleEvent_disabled (o : CanvasOptions) (e : PointerEvent N)
    (st : Interaction) :
  co_disabled o = true ->
  snd (handleEvent o e st) = [] /\
  (isDragging st = false -> activePointIndex st = None ->
   isDragging (fst (handleEvent o e st)) = false /\
   activePointIndex (fst (handleEvent o e st)) = None) /\
  (st = useCanvasInteraction -> fst (handleEvent o e st) = useCanvasInteraction).
Proof.
  intros Hd.
  destruct e as [pos|pos| | |pos| ]; cbn [handleEvent];
    unfold handleMouseDown, handleMouseMove, handleDoubleClick, handleMouseUp,
           handleMouseLeave, handleGlobalMouseUp;
    rewrite ?Hd; cbn [fst snd isDragging activePointIndex];
    repeat split; auto; intros ->; reflexivity.
Qed.

End EventRuns.

(** X17.  A canvas that is disabled in every render calls none of its
    callbacks, whatever the mouse does: no point is added, moved or removed,
    no drag starts, and from its first state the hook does not change
    state at all. *)
Theorem disabled_canvas_is_inert :
  forall (N : Type) (num : JSNumber N)
         (events : list (CanvasOptions * PointerEvent N)) (st : Interaction),
    Forall (fun oe => co_disabled (fst oe) = true) events ->
    snd (handleEvents events st) = [] /\
    (isDragging st = false -> activePointIndex st = None ->
     isDragging (fst (handleEvents events st)) = false /\
     activePointIndex (fst (handleEvents events st)) = None) /\
    handleEvents events useCanvasInteraction = (useCanvasInteraction, []).
Proof.
  intros N num events st Hall.
  assert (H : forall st0,
            snd (handleEvents events st0) = [] /\
            (isDragging st0 = false -> activePointIndex st0 = None ->
             isDragging (fst (handleEvents events st0)) = false /\
             activePointIndex (fst (handleEvents events st0)) = None) /\
            (st0 = useCanvasInteraction ->
             fst (handleEvents events st0) = useCanvasInteraction)).
  { induction Hall as [|[o e] rest Hd _ IH]; intros st0.
    - cbn. auto.
    - cbn [fst] in Hd. rewrite handleEvents_cons. cbn [fst snd].
      destruct (handleEvent_disabled o e st0 Hd) as (Hc & Hidle & Hfirst).
      destruct (IH (fst (handleEvent o e st0))) as (IHc & IHidle & IHfirst).
      rewrite Hc, IHc. split; [reflexivity|]. split.
      + intros H1 H2. destruct (Hidle H1 H2). now apply IHidle.
      + intros E. apply IHfirst. now apply Hfirst. }
  destruct (H st) as (Hc & Hidle & _). split; [exact Hc|]. split; [exact Hidle|].
  destruct (H useCanvasInteraction) as (Hc' & _ & Hfirst).
  rewrite (surjective_pairing (handleEvents events useCanvasInteraction)).
  now rewrite Hc', Hfirst.
Qed.

Lemma disabled_canvas_is_inert_witness :
  let o := mkCanvasOptions getDefaultPoints master 300 300 true in
  let events := [ (o, MouseDown (mkPosition 0%float 300%float));
                  (o, MouseMove (mkPosition 40%float 40%float));
                  (o, DoubleClick (mkPosition 300%float 0%float));
                  (o, MouseUp) ] in
  Forall (fun oe => co_disabled (fst oe) = true) events /\
  handleEvents (N:=float) events useCanvasInteraction = (useCanvasInteraction, []).
Proof.
  intros o events.
  assert (H : Forall (fun oe => co_disabled (fst oe) = true) events)
    by (repeat constructor).
  split; [exact H|].
  apply (disabled_canvas_is_inert float _ events useCanvasInteraction H).
Defined.

(** X18.  From its first state, after any run of mouse events: the hook is
    dragging exactly when it has an active point; every event calls at most
    one callback; every [onUpdatePoint] call carries an index that the
    hit test returned for an earlier [mousedown] on an enabled canvas (a
    point is only ever moved after it was pressed); and a [mouseup], a
    [mouseleave] or a [mouseup] on the window ends the drag, whatever came
    before and even on a disabled canvas. *)
Theorem updates_follow_a_press :
  forall (N : Type) (num : JSNumber N)
         (events : list (CanvasOptions * PointerEvent N)),
    let st := fst (handleEvents events useCanvasInteraction) in
    let calls := snd (handleEvents events useCanvasInteraction) in
    (isDragging st = true <-> activePointIndex st <> None) /\
    (length calls <= length events)%nat /\
    (forall channel i point,
       In (OnUpdatePoint channel i point) calls ->
       exists o pos,
         In (o, MouseDown pos) events /\ co_disabled o = false /\
         findPointAtPosition o (posX pos) (posY pos) = Some i) /\
    (forall o e,
       e = MouseUp \/ e = MouseLeave \/ e = GlobalMouseUp ->
       let released :=
         fst (handleEvents (events ++ [(o, e)]) useCanvasInteraction) in
       isDragging released = false /\ activePointIndex released = None).
Proof.
  intros N num events.
  assert (Hrelease : forall o e,
            e = MouseUp \/ e = MouseLeave \/ e = GlobalMouseUp ->
            let released :=
              fst (handleEvents (events ++ [(o, e)]) useCanvasInteraction) in
            isDragging released = false /\ activePointIndex released = None).
  { intros o e He released. unfold released. rewrite handleEvents_app.
    destruct He as [-> | [-> | ->]]; now cbn. }
  cbn zeta. rewrite <- !and_assoc. split; [|exact Hrelease].
  rewrite !and_assoc.
  apply (handleEvents_run
           (fun i => exists o pos,
              In (o, MouseDown pos) events /\ co_disabled o = false /\
              findPointAtPosition o (posX pos) (posY pos) = Some i)).
  - cbn. split; [discriminate|congruence].
  - cbn. discriminate.
  - intros o pos i Hin Hd Hf. now exists o, pos.
Qed.

(** ** The interpolators return bytes *)

Section ExactBytes.
Local Open Scope R_scope.

(** A real number that is an integer of [0, 255]. *)
Let byte (v : R) : Prop := exists k : Z, (0 <= k <= 255)%Z /\ v = IZR k.

Lemma roundClamp_range (r : R) : byte (nclamp (nround r) (ofZ 0) (ofZ 255)).
Proof.
  rewrite nclamp_exact. change (nround r) with (Exact.round r).
  cbn [ofZ Exact.exact]. unfold Exact.round.
  set (m := Exact.floor (r + / 2)).
  exists (clamp m 0 255). split; [apply clamp_range; lia|].
  unfold clamp, Rmax, Rmin.
  destruct (Rle_dec (IZR m) 0) as [H0|H0].
  - apply le_IZR in H0. destruct (Rle_dec 0 255); [|lra].
    f_equal. lia.
  - assert (0 < m)%Z by (apply lt_IZR; lra).
    destruct (Rle_dec (IZR m) 255) as [H1|H1].
    + apply le_IZR in H1. f_equal. lia.
    + assert (255 < m)%Z by (apply lt_IZR; lra). f_equal. lia.
Qed.

Lemma Y_byte (l : list CurvePoint) (k : nat) :
  inRange l -> (k < length l)%nat -> byte (Y (at_ l k)).
Proof.
  intros Hl Hk. exists (py (at_ l k)). split; [|reflexivity].
  now apply (inRange_at l k Hl Hk).
Qed.

Lemma monotoneSegment_byte (sorted : list CurvePoint) (i : nat) (x : R) :
  inRange sorted -> (i < length sorted)%nat ->
  byte (monotoneSegment sorted (length sorted) i x).
Proof.
  intros Hl Hi. unfold monotoneSegment.
  destruct (nequal _ _); [now apply Y_byte|].
  match goal with |- byte (let '(m0, m1) := ?l in _) => destruct l as [m0 m1] end.
  apply roundClamp_range.
Qed.

Lemma catmullRomSegment_byte (sorted : list CurvePoint) (i : nat) (x : R) :
  inRange sorted -> (i < length sorted)%nat ->
  byte (catmullRomSegment sorted (length sorted) i x).
Proof.
  intros Hl Hi. unfold catmullRomSegment.
  destruct (nequal _ _); [now apply Y_byte|].
  apply roundClamp_range.
Qed.

Lemma interpolate_byte (i : Interpolation) (points : list CurvePoint) (x : R) :
  points <> [] -> inRange points -> byte (interpolate i points x).
Proof.
  intros Hne Hr.
  pose proof (inRange_sortPoints points Hr) as Hs.
  assert (Hlen : (0 < length (sortPoints points))%nat).
  { rewrite sortPoints_length. destruct points; [congruence|cbn; lia]. }
  assert (Hseg : (findSegment (sortPoints points) x 0 < length (sortPoints points))%nat).
  { apply (findSegment_spec (sortPoints points) x).
    intros E. rewrite E in Hlen. cbn in Hlen. lia. }
  destruct i; cbn [interpolate];
    unfold monotoneCubicInterpolation, monotoneCubicOn,
           catmullRomInterpolation, catmullRomOn;
    set (sorted := sortPoints points) in *;
    (destruct (Nat.eqb_spec (length sorted) 0); [lia|]);
    (destruct (Nat.eqb (length sorted) 1); [apply Y_byte; [exact Hs|lia]|]);
    (destruct (nle x (X (at_ sorted 0))); [apply Y_byte; [exact Hs|lia]|]);
    (destruct (nle (X (at_ sorted (length sorted - 1))) x);
       [apply Y_byte; [exact Hs|lia]|]).
  - now apply monotoneSegment_byte.
  - now apply catmullRomSegment_byte.
Qed.

End ExactBytes.



(** ** Monotone data: no overshoot *)



(** ** A flat curve *)

Section FlatData.
Local Open Scope R_scope.

Variable c : Z.
Variable sorted : list CurvePoint.
Hypothesis Hflat : flatAt c sorted.
Hypothesis Hc : (0 <= c <= 255)%Z.

Lemma flat_Y (k : nat) : (k < length sorted)%nat -> Y (N:=R) (at_ sorted k) = IZR c.
Proof.
  intros Hk. unfold Y. cbn [ofZ Exact.exact]. f_equal.
  unfold flatAt in Hflat. rewrite Forall_forall in Hflat.
  apply Hflat. now apply nth_In.
Qed.

Lemma flat_byte : nclamp (nround (IZR c)) (ofZ 0) (ofZ 255) = IZR c.
Proof. now apply roundClamp_byte. Qed.

Lemma monotoneSegment_flat (i : nat) (x : R) :
  (i + 1 < length sorted)%nat ->
  monotoneSegment sorted (length sorted) i x = IZR c.
Proof.
  intros Hi. unfold monotoneSegment.
  rewrite (flat_Y i), (flat_Y (i + 1)) by lia.
  destruct (nequal _ _) eqn:Hdx; [reflexivity|].
  assert (Hslope : ndiv (nsub (IZR c) (IZR c))
                        (nsub (X (at_ sorted (i + 1))) (X (at_ sorted i))) = 0).
  { cbn [nsub ndiv Exact.exact]. unfold Rdiv. ring. }
  rewrite !Hslope.
  set (m0 := if Nat.eqb i 0 then _ else _).
  set (m1 := if Nat.eqb i (length sorted - 2) then _ else _).
  unfold limitTangents. change (nequal 0 (ofZ 0)) with (Exact.eqb 0 0).
  rewrite eqb_true. unfold hermite.
  cbn [nadd nsub nmul ndiv ofZ Exact.exact].
  rewrite <- flat_byte at 3. f_equal. f_equal. ring.
Qed.

Lemma catmullRomSegment_flat (i : nat) (x : R) :
  (i < length sorted)%nat ->
  catmullRomSegment sorted (length sorted) i x = IZR c.
Proof.
  intros Hi. unfold catmullRomSegment.
  rewrite (flat_Y i) by lia.
  rewrite (flat_Y (Nat.max 0 (i - 1))) by lia.
  rewrite (flat_Y (Nat.min (length sorted - 1) (i + 1))) by lia.
  rewrite (flat_Y (Nat.min (length sorted - 1) (i + 2))) by lia.
  destruct (nequal _ _); [reflexivity|].
  cbn [nadd nsub nmul ndiv nneg half ofZ Exact.exact].
  set (t := ((x - _) / _)%R).
  match goal with
  | |- nclamp (nround ?e) _ _ = _ => replace e with (IZR c) by field
  end.
  apply flat_byte.
Qed.

Lemma flat_on_sorted (x : R) :
  sorted <> [] ->
  monotoneCubicOn sorted x = IZR c /\ catmullRomOn sorted x = IZR c.
Proof.
  intros Hne.
  assert (Hlen : (0 < length sorted)%nat)
    by (destruct sorted; [congruence|cbn; lia]).
  destruct (findSegment_spec sorted x Hne) as (Hseg & Hbelow & _).
  cbn zeta in Hseg, Hbelow.
  unfold monotoneCubicOn, catmullRomOn.
  destruct (Nat.eqb_spec (length sorted) 0); [lia|].
  destruct (Nat.eqb_spec (length sorted) 1); [split; apply flat_Y; lia|].
  destruct (nle x (X (at_ sorted 0))); [split; apply flat_Y; lia|].
  destruct (nle (X (at_ sorted (length sorted - 1))) x) eqn:Hhi;
    [split; apply flat_Y; lia|].
  split; [|now apply catmullRomSegment_flat].
  apply monotoneSegment_flat.
  destruct (Nat.eq_dec (findSegment sorted x 0) (length sorted - 1)) as [E|]; [|lia].
  exfalso. specialize (Hbelow (length sorted - 1)%nat ltac:(lia)).
  change (nlt ?u ?v) with (Exact.ltb u v) in Hbelow.
  change (nle ?u ?v) with (Exact.leb u v) in Hhi.
  apply ltb_true in Hbelow. apply leb_false in Hhi. lra.
Qed.

End FlatData.



(** ** The table outside the points *)

Lemma exact_storesBytes : storesBytes (N:=R).
Proof.
  intros v Hv. cbn [toUint8 ofZ Exact.exact]. unfold Exact.to_uint8.
  destruct (Rle_dec 0 (IZR v)) as [_|Hn]; [|exfalso; apply Hn, (IZR_le 0); lia].
  rewrite (floor_unique (IZR v) v) by lra. apply Z.mod_small. lia.
Qed.

Lemma storesBelow_256 : storesBelow 256 = true.
Proof. vm_compute. reflexivity. Qed.

Lemma storesBelow_spec (n : nat) :
  storesBelow n = true ->
  forall v, 0 <= v < Z.of_nat n -> Binary64.to_uint8 (Binary64.of_Z v) = v.
Proof.
  unfold storesBelow. intros H v Hv. rewrite forallb_forall in H.
  apply Z.eqb_eq. apply H. apply in_map_iff. exists (Z.to_nat v).
  split; [lia|]. apply in_seq. lia.
Qed.

Lemma binary64_storesBytes : storesBytes (N:=float).
Proof. intros v Hv. apply (storesBelow_spec 256 storesBelow_256). lia. Qed.

Section TableEnds.
Context {N : Type} {num : JSNumber N}.
Hypothesis Hcompare : comparesIntegers (N:=N) 0 255.
Hypothesis Hstore : storesBytes (N:=N).

Lemma cell_generate (points : list CurvePoint) (k : Interpolation) (i : Z) :
  0 <= i <= 255 ->
  cell (generateChannelLUT (N:=N) points k) i =
    Some (toUint8 (interpolate k points (ofZ i))).
Proof.
  intros Hi. unfold cell, generateChannelLUT.
  destruct (Z.ltb_spec i 0); [lia|].
  rewrite nth_error_map, nth_error_seq.
  destruct (Nat.ltb_spec (Z.to_nat i) 256); [|lia].
  cbn [option_map Nat.add]. now rewrite Z2Nat.id by lia.
Qed.

Lemma empty_table (k : Interpolation) :
  generateChannelLUT (N:=N) [] k = identityTable.
Proof.
  unfold generateChannelLUT, identityTable. apply map_ext_in.
  intros i Hi. apply in_seq in Hi.
  replace (interpolate k [] (ofZ (Z.of_nat i))) with (ofZ (N:=N) (Z.of_nat i))
    by now destruct k.
  apply Hstore. lia.
Qed.

Lemma table_ends (points : list CurvePoint) (k : Interpolation)
    (first : CurvePoint) (rest : list CurvePoint) (i : Z) :
  inRange points -> sortPoints points = first :: rest -> 0 <= i <= 255 ->
  let table := generateChannelLUT (N:=N) points k in
  let final := last rest first in
  (i <= px first -> cell table i = Some (py first)) /\
  (px final <= i -> px first < i \/ rest = [] -> cell table i = Some (py final)).
Proof.
  intros Hr Hs Hi table final.
  pose proof (inRange_sortPoints points Hr) as Hrs. rewrite Hs in Hrs.
  unfold inRange in Hrs. rewrite Forall_forall in Hrs.
  destruct (Hrs first ltac:(now left)) as [Hfx Hfy].
  destruct (Hrs final (last_In_cons first rest)) as [Hlx Hly].
  assert (Hlow : nle (ofZ (N:=N) i) (X first) = (i <=? px first))
    by apply (proj2 (Hcompare i (px first) Hi Hfx)).
  assert (Hhigh : nle (X final) (ofZ (N:=N) i) = (px final <=? i))
    by apply (proj2 (Hcompare (px final) i Hlx Hi)).
  unfold table. rewrite (cell_generate points k i Hi). split.
  - intros Hle. f_equal.
    assert (Hb : nle (ofZ (N:=N) i) (X first) = true)
      by (rewrite Hlow; now apply Z.leb_le).
    replace (interpolate k points (ofZ i)) with (Y (N:=N) first);
      [now apply Hstore|].
    destruct k; cbn [interpolate];
      unfold monotoneCubicInterpolation, catmullRomInterpolation; rewrite Hs;
      symmetry; [now apply monotoneCubicOn_below|now apply catmullRomOn_below].
  - intros Hge Hne. f_equal.
    assert (Hb : nle (X final) (ofZ (N:=N) i) = true)
      by (rewrite Hhigh; now apply Z.leb_le).
    assert (Hb' : nle (ofZ (N:=N) i) (X first) = false \/ rest = []).
    { destruct Hne as [Hlt|E]; [left|now right].
      rewrite Hlow. apply Z.leb_gt. exact Hlt. }
    replace (interpolate k points (ofZ i)) with (Y (N:=N) final);
      [now apply Hstore|].
    destruct k; cbn [interpolate];
      unfold monotoneCubicInterpolation, catmullRomInterpolation; rewrite Hs;
      symmetry; [now apply monotoneCubicOn_above|now apply catmullRomOn_above].
Qed.

End TableEnds.

(** X22.  The table of a channel outside the x-range of its points, for
    points with coordinates in [0, 255], under either interpolation and in
    every reading of [number] that compares and stores the integers 0..255
    as integers (binary64 among them).  With no point the table is the
    identity.  Otherwise every cell at or left of the first point's x holds
    the first point's y, and every cell at or right of the last point's x
    (and right of the first point's x, unless there is a single point)
    holds the last point's y. *)
Theorem table_outside_the_points :
  forall (N : Type) (num : JSNumber N) (points : list CurvePoint)
         (k : Interpolation),
    comparesIntegers (N:=N) 0 255 -> storesBytes (N:=N) -> inRange points ->
    let table := generateChannelLUT (N:=N) points k in
    (points = [] -> table = identityTable) /\
    (forall (first : CurvePoint) (rest : list CurvePoint),
       sortPoints points = first :: rest ->
       let final := last rest first in
       forall i, 0 <= i <= 255 ->
         (i <= px first -> cell table i = Some (py first)) /\
         (px final <= i -> px first < i \/ rest = [] ->
          cell table i = Some (py final))).
Proof.
  intros N num points k Hcmp Hst Hr table. split.
  - intros ->. now apply empty_table.
  - intros first rest Hs final i Hi. now apply table_ends.
Qed.

Lemma table_outside_the_points_witness :
  let points := [mkPoint 200 250; mkPoint 40 10; mkPoint 120 90] in
  let table := generateChannelLUT (N:=float) points catmullRom in
  comparesIntegers (N:=float) 0 255 /\ storesBytes (N:=float) /\ inRange points /\
  cell table 0 = Some 10 /\ cell table 40 = Some 10 /\
  cell table 200 = Some 250 /\ cell table 255 = Some 250.
Proof.
  intros points table.
  assert (Hr : inRange points) by (repeat constructor; cbn; lia).
  destruct (table_outside_the_points float _ points catmullRom
              binary64_comparesIntegers binary64_storesBytes Hr) as [_ H].
  specialize (H (mkPoint 40 10) [mkPoint 120 90; mkPoint 200 250] eq_refl).
  cbn zeta in H. cbn [last px py] in H.
  split; [exact binary64_comparesIntegers|]. split; [exact binary64_storesBytes|].
  split; [exact Hr|].
  split; [apply (H 0); lia|]. split; [apply (H 40); lia|].
  split; [apply (H 200); [lia|lia|left; lia]|apply (H 255); [lia|lia|left; lia]].
Defined.

(** ** The path of the curve *)



(** ** The component: from the mouse to the points *)

Lemma readPoint_canvasToCurve (width height : Z) (canvasX canvasY : R) :
  0 < width -> 0 < height ->
  (0 <= canvasX <= IZR width)%R -> (0 <= canvasY <= IZR height)%R ->
  inRange [readPoint (canvasToCurve (N:=R) width height canvasX canvasY)].
Proof.
  intros Hw Hh Hx Hy.
  assert (Hw' : (0 < IZR width)%R) by (now apply (IZR_lt 0)).
  assert (Hh' : (0 < IZR height)%R) by (now apply (IZR_lt 0)).
  pose proof (unit_fraction canvasX (IZR width) Hw' Hx) as Hfx.
  pose proof (unit_fraction canvasY (IZR height) Hh' Hy) as Hfy.
  destruct (round_byte (canvasX / IZR width * 255)%R) as (kx & Hkx & Ex); [nra|].
  destruct (round_byte ((1 - canvasY / IZR height) * 255)%R) as (ky & Hky & Ey); [nra|].
  unfold readPoint, canvasToCurve. cbn [posX posY].
  cbn [nround nadd nsub nmul ndiv ofZ Exact.exact]. rewrite Ex, Ey.
  rewrite (floor_unique (IZR kx) kx), (floor_unique (IZR ky) ky) by lra.
  repeat constructor; cbn; lia.
Qed.

Lemma deliver_sessionInRange (s : Session) (c : Callback R) :
  sessionInRange s ->
  (forall channel point, c = OnAddPoint channel point -> inRange [readPoint point]) ->
  sessionInRange (deliver s c).
Proof.
  intros Hs Hadd. destruct c as [channel point|channel index|channel index point];
    cbn [deliver].
  - apply (act_sessionInRange (N:=R) s (Edit (AddPoint channel (readPoint point))) Hs).
    cbn. now apply (Hadd channel point).
  - now apply (act_sessionInRange (N:=R) s (Edit (RemovePoint channel (Z.of_nat index)))).
  - now apply (act_sessionInRange (N:=R) s
                 (Edit (UpdatePoint channel (Z.of_nat index) (readPoint point)))).
Qed.

Lemma handleEvent_adds (o : CanvasOptions) (e : PointerEvent R) (st : Interaction)
    (channel : Channel) (point : Position R) :
  In (OnAddPoint channel point) (snd (handleEvent o e st)) ->
  exists pos, e = MouseDown pos /\
    point = canvasToCurve (co_width o) (co_height o) (posX pos) (posY pos).
Proof.
  destruct e as [pos|pos| | |pos| ]; cbn [handleEvent].
  - unfold handleMouseDown. destruct (co_disabled o); [intros []|].
    destruct (findPointAtPosition o (posX pos) (posY pos)); [intros []|].
    intros [[= _ <-]|[]]. now exists pos.
  - unfold handleMouseMove. destruct (co_disabled o); [intros []|].
    destruct (isDragging st); [destruct (activePointIndex st)|]; cbn [snd];
      intros H; try destruct H as [H|[]]; try discriminate; destruct H.
  - intros [].
  - intros [].
  - unfold handleDoubleClick. destruct (co_disabled o); [intros []|].
    destruct (findPointAtPosition o (posX pos) (posY pos)); cbn [snd];
      intros H; try destruct H as [H|[]]; try discriminate; destruct H.
  - intros [].
Qed.

Lemma respond_sessionInRange (props : RGBCurveProps) (w : RGBCurve) (e : UserEvent) :
  0 < rp_width props -> 0 < rp_height props ->
  sessionInRange (rc_session w) -> insideCanvas props e ->
  sessionInRange (rc_session (respond props w e)).
Proof.
  intros Hw Hh Hs He. destruct e as [e|channel]; cbn [respond].
  - pose proof (handleEvent_adds (canvasOptions props w) e (rc_interaction w)) as Hadds.
    destruct (handleEvent (canvasOptions props w) e (rc_interaction w))
      as [st calls].
    cbn [rc_session snd] in *.
    revert Hadds. generalize (rc_session w) Hs. clear Hs.
    induction calls as [|c calls IH]; intros s Hs Hadds; [exact Hs|].
    cbn [fold_left]. apply IH.
    + apply deliver_sessionInRange; [exact Hs|].
      intros channel point ->.
      destruct (Hadds channel point ltac:(now left)) as (pos & -> & ->).
      cbn in He. destruct He as [Hx Hy].
      now apply readPoint_canvasToCurve.
    + intros channel point Hin. apply (Hadds channel point). now right.
  - unfold handleClick, handleChannelChange.
    destruct (rp_showTabs props), (rp_disabled props); exact Hs.
Qed.



Lemma respond_disabled (props : RGBCurveProps) (w : RGBCurve) (e : UserEvent) :
  rp_disabled props = true ->
  rc_session (respond props w e) = rc_session w /\
  rc_internalChannel (respond props w e) = rc_internalChannel w /\
  rc_channelChanges (respond props w e) = rc_channelChanges w.
Proof.
  intros Hd. destruct e as [e|channel]; cbn [respond].
  - destruct (handleEvent_disabled (N:=R) (canvasOptions props w) e (rc_interaction w) Hd)
      as (Hc & _).
    destruct (handleEvent (canvasOptions props w) e (rc_interaction w)) as [st calls].
    cbn [snd] in Hc. subst calls. now cbn.
  - unfold handleClick. rewrite Hd. now destruct (rp_showTabs props).
Qed.

(** X25.  A disabled component changes nothing, whatever the user does on
    its canvas and its tabs: the session (points, LUT, calls of
    [onChange]) is as it was, the active channel is as it was, and
    [onChannelChange] is not called. *)
Theorem disabled_component_changes_nothing :
  forall (props : RGBCurveProps) (w : RGBCurve) (events : list UserEvent),
    rp_disabled props = true ->
    let w' := respondAll props w events in
    rc_session w' = rc_session w /\
    activeChannel props w' = activeChannel props w /\
    rc_channelChanges w' = rc_channelChanges w.
Proof.
  intros props w events Hd. cbn zeta. unfold respondAll.
  revert w. induction events as [|e events IH]; intros w; [now cbn|].
  cbn [fold_left].
  destruct (respond_disabled props w e Hd) as (Hs & Hc & Hn).
  destruct (IH (respond props w e)) as (IHs & IHc & IHn).
  split; [now rewrite IHs|]. split; [|now rewrite IHn].
  rewrite IHc. unfold activeChannel. now rewrite Hc.
Qed.

Lemma disabled_component_changes_nothing_witness :
  let props := mkRGBCurveProps 300 300 None true true true in
  let w := mountRGBCurve None None master catmullRom in
  let events := [ OnCanvas (MouseDown (mkPosition 150%R 75%R)); OnTab blue;
                  OnCanvas (DoubleClick (mkPosition 0%R 300%R)) ] in
  rp_disabled props = true /\
  rc_session (respondAll props w events) = rc_session w /\
  activeChannel props (respondAll props w events) = master /\
  rc_channelChanges (respondAll props w events) = [].
Proof.
  intros props w events.
  split; [reflexivity|].
  exact (disabled_component_changes_nothing props w events eq_refl).
Defined.

(** ** The demo: a LUT over an image *)

Lemma list_ind4 (P : list Z -> Prop) :
  P [] -> (forall a, P [a]) -> (forall a b, P [a; b]) ->
  (forall a b c, P [a; b; c]) ->
  (forall a b c d rest, P rest -> P (a :: b :: c :: d :: rest)) ->
  forall l, P l.
Proof.
  intros H0 H1 H2 H3 H4.
  fix IH 1. intros [|a [|b [|c [|d rest]]]];
    [exact H0|apply H1|apply H2|apply H3|apply H4, IH].
Qed.

Lemma applyLUT_bytes (lut : LUTData) (r g b : Z) :
  wellFormedLUTData lut ->
  0 <= r <= 255 -> 0 <= g <= 255 -> 0 <= b <= 255 ->
  applyLUT r g b lut =
    (Some (byteAt (lut_master lut) (byteAt (lut_red lut) r)),
     Some (byteAt (lut_master lut) (byteAt (lut_green lut) g)),
     Some (byteAt (lut_master lut) (byteAt (lut_blue lut) b))).
Proof.
  intros (Hm & Hr & Hg & Hb) Hr' Hg' Hb'. unfold applyLUT.
  assert (Hc : forall v, 0 <= v <= 255 -> clamp v 0 255 = v)
    by (intros v Hv; unfold clamp; lia).
  rewrite !Hc by assumption.
  destruct (cell_wellFormed _ r Hr Hr') as [-> Hr''].
  destruct (cell_wellFormed _ g Hg Hg') as [-> Hg''].
  destruct (cell_wellFormed _ b Hb Hb') as [-> Hb''].
  cbn [cellOf].
  destruct (cell_wellFormed _ _ Hm Hr'') as [-> _].
  destruct (cell_wellFormed _ _ Hm Hg'') as [-> _].
  destruct (cell_wellFormed _ _ Hm Hb'') as [-> _].
  reflexivity.
Qed.

Lemma masterOf_byte (lut : LUTData) (table : list Z) (v : Z) :
  wellFormedLUT (lut_master lut) -> wellFormedLUT table -> 0 <= v <= 255 ->
  0 <= byteAt (lut_master lut) (byteAt table v) <= 255.
Proof.
  intros Hm Ht Hv. apply cell_wellFormed; [exact Hm|].
  now apply cell_wellFormed.
Qed.

Lemma storeClamped_byte (v : Z) : 0 <= v <= 255 -> storeClamped (Some v) = v.
Proof. intros Hv. unfold storeClamped, clamp. lia. Qed.

Lemma byteAt_identity (v : Z) : 0 <= v <= 255 -> byteAt identityTable v = v.
Proof.
  intros Hv. pose proof (identityTable_cell v Hv) as H.
  unfold cell in H. destruct (Z.ltb_spec v 0); [lia|].
  unfold byteAt. now apply nth_error_nth.
Qed.

Lemma identityTable_wellFormed : wellFormedLUT identityTable.
Proof. unfold identityTable. apply wellFormedLUT_map. intros; lia. Qed.

Lemma applyLUTToImage_cells (lut : LUTData) (data : list Z) :
  wellFormedLUTData lut -> bytes data ->
  let out := applyLUTToImage lut data in
  length out = length data /\ bytes out /\
  forall j, (j < length data)%nat -> nth j out 0 = passCell lut j (nth j data 0).
Proof.
  intros Hlut. pose proof Hlut as (Hm & Hr & Hg & Hb).
  induction data as [|r|r g|r g b|r g b a rest IH] using list_ind4; intros Hd.
  - cbn. repeat split; [constructor|intros; lia].
  - inversion Hd as [|? ? Hr' _]; subst.
    cbn [applyLUTToImage]. rewrite applyLUT_bytes by (auto; lia).
    pose proof (masterOf_byte lut _ r Hm Hr Hr') as H1.
    rewrite storeClamped_byte by exact H1.
    split; [reflexivity|]. split; [now repeat constructor|].
    intros [|j] Hj; [reflexivity|cbn in Hj; lia].
  - inversion Hd as [|? ? Hr' Hd1]; subst. inversion Hd1 as [|? ? Hg' _]; subst.
    cbn [applyLUTToImage]. rewrite applyLUT_bytes by (auto; lia).
    pose proof (masterOf_byte lut _ r Hm Hr Hr') as H1.
    pose proof (masterOf_byte lut _ g Hm Hg Hg') as H2.
    rewrite !storeClamped_byte by assumption.
    split; [reflexivity|]. split; [now repeat constructor|].
    intros [|[|j]] Hj; [reflexivity|reflexivity|cbn in Hj; lia].
  - inversion Hd as [|? ? Hr' Hd1]; subst. inversion Hd1 as [|? ? Hg' Hd2]; subst.
    inversion Hd2 as [|? ? Hb' _]; subst.
    cbn [applyLUTToImage]. rewrite applyLUT_bytes by assumption.
    pose proof (masterOf_byte lut _ r Hm Hr Hr') as H1.
    pose proof (masterOf_byte lut _ g Hm Hg Hg') as H2.
    pose proof (masterOf_byte lut _ b Hm Hb Hb') as H3.
    rewrite !storeClamped_byte by assumption.
    split; [reflexivity|]. split; [now repeat constructor|].
    intros [|[|[|j]]] Hj; [reflexivity|reflexivity|reflexivity|cbn in Hj; lia].
  - inversion Hd as [|? ? Hr' Hd1]; subst. inversion Hd1 as [|? ? Hg' Hd2]; subst.
    inversion Hd2 as [|? ? Hb' Hd3]; subst. inversion Hd3 as [|? ? Ha' Hd4]; subst.
    destruct (IH Hd4) as (IHl & IHb & IHc).
    cbn [applyLUTToImage]. rewrite applyLUT_bytes by assumption.
    pose proof (masterOf_byte lut _ r Hm Hr Hr') as H1.
    pose proof (masterOf_byte lut _ g Hm Hg Hg') as H2.
    pose proof (masterOf_byte lut _ b Hm Hb Hb') as H3.
    rewrite !storeClamped_byte by assumption.
    split; [cbn [length]; now rewrite IHl|].
    split; [now repeat constructor|].
    intros [|[|[|[|j]]]] Hj; [reflexivity|reflexivity|reflexivity|reflexivity|].
    cbn [nth]. cbn [length] in Hj. rewrite IHc by lia.
    unfold passCell.
    replace (S (S (S (S j))) mod 4)%nat with (j mod 4)%nat; [reflexivity|].
    replace (S (S (S (S j)))) with (j + 1 * 4)%nat by lia.
    now rewrite Nat.Div0.mod_add.
Qed.

(** X26.  The pixel loop of the demo, on an image whose cells are bytes
    and a LUT of four 256-byte tables (any generated LUT is one): the
    array keeps its length and holds bytes; the cell at index j holds
    master[red[v]], master[green[v]] or master[blue[v]] for j = 0, 1, 2
    modulo 4 and the old byte v, and is untouched for j = 3 modulo 4 (the
    alpha channel never changes).  Under the identity LUT the image is
    unchanged. *)
Theorem applyLUTToImage_keeps_alpha :
  forall (lut : LUTData) (data : list Z),
    bytes data ->
    (wellFormedLUTData lut ->
     let out := applyLUTToImage lut data in
     length out = length data /\ bytes out /\
     forall j, (j < length data)%nat ->
       nth j out 0 = passCell lut j (nth j data 0) /\
       ((j mod 4 = 3)%nat -> nth j out 0 = nth j data 0)) /\
    applyLUTToImage (mkLUT identityTable identityTable identityTable identityTable)
                    data = data.
Proof.
  intros lut data Hd. split.
  - intros Hlut out. unfold out.
    destruct (applyLUTToImage_cells lut data Hlut Hd) as (Hl & Hb & Hc).
    split; [exact Hl|]. split; [exact Hb|].
    intros j Hj. split; [now apply Hc|].
    intros H3. rewrite (Hc j Hj). unfold passCell. now rewrite H3.
  - set (identity := mkLUT identityTable identityTable identityTable identityTable).
    assert (Hid : wellFormedLUTData identity)
      by (repeat split; apply identityTable_wellFormed).
    destruct (applyLUTToImage_cells identity data Hid Hd) as (Hl & _ & Hc).
    apply (nth_ext _ _ 0 0 Hl). intros j Hj. rewrite Hl in Hj.
    rewrite (Hc j Hj). unfold passCell, identity.
    cbn [lut_master lut_red lut_green lut_blue].
    assert (Hv : 0 <= nth j data 0 <= 255).
    { unfold bytes in Hd. rewrite Forall_forall in Hd. apply Hd. now apply nth_In. }
    destruct (j mod 4)%nat as [|[|[|k]]]; rewrite ?byteAt_identity; auto;
      now rewrite byteAt_identity.
Qed.

Lemma applyLUTToImage_keeps_alpha_witness :
  let data := [10; 0; 255; 77; 200; 30; 0; 128] in
  bytes data /\ wellFormedLUTData doubleThenInvert /\
  applyLUTToImage doubleThenInvert data = [235; 255; 0; 77; 0; 225; 255; 128] /\
  nth 3 (applyLUTToImage doubleThenInvert data) 0 = 77.
Proof.
  intros data.
  assert (Hd : bytes data) by (repeat constructor; lia).
  destruct (applyLUTToImage_keeps_alpha doubleThenInvert data Hd) as [H _].
  destruct (H doubleThenInvert_wellFormed) as (_ & _ & Hc).
  split; [exact Hd|]. split; [exact doubleThenInvert_wellFormed|].
  split; [vm_compute; reflexivity|].
  apply (proj2 (Hc 3%nat ltac:(cbn; lia))). reflexivity.
Defined.

(** ** The histogram *)

Lemma histogramMax_from (data : list Z) (start : Z) :
  let max := fold_left (fun max v => if v >? max then v else max) data start in
  start <= max /\ (forall v, In v data -> v <= max) /\
  (max = start \/ In max data).
Proof.
  revert start. induction data as [|a data IH]; intros start.
  - cbn. split; [lia|]. split; [intros v []|now left].
  - cbn [fold_left]. specialize (IH (if a >? start then a else start)).
    cbn zeta in *. destruct IH as (H1 & H2 & H3).
    destruct (Z.gtb_spec a start) as [Hgt|Hle].
    + split; [lia|]. split.
      * intros v [<-|Hv]; [exact H1|now apply H2].
      * destruct H3 as [->|H3]; [right; now left|right; now right].
    + split; [exact H1|]. split.
      * intros v [<-|Hv]; [lia|now apply H2].
      * destruct H3 as [H3|H3]; [now left|right; now right].
Qed.

Lemma histogramMax_spec (data : list Z) :
  0 <= histogramMax data /\ (forall v, In v data -> v <= histogramMax data) /\
  (histogramMax data = 0 \/ In (histogramMax data) data).
Proof. apply (histogramMax_from data 0). Qed.



(** ** What the listener is told *)

Section Notifications.
Context {N : Type} {num : JSNumber N}.

Lemma updatePoints_notifies (s : Session) (newPoints : ChannelPoints) :
  controlledPoints s = None -> listening s = true ->
  let s' := updatePoints (N:=N) s newPoints in
  notified s' = notified s ++ [(points s', lut (N:=N) s')].
Proof.
  intros Hc Hl s'. unfold s'. rewrite notified_updatePoints by exact Hl.
  unfold lut. rewrite points_updatePoints by exact Hc. reflexivity.
Qed.

End Notifications.

(** X28.  On a session that stores its own points and has a listener,
    [onChange] is told exactly what the hook shows next: an action either
    leaves the session as it was (a rejected [addPoint] or [removePoint], an
    [updatePoint] that throws) and tells nothing, or it calls [onChange]
    once, with the new points and the LUT of the new points.  A reset or an
    import always calls it, even when the points do not change. *)
Theorem onChange_gets_the_new_state :
  forall (N : Type) (num : JSNumber N) (s : Session) (a : Action),
    controlledPoints s = None -> listening s = true ->
    let s' := act (N:=N) s a in
    (s' = s \/ notified s' = notified s ++ [(points s', lut (N:=N) s')]) /\
    match a with
    | Edit _ => True
    | _ => notified s' = notified s ++ [(points s', lut (N:=N) s')]
    end.
Proof.
  intros N num s a Hc Hl s'. split.
  - destruct (act_shape (N:=N) s a) as [E|(newPoints & E & _)]; [now left|right].
    unfold s'. rewrite E. now apply updatePoints_notifies.
  - unfold s'. destruct a as [c|channel| |channel l|newPoints]; cbn [act];
      [exact I| | | |]; now apply updatePoints_notifies.
Qed.

Lemma onChange_gets_the_new_state_witness :
  let s : Session := useCurvePoints None None monotone true in
  controlledPoints s = None /\ listening s = true /\
  notified (act (N:=float) s ResetAll) =
    [(getDefaultChannelPoints, lut (N:=float) (act (N:=float) s ResetAll))] /\
  act (N:=float) s (Edit (AddPoint red (mkPoint 3 3))) = s.
Proof.
  intros s.
  destruct (onChange_gets_the_new_state float _ s ResetAll eq_refl eq_refl)
    as [_ Hn].
  split; [reflexivity|]. split; [reflexivity|]. split; [exact Hn|reflexivity].
Defined.
